(** * CPU scheduling simulator: a shallow embedding of [cpusimulator.py]

    The Python program keeps one list of [Process] objects
    ([Scheduler.processes]) and, inside every policy method, lists of
    references to those objects ([ready_queue], [completed_processes],
    the three deques of the multilevel queue).  The embedding keeps the
    objects in a store (a list indexed by position) and represents a
    reference by the position of the object it points to, so that a
    mutation through one reference is seen through all of them. *)

From Stdlib Require Import ZArith Lia.
From Stdlib Require Import Floats.SpecFloat.
From stdpp Require Import base option numbers list.

Local Open Scope Z_scope.

(** ** Exceptions *)

Inductive Exn : Type :=
| IndexError
| ZeroDivisionError
| OverflowError
| StatisticsError
| ValueError.

(** [inl e]: the call raised [e]; [inr v]: it returned [v]. *)
Definition result (A : Type) : Type := (Exn + A)%type.

(** ** The [Process] dataclass *)

Record Process : Type := mkProcess {
  pid : Z;
  arrival_time : Z;
  burst_time : Z;
  priority : Z;
  remaining_time : Z;
  start_time : option Z;
  completion_time : option Z
}.

(** The dataclass-generated [__eq__] compares the tuples of fields. *)
#[global] Instance Process_eq_dec : EqDecision Process.
Proof. solve_decision. Defined.

#[global] Instance Process_inhabited : Inhabited Process :=
  populate (mkProcess 0 0 0 0 0 None None).

Definition with_remaining (p : Process) (r : Z) : Process :=
  mkProcess (pid p) (arrival_time p) (burst_time p) (priority p)
            r (start_time p) (completion_time p).

Definition with_start (p : Process) (t : option Z) : Process :=
  mkProcess (pid p) (arrival_time p) (burst_time p) (priority p)
            (remaining_time p) t (completion_time p).

Definition with_completion (p : Process) (c : option Z) : Process :=
  mkProcess (pid p) (arrival_time p) (burst_time p) (priority p)
            (remaining_time p) (start_time p) c.

Definition turnaround_time (p : Process) : option Z :=
  match completion_time p with
  | None => None
  | Some c => Some (c - arrival_time p)
  end.

Definition waiting_time (p : Process) : option Z :=
  match turnaround_time p with
  | None => None
  | Some ta => Some (ta - burst_time p)
  end.

(** ** The [Scheduler] object *)

Record Scheduler : Type := mkScheduler {
  original_processes : list Process;
  processes : list Process
}.

(** One element of the list comprehension of [reset_processes]. *)
Definition fresh (p : Process) : Process :=
  mkProcess (pid p) (arrival_time p) (burst_time p) (priority p)
            (burst_time p) None None.

Definition reset_processes (sch : Scheduler) : Scheduler :=
  mkScheduler (original_processes sch) (map fresh (original_processes sch)).

(** [Scheduler.__init__]. *)
Definition Scheduler_init (ps : list Process) : Scheduler :=
  reset_processes (mkScheduler ps []).

(** ** Python numbers

    The metrics are Python numbers: an [int], or a [float], which is an
    IEEE 754 binary64 value ([spec_float]: sign, mantissa and exponent of
    a finite value [m * 2 ^ e], a signed zero, an infinity). *)

Inductive number : Type :=
| Int (z : Z)
| Float (f : spec_float).

(** The integer nearest to [n / d], for [0 ≤ n] and [0 < d]; a tie goes
    to the even one. *)
Definition round_half_even (n d : Z) : Z :=
  let q := n / d in
  match 2 * (n mod d) ?= d with
  | Lt => q
  | Gt => q + 1
  | Eq => if Z.even q then q else q + 1
  end.

(** [n / d] divided by [2 ^ e], as a fraction. *)
Definition scaled (n d e : Z) : Z * Z :=
  (n * 2 ^ Z.max 0 (- e), d * 2 ^ Z.max 0 e).

(** The exponent of the doubles around [n / d]: the [e] with
    [2 ^ 52 ≤ (n / d) / 2 ^ e < 2 ^ 53], and -1074 for the subnormal
    range. *)
Definition binade (n d : Z) : Z :=
  let e := Z.log2 n - Z.log2 d - 53 in
  let (n', d') := scaled n d e in
  Z.max (-1074) (if n' / d' <? 2 ^ 53 then e else e + 1).

(** The double nearest to [n / d] with the sign [neg], for [0 ≤ n] and
    [0 < d] (round to nearest, ties to even); an infinity when that is
    beyond the largest double. *)
Definition round_double (neg : bool) (n d : Z) : spec_float :=
  let e := binade n d in
  let (n', d') := scaled n d e in
  let m := round_half_even n' d' in
  if m =? 0 then S754_zero neg
  else
    let (m, e) := if m =? 2 ^ 53 then (2 ^ 52, e + 1) else (m, e) in
    if e <=? 971 then S754_finite neg (Z.to_pos m) e else S754_infinity neg.

(** [a / b] on two [int]s: the correctly rounded quotient. *)
Definition truediv (a b : Z) : result spec_float :=
  if b =? 0 then inl ZeroDivisionError
  else
    match round_double (xorb (a <? 0) (b <? 0)) (Z.abs a) (Z.abs b) with
    | S754_infinity _ => inl OverflowError
    | f => inr f
    end.

(** The value of a finite double as a fraction. *)
Definition numerator (m : positive) (e : Z) : Z := Zpos m * 2 ^ Z.max 0 e.
Definition denominator (e : Z) : Z := 2 ^ Z.max 0 (- e).

(** [x * y] on two [float]s; an overflow gives an infinity, not an
    exception. *)
Definition float_mul (x y : spec_float) : spec_float :=
  match x, y with
  | S754_nan, _ | _, S754_nan => S754_nan
  | S754_infinity sx, S754_infinity sy => S754_infinity (xorb sx sy)
  | S754_infinity sx, S754_finite sy _ _ => S754_infinity (xorb sx sy)
  | S754_finite sx _ _, S754_infinity sy => S754_infinity (xorb sx sy)
  | S754_infinity _, S754_zero _ => S754_nan
  | S754_zero _, S754_infinity _ => S754_nan
  | S754_finite sx _ _, S754_zero sy => S754_zero (xorb sx sy)
  | S754_zero sx, S754_finite sy _ _ => S754_zero (xorb sx sy)
  | S754_zero sx, S754_zero sy => S754_zero (xorb sx sy)
  | S754_finite sx mx ex, S754_finite sy my ey =>
      round_double (xorb sx sy) (numerator mx ex * numerator my ey)
                   (denominator ex * denominator ey)
  end.

(** The [int] 100 as a [float]: 100.0. *)
Definition hundred : spec_float := S754_finite false 7036874417766400 (-46).

(** ** [get_metrics]

    [statistics.mean] of [int]s returns an [int] when the mean is one and
    otherwise converts the exact mean to a [float]; [/] on two [int]s
    returns a [float].  Both raise [OverflowError] when the result is
    beyond the largest double, [/] raises [ZeroDivisionError] on a zero
    divisor, and [max] of an empty sequence raises [ValueError]. *)

Record Metrics : Type := mkMetrics {
  avg_turnaround_time : number;
  avg_waiting_time : number;
  throughput : number;
  cpu_utilization : number
}.

Definition zero_metrics : Metrics := mkMetrics (Int 0) (Int 0) (Int 0) (Int 0).

Definition sumZ (xs : list Z) : Z := foldr Z.add 0 xs.

(** [max] of a non-empty sequence [x, xs...]. *)
Definition py_max (x : Z) (xs : list Z) : Z := foldl Z.max x xs.

(** [statistics.mean] on [int]s. *)
Definition mean (xs : list Z) : result number :=
  match xs with
  | [] => inl StatisticsError
  | _ :: _ =>
      let total := sumZ xs in
      let n := Z.of_nat (length xs) in
      if total mod n =? 0 then inr (Int (total / n))
      else match truediv total n with
           | inl e => inl e
           | inr f => inr (Float f)
           end
  end.

Definition is_completed (p : Process) : bool :=
  match completion_time p with Some _ => true | None => false end.

Definition completed_records (ps : list Process) : list Process :=
  List.filter is_completed ps.

Definition completion_times (ps : list Process) : list Z :=
  omap completion_time ps.

Definition get_metrics (sch : Scheduler) : result Metrics :=
  let completed := completed_records (processes sch) in
  match completed with
  | [] => inr zero_metrics
  | _ :: _ =>
      match completion_times completed with
      | [] => inl ValueError
      | c :: cs =>
          let max_completion_time := py_max c cs in
          match mean (omap turnaround_time completed) with
          | inl e => inl e
          | inr att =>
              match mean (omap waiting_time completed) with
              | inl e => inl e
              | inr awt =>
                  match truediv (Z.of_nat (length completed))
                                max_completion_time with
                  | inl e => inl e
                  | inr thr =>
                      match truediv (sumZ (map burst_time completed))
                                    max_completion_time with
                      | inl e => inl e
                      | inr u =>
                          inr (mkMetrics att awt (Float thr)
                                         (Float (float_mul u hundred)))
                      end
                  end
              end
          end
      end
  end.

(** ** Pieces shared by the seven policy loops *)

(** [process in l] on a list of references: the identity test first, then
    the dataclass [__eq__]. *)
Definition py_in (st : list Process) (i : nat) (l : list nat) : bool :=
  existsb (λ j, (i =? j)%nat || bool_decide (st !!! i = st !!! j)) l.

(** The admission loop [for process in self.processes: if ... append]. *)
Definition enqueue (st : list Process) (t : Z) (done rq : list nat) : list nat :=
  foldl (λ rq i,
           if (arrival_time (st !!! i) <=? t)
              && negb (py_in st i done) && negb (py_in st i rq)
           then rq ++ [i] else rq)
        rq (seq 0 (length st)).

(** [if process.start_time is None: process.start_time = current_time]. *)
Definition set_start (t : Z) (p : Process) : Process :=
  match start_time p with
  | None => with_start p (Some t)
  | Some _ => p
  end.

(** [l.sort(key=...)]: Python's sort is stable, and the result of a stable
    sort is determined by its input; it is computed here by the insertion
    sort that puts an element in front of the first element of the sorted
    tail whose key is not smaller. *)
Fixpoint insert_by (key : nat → Z) (x : nat) (l : list nat) : list nat :=
  match l with
  | [] => [x]
  | y :: l' => if key x <=? key y then x :: l else y :: insert_by key x l'
  end.

Fixpoint sort_by (key : nat → Z) (l : list nat) : list nat :=
  match l with
  | [] => []
  | x :: l' => insert_by key x (sort_by key l')
  end.

(** ** State of a single-queue policy loop *)

Record State : Type := mkState {
  procs : list Process;
  current_time : Z;
  ready_queue : list nat;
  completed_processes : list nat
}.

Definition enqueued (s : State) : list nat :=
  enqueue (procs s) (current_time s) (completed_processes s) (ready_queue s).

Definition idle (s : State) : State :=
  mkState (procs s) (current_time s + 1) [] (completed_processes s).

(** One iteration of the [while] loop of [fcfs]. *)
Definition fcfs_step (s : State) : State :=
  match enqueued s with
  | [] => idle s
  | i :: rq =>
      let p := set_start (current_time s) (procs s !!! i) in
      let t := current_time s + remaining_time p in
      let p := with_completion (with_remaining p 0) (Some t) in
      mkState (<[i := p]> (procs s)) t rq (completed_processes s ++ [i])
  end.

(** One iteration of the loop of [sjf_nonpreemptive]. *)
Definition sjf_nonpreemptive_step (s : State) : State :=
  match enqueued s with
  | [] => idle s
  | rq0 =>
      match sort_by (λ j, remaining_time (procs s !!! j)) rq0 with
      | [] => idle s
      | i :: rq =>
          let p := set_start (current_time s) (procs s !!! i) in
          let t := current_time s + remaining_time p in
          let p := with_completion (with_remaining p 0) (Some t) in
          mkState (<[i := p]> (procs s)) t rq (completed_processes s ++ [i])
      end
  end.

(** One iteration of the loop of [sjf_preemptive]. *)
Definition sjf_preemptive_step (s : State) : State :=
  match enqueued s with
  | [] => idle s
  | rq0 =>
      match sort_by (λ j, remaining_time (procs s !!! j)) rq0 with
      | [] => idle s
      | i :: rq =>
          let p := set_start (current_time s) (procs s !!! i) in
          let p := with_remaining p (remaining_time p - 1) in
          let t := current_time s + 1 in
          if remaining_time p =? 0
          then mkState (<[i := with_completion p (Some t)]> (procs s)) t rq
                       (completed_processes s ++ [i])
          else mkState (<[i := p]> (procs s)) t (i :: rq)
                       (completed_processes s)
      end
  end.

(** One iteration of the loop of [round_robin]. *)
Definition round_robin_step (quantum : Z) (s : State) : State :=
  match enqueued s with
  | [] => idle s
  | i :: rq =>
      let p := set_start (current_time s) (procs s !!! i) in
      let execution_time := Z.min quantum (remaining_time p) in
      let p := with_remaining p (remaining_time p - execution_time) in
      let t := current_time s + execution_time in
      if remaining_time p =? 0
      then mkState (<[i := with_completion p (Some t)]> (procs s)) t rq
                   (completed_processes s ++ [i])
      else mkState (<[i := p]> (procs s)) t (rq ++ [i])
                   (completed_processes s)
  end.

(** One iteration of the loop of [priority_nonpreemptive]. *)
Definition priority_nonpreemptive_step (s : State) : State :=
  match enqueued s with
  | [] => idle s
  | rq0 =>
      match sort_by (λ j, priority (procs s !!! j)) rq0 with
      | [] => idle s
      | i :: rq =>
          let p := set_start (current_time s) (procs s !!! i) in
          let t := current_time s + remaining_time p in
          let p := with_completion (with_remaining p 0) (Some t) in
          mkState (<[i := p]> (procs s)) t rq (completed_processes s ++ [i])
      end
  end.

(** One iteration of the loop of [priority_preemptive]. *)
Definition priority_preemptive_step (s : State) : State :=
  match enqueued s with
  | [] => idle s
  | rq0 =>
      match sort_by (λ j, priority (procs s !!! j)) rq0 with
      | [] => idle s
      | i :: rq =>
          let p := set_start (current_time s) (procs s !!! i) in
          let p := with_remaining p (remaining_time p - 1) in
          let t := current_time s + 1 in
          if remaining_time p =? 0
          then mkState (<[i := with_completion p (Some t)]> (procs s)) t rq
                       (completed_processes s ++ [i])
          else mkState (<[i := p]> (procs s)) t (i :: rq)
                       (completed_processes s)
      end
  end.

(** ** The multilevel queue *)

Record MState : Type := mkMState {
  m_procs : list Process;
  m_time : Z;
  queues : list (list nat);
  m_completed : list nat
}.

(** [l[k]] on a list of length [len]: a negative subscript counts from the
    end, anything outside [-len, len) raises [IndexError]. *)
Definition py_index (len : nat) (k : Z) : result nat :=
  if (0 <=? k) && (k <? Z.of_nat len) then inr (Z.to_nat k)
  else if (- Z.of_nat len <=? k) && (k <? 0)
       then inr (Z.to_nat (Z.of_nat len + k))
       else inl IndexError.

(** [min(process.priority // 4, 2)]. *)
Definition queue_index_of (p : Process) : Z := Z.min (priority p `div` 4) 2.

Definition mlq_enqueue (st : list Process) (t : Z) (done : list nat)
    (qs : list (list nat)) : result (list (list nat)) :=
  foldl (λ acc i,
           match acc with
           | inl e => inl e
           | inr qs =>
               if (arrival_time (st !!! i) <=? t)
                  && negb (py_in st i done) && negb (existsb (py_in st i) qs)
               then match py_index (length qs) (queue_index_of (st !!! i)) with
                    | inl e => inl e
                    | inr k => inr (alter (λ q, q ++ [i]) k qs)
                    end
               else inr qs
           end)
        (inr qs) (seq 0 (length st)).

(** [next(i for i, q in enumerate(queues) if q)], with the queue found;
    [None] when [all(not q for q in queues)]. *)
Fixpoint first_nonempty (qs : list (list nat)) : option (nat * list nat) :=
  match qs with
  | [] => None
  | [] :: qs' =>
      match first_nonempty qs' with
      | None => None
      | Some (k, q) => Some (S k, q)
      end
  | q :: _ => Some (O, q)
  end.

Definition m_idle (s : MState) (qs : list (list nat)) : MState :=
  mkMState (m_procs s) (m_time s + 1) qs (m_completed s).

(** One iteration of the loop of [multilevel_queue]. *)
Definition multilevel_queue_step (quantum : Z) (s : MState) : result MState :=
  match mlq_enqueue (m_procs s) (m_time s) (m_completed s) (queues s) with
  | inl e => inl e
  | inr qs =>
      match first_nonempty qs with
      | None => inr (m_idle s qs)
      | Some (queue_index, q) =>
          match q with
          | [] => inr (m_idle s qs)
          | i :: q' =>
              let p := set_start (m_time s) (m_procs s !!! i) in
              let execution_time :=
                if (queue_index =? 0)%nat then remaining_time p
                else Z.min quantum (remaining_time p) in
              let p := with_remaining p (remaining_time p - execution_time) in
              let t := m_time s + execution_time in
              if remaining_time p =? 0
              then inr (mkMState (<[i := with_completion p (Some t)]> (m_procs s))
                                 t (<[queue_index := q']> qs)
                                 (m_completed s ++ [i]))
              else inr (mkMState (<[i := p]> (m_procs s))
                                 t (<[queue_index := q' ++ [i]]> qs)
                                 (m_completed s))
          end
      end
  end.

(** ** The [while len(completed_processes) < len(self.processes)] loop

    [loop fuel s] runs at most [fuel] iterations: [None] when the fuel is
    used up, otherwise the state in which the loop was left and the
    exception that left it, if any. *)

Section Loop.
Context {S : Type} (guard : S → bool) (step : S → result S).

Fixpoint loop (fuel : nat) (s : S) : option (S * option Exn) :=
  if guard s then
    match fuel with
    | O => None
    | Datatypes.S fuel' =>
        match step s with
        | inl e => Some (s, Some e)
        | inr s' => loop fuel' s'
        end
    end
  else Some (s, None).

(** The states at the head of some iteration of the loop started in
    [s0]. *)
Inductive reach (s0 : S) : S → Prop :=
| reach_start : reach s0 s0
| reach_next s s' :
    reach s0 s → guard s = true → step s = inr s' → reach s0 s'.
End Loop.

Definition total {S : Type} (f : S → S) : S → result S := λ s, inr (f s).

Definition guard (s : State) : bool :=
  (length (completed_processes s) <? length (procs s))%nat.

Definition m_guard (s : MState) : bool :=
  (length (m_completed s) <? length (m_procs s))%nat.

Definition initial (sch : Scheduler) : State :=
  mkState (processes sch) 0 [] [].

Definition m_initial (sch : Scheduler) : MState :=
  mkMState (processes sch) 0 [[]; []; []] [].

(** ** The seven policy methods

    Each one resets, runs its loop and returns [self.get_metrics()]; the
    scheduler comes back with the records the loop has worked on. *)

Definition conclude (sch : Scheduler) (r : option (list Process * option Exn))
    : option (Scheduler * result Metrics) :=
  match r with
  | None => None
  | Some (st, Some e) => Some (mkScheduler (original_processes sch) st, inl e)
  | Some (st, None) =>
      let sch' := mkScheduler (original_processes sch) st in
      Some (sch', get_metrics sch')
  end.

Definition run_single (step : State → State) (fuel : nat) (sch : Scheduler)
    : option (Scheduler * result Metrics) :=
  let sch := reset_processes sch in
  conclude sch
    (match loop guard (total step) fuel (initial sch) with
     | None => None
     | Some (s, e) => Some (procs s, e)
     end).

Definition fcfs := run_single fcfs_step.
Definition sjf_nonpreemptive := run_single sjf_nonpreemptive_step.
Definition sjf_preemptive := run_single sjf_preemptive_step.
Definition round_robin (quantum : Z) := run_single (round_robin_step quantum).
Definition priority_nonpreemptive := run_single priority_nonpreemptive_step.
Definition priority_preemptive := run_single priority_preemptive_step.

Definition multilevel_queue (quantum : Z) (fuel : nat) (sch : Scheduler)
    : option (Scheduler * result Metrics) :=
  let sch := reset_processes sch in
  conclude sch
    (match loop m_guard (multilevel_queue_step quantum) fuel (m_initial sch) with
     | None => None
     | Some (s, e) => Some (m_procs s, e)
     end).

(** The default argument [quantum: int = 2]. *)
Definition default_quantum : Z := 2.

(** ** The seven methods as one family *)

Inductive Policy : Type :=
| FCFS
| SJF_nonpreemptive
| SJF_preemptive
| Round_robin (quantum : Z)
| Priority_nonpreemptive
| Priority_preemptive
| Multilevel_queue (quantum : Z).

Definition run (P : Policy)
    : nat → Scheduler → option (Scheduler * result Metrics) :=
  match P with
  | FCFS => fcfs
  | SJF_nonpreemptive => sjf_nonpreemptive
  | SJF_preemptive => sjf_preemptive
  | Round_robin quantum => round_robin quantum
  | Priority_nonpreemptive => priority_nonpreemptive
  | Priority_preemptive => priority_preemptive
  | Multilevel_queue quantum => multilevel_queue quantum
  end.

Definition visits_single (step : State → State) (sch : Scheduler)
    (st : list Process) : Prop :=
  ∃ s, reach guard (total step) (initial (reset_processes sch)) s
       ∧ procs s = st.

Definition visits_multilevel (quantum : Z) (sch : Scheduler)
    (st : list Process) : Prop :=
  ∃ s, reach m_guard (multilevel_queue_step quantum)
             (m_initial (reset_processes sch)) s
       ∧ m_procs s = st.

(** [visits P sch st]: the loop of method [P], called on [sch], reaches the
    head of an iteration with the records in state [st].  These are the
    record lists the scheduler can hold during and after the call. *)
Definition visits (P : Policy) : Scheduler → list Process → Prop :=
  match P with
  | FCFS => visits_single fcfs_step
  | SJF_nonpreemptive => visits_single sjf_nonpreemptive_step
  | SJF_preemptive => visits_single sjf_preemptive_step
  | Round_robin quantum => visits_single (round_robin_step quantum)
  | Priority_nonpreemptive => visits_single priority_nonpreemptive_step
  | Priority_preemptive => visits_single priority_preemptive_step
  | Multilevel_queue quantum => visits_multilevel quantum
  end.

(** ** One driver for the seven loops

    The seven loops differ in four places only: the queue a process is
    admitted to, the order imposed on the queue before the dispatch, the
    length of the execution slice, and where an unfinished process is left.
    [drive] is the loop body with these four places open; every policy
    step above is an instance of it (lemmas [*_step_drive] below), and the
    invariants of the loops are proved once, on [drive]. *)

Record Discipline : Type := mkDiscipline {
  d_tier : nat → Process → result nat;
  d_key : option (Process → Z);
  d_slice : nat → Z → Z;
  d_stay : bool
}.

Definition d_enqueue (D : Discipline) (st : list Process) (t : Z)
    (done : list nat) (qs : list (list nat)) : result (list (list nat)) :=
  foldl (λ acc i,
           match acc with
           | inl e => inl e
           | inr qs =>
               if (arrival_time (st !!! i) <=? t)
                  && negb (py_in st i done) && negb (existsb (py_in st i) qs)
               then match d_tier D (length qs) (st !!! i) with
                    | inl e => inl e
                    | inr k => inr (alter (λ q, q ++ [i]) k qs)
                    end
               else inr qs
           end)
        (inr qs) (seq 0 (length st)).

Definition d_order (D : Discipline) (st : list Process) (q : list nat)
    : list nat :=
  match d_key D with
  | None => q
  | Some f => sort_by (λ j, f (st !!! j)) q
  end.

(** The slice given to [p] at time [t] in queue [k]. *)
Definition d_run (D : Discipline) (k : nat) (t : Z) (p : Process) : Process :=
  let p := set_start t p in
  with_remaining p (remaining_time p - d_slice D k (remaining_time p)).

Definition drive (D : Discipline) (s : MState) : result MState :=
  match d_enqueue D (m_procs s) (m_time s) (m_completed s) (queues s) with
  | inl e => inl e
  | inr qs =>
      match first_nonempty qs with
      | None => inr (m_idle s qs)
      | Some (k, q) =>
          match d_order D (m_procs s) q with
          | [] => inr (m_idle s qs)
          | i :: q' =>
              let p0 := m_procs s !!! i in
              let p := d_run D k (m_time s) p0 in
              let t := m_time s + d_slice D k (remaining_time p0) in
              if remaining_time p =? 0
              then inr (mkMState (<[i := with_completion p (Some t)]> (m_procs s))
                                 t (<[k := q']> qs) (m_completed s ++ [i]))
              else inr (mkMState (<[i := p]> (m_procs s)) t
                                 (<[k := if d_stay D then i :: q' else q' ++ [i]]> qs)
                                 (m_completed s))
          end
      end
  end.

Definition one_queue : nat → Process → result nat := λ _ _, inr O.

Definition fcfs_d : Discipline :=
  mkDiscipline one_queue None (λ _ r, r) false.
Definition sjf_nonpreemptive_d : Discipline :=
  mkDiscipline one_queue (Some remaining_time) (λ _ r, r) false.
Definition sjf_preemptive_d : Discipline :=
  mkDiscipline one_queue (Some remaining_time) (λ _ _, 1) true.
Definition round_robin_d (quantum : Z) : Discipline :=
  mkDiscipline one_queue None (λ _ r, Z.min quantum r) false.
Definition priority_nonpreemptive_d : Discipline :=
  mkDiscipline one_queue (Some priority) (λ _ r, r) false.
Definition priority_preemptive_d : Discipline :=
  mkDiscipline one_queue (Some priority) (λ _ _, 1) true.
Definition multilevel_queue_d (quantum : Z) : Discipline :=
  mkDiscipline (λ n p, py_index n (queue_index_of p)) None
               (λ k r, if (k =? 0)%nat then r else Z.min quantum r) false.

(** A single-queue state seen as a state of the driver. *)
Definition lift (s : State) : MState :=
  mkMState (procs s) (current_time s) [ready_queue s] (completed_processes s).

(** * Notions used in the statements *)

(** ** Workloads and runs *)

(** The descriptors the specification calls valid. *)
Definition valid_descriptors (ps : list Process) : Prop :=
  NoDup (map pid ps)
  ∧ Forall (λ p, 0 ≤ arrival_time p ∧ 0 < burst_time p) ps.

(** The call returns, and it returns with every record completed. *)
Definition completes_all (P : Policy) (sch : Scheduler) : Prop :=
  ∃ fuel sch' r,
    run P fuel sch = Some (sch', r)
    ∧ Forall (λ p, is_completed p = true) (processes sch').

(** Every slice is positive: the quantum, where there is one, is at least
    one tick. *)
Definition productive (P : Policy) : Prop :=
  match P with
  | Round_robin quantum | Multilevel_queue quantum => 1 ≤ quantum
  | _ => True
  end.

(** The multilevel queue needs [min(priority // 4, 2)] to be a valid
    subscript of a list of three queues. *)
Definition subscript_ok (P : Policy) (p : Process) : Prop :=
  match P with
  | Multilevel_queue _ => -12 ≤ priority p
  | _ => True
  end.

(** What the scheduler promises of a record whose [completion_time] is
    set. *)
Definition completed_ok (p : Process) : Prop :=
  ∀ c, completion_time p = Some c →
       arrival_time p ≤ c
       ∧ remaining_time p = 0
       ∧ turnaround_time p = Some (c - arrival_time p)
       ∧ waiting_time p = Some ((c - arrival_time p) - burst_time p)
       ∧ 0 ≤ (c - arrival_time p) - burst_time p
       ∧ burst_time p ≤ c - arrival_time p.

(** ** Queues *)

(** [i] is in queue number [k]. *)
Definition queued (qs : list (list nat)) (k i : nat) : Prop :=
  ∃ q, qs !! k = Some q ∧ i ∈ q.

(** The queue and the process that the iteration starting in [s]
    dispatches, if it dispatches one. *)
Definition mlq_dispatch (s : MState) : option (nat * nat) :=
  match mlq_enqueue (m_procs s) (m_time s) (m_completed s) (queues s) with
  | inl _ => None
  | inr qs =>
      match first_nonempty qs with
      | Some (k, i :: _) => Some (k, i)
      | _ => None
      end
  end.

(** ** Admission order in the sorting policies *)

(** [a] comes before [b] in [l]. *)
Definition earlier (l : list nat) (a b : nat) : Prop :=
  ∃ l1 l2 l3, l = l1 ++ a :: l2 ++ b :: l3.

(** What the admission loop appends in the iteration starting in [s]. *)
Definition newly_enqueued (s : State) : list nat :=
  drop (length (ready_queue s)) (enqueued s).

(** The policies that sort the ready queue, with their key and their loop
    body. *)
Definition sorting (P : Policy) : option ((Process → Z) * (State → State)) :=
  match P with
  | SJF_nonpreemptive => Some (remaining_time, sjf_nonpreemptive_step)
  | SJF_preemptive => Some (remaining_time, sjf_preemptive_step)
  | Priority_nonpreemptive => Some (priority, priority_nonpreemptive_step)
  | Priority_preemptive => Some (priority, priority_preemptive_step)
  | _ => None
  end.

(** The loop together with the order in which processes have been
    appended to the ready queue since the run started. *)
Inductive reach_log (step : State → State) (s0 : State)
    : State → list nat → Prop :=
| reach_log_start : reach_log step s0 s0 []
| reach_log_next s log :
    reach_log step s0 s log → guard s = true →
    reach_log step s0 (step s) (log ++ newly_enqueued s).

(** An iteration that finds the records in state [st] and leaves them in
    state [st'] has written record [i]: it has run that process. *)
Definition written (st st' : list Process) (i : nat) : Prop :=
  st' !!! i ≠ st !!! i.

(** ** Floats against integers *)

(** [f ≤ k], for an integer [k]. *)
Definition float_le_Z (f : spec_float) (k : Z) : Prop :=
  match f with
  | S754_zero _ => 0 ≤ k
  | S754_finite s m e =>
      (if s then - numerator m e else numerator m e) ≤ k * denominator e
  | S754_infinity s => s = true
  | S754_nan => False
  end.

(** The sign bit of [f] is [neg], and [f] is not a NaN. *)
Definition float_sign (f : spec_float) (neg : bool) : Prop :=
  match f with
  | S754_zero s | S754_finite s _ _ | S754_infinity s => s = neg
  | S754_nan => False
  end.

(** The same for a number of either kind. *)
Definition number_le_Z (x : number) (k : Z) : Prop :=
  match x with
  | Int z => z ≤ k
  | Float f => float_le_Z f k
  end.

(** A number that is not negative: an [int] from 0 on, or a float with a
    clear sign bit that is not a NaN. *)
Definition not_negative (x : number) : Prop :=
  match x with
  | Int z => 0 ≤ z
  | Float f => float_sign f false
  end.

(** A float above zero: a positive finite value or the positive
    infinity. *)
Definition float_positive (f : spec_float) : Prop :=
  match f with
  | S754_finite false _ _ | S754_infinity false => True
  | _ => False
  end.

Definition positive (x : number) : Prop :=
  match x with
  | Int z => 0 < z
  | Float f => float_positive f
  end.

(** A positive float is at least [2 ^ -1074], the least positive
    double. *)
Definition above_least (f : spec_float) : Prop :=
  match f with
  | S754_finite false m e => denominator e ≤ numerator m e * 2 ^ 1074
  | S754_infinity false => True
  | _ => False
  end.

(** The sums and the count that [get_metrics] divides are below
    [2 ^ 1000] in absolute value. *)
Definition in_float_range (sch : Scheduler) : Prop :=
  let completed := completed_records (processes sch) in
  Z.abs (sumZ (omap turnaround_time completed)) < 2 ^ 1000
  ∧ Z.abs (sumZ (omap waiting_time completed)) < 2 ^ 1000
  ∧ Z.abs (sumZ (map burst_time completed)) < 2 ^ 1000
  ∧ Z.of_nat (length completed) < 2 ^ 1000.

(** Completion times [10 ^ 400] and [2 * 10 ^ 400 + 1]. *)
Definition overflow_example : list Process :=
  [ mkProcess 0 0 1 0 0 (Some 0) (Some (10 ^ 400));
    mkProcess 1 0 1 0 0 (Some 0) (Some (2 * 10 ^ 400 + 1)) ].

(** ** Example workloads and states *)

(** Two processes: pid 0 arrives at 0 with burst 5 and priority 1, pid 1
    arrives at 1 with burst 3 and priority 2. *)
Definition spec_example : list Process :=
  [ mkProcess 0 0 5 1 0 None None; mkProcess 1 1 3 2 0 None None ].

(** One process whose priority gives the queue subscript -4. *)
Definition low_priority_example : list Process :=
  [ mkProcess 0 0 5 (-13) 0 None None ].

Definition single_example : list Process :=
  [ mkProcess 0 0 5 0 0 None None ].

(** One process whose priority gives the queue subscript -1. *)
Definition negative_priority_example : list Process :=
  [ mkProcess 0 0 5 (-1) 0 None None ].


(** Priorities 5 and 9, and the state after the first iteration of the
    multilevel queue with quantum 2. *)
Definition tier_example : list Process :=
  [ mkProcess 0 0 5 5 0 None None; mkProcess 1 0 3 9 0 None None ].

Definition tier_example_state : MState :=
  mkMState [ mkProcess 0 0 5 5 3 (Some 0) None; mkProcess 1 0 3 9 3 None None ]
           2 [[]; [0%nat]; [1%nat]] [].

(** A process of priority 0 that arrives while a process of the middle
    queue has the processor, and the state after the first iteration. *)
Definition zero_priority_example : list Process :=
  [ mkProcess 0 0 5 5 0 None None; mkProcess 1 1 4 0 0 None None ].

Definition zero_priority_state : MState :=
  mkMState [ mkProcess 0 0 5 5 3 (Some 0) None; mkProcess 1 1 4 0 4 None None ]
           2 [[]; [0%nat]; []] [].

(** Two processes of equal priority, the second of the list arriving
    first, and the state after the first iteration of the preemptive
    priority policy. *)
Definition tie_example : list Process :=
  [ mkProcess 0 1 2 1 0 None None; mkProcess 1 0 2 1 0 None None ].

Definition tie_example_state : State :=
  mkState [ mkProcess 0 1 2 1 2 None None; mkProcess 1 0 2 1 1 (Some 0) None ]
          1 [1%nat] [].

(** * Proofs *)

(** ** The policy steps are instances of the driver *)

Lemma set_start_remaining t p : remaining_time (set_start t p) = remaining_time p.
Proof. unfold set_start. by destruct (start_time p). Qed.

Lemma d_enqueue_one_queue D st t done rq :
  d_tier D = one_queue →
  d_enqueue D st t done [rq] = inr [enqueue st t done rq].
Proof.
  destruct D as [tier key sl stay]. cbn [d_tier]. intros ->.
  unfold d_enqueue, enqueue. generalize (seq 0 (length st)).
  intros l. revert rq. induction l as [|i l IH]; intros rq; [done|].
  cbn [foldl existsb d_tier]. rewrite orb_false_r. unfold one_queue at 1.
  destruct (_ && _ && _); exact (IH _).
Qed.

Lemma d_enqueue_mlq quantum st t done qs :
  d_enqueue (multilevel_queue_d quantum) st t done qs = mlq_enqueue st t done qs.
Proof. reflexivity. Qed.

Lemma multilevel_queue_step_drive quantum s :
  multilevel_queue_step quantum s = drive (multilevel_queue_d quantum) s.
Proof.
  unfold multilevel_queue_step, drive. rewrite d_enqueue_mlq.
  destruct (mlq_enqueue _ _ _ _) as [e|qs]; [done|].
  destruct (first_nonempty qs) as [[k q]|]; [|done].
  unfold d_order, d_run. cbn [d_key d_slice d_stay multilevel_queue_d].
  destruct q as [|i q']; [done|].
  by rewrite !set_start_remaining.
Qed.

Lemma insert_by_length key x l : length (insert_by key x l) = S (length l).
Proof.
  induction l as [|y l IH]; [done|]. cbn [insert_by].
  destruct (key x <=? key y); cbn [length]; congruence.
Qed.

Lemma sort_by_length key l : length (sort_by key l) = length l.
Proof.
  induction l as [|x l IH]; [done|]. cbn [sort_by].
  rewrite insert_by_length. cbn [length]. congruence.
Qed.

Lemma d_order_length D st q : length (d_order D st q) = length q.
Proof. unfold d_order. destruct (d_key D); [apply sort_by_length|done]. Qed.

Section SingleQueue.
Variable D : Discipline.
Hypothesis D_one : d_tier D = one_queue.

Lemma drive_one_queue s :
  drive D (lift s) =
  match d_order D (procs s) (enqueued s) with
  | [] => inr (lift (idle s))
  | i :: q' =>
      let p0 := procs s !!! i in
      let p := d_run D 0 (current_time s) p0 in
      let t := current_time s + d_slice D 0 (remaining_time p0) in
      if remaining_time p =? 0
      then inr (lift (mkState (<[i := with_completion p (Some t)]> (procs s))
                              t q' (completed_processes s ++ [i])))
      else inr (lift (mkState (<[i := p]> (procs s)) t
                              (if d_stay D then i :: q' else q' ++ [i])
                              (completed_processes s)))
  end.
Proof.
  unfold drive, lift, enqueued. cbn [m_procs m_time queues m_completed].
  rewrite d_enqueue_one_queue by done.
  destruct (enqueue _ _ _ _) as [|j rq] eqn:E.
  - cbn [first_nonempty]. unfold d_order. by destruct (d_key D).
  - cbn [first_nonempty].
    pose proof (d_order_length D (procs s) (j :: rq)) as Hlen.
    by destruct (d_order D _ _).
Qed.
End SingleQueue.

Lemma fcfs_step_drive s : drive fcfs_d (lift s) = inr (lift (fcfs_step s)).
Proof.
  rewrite drive_one_queue by done. unfold fcfs_step, d_order, d_run.
  cbn [d_key d_slice d_stay fcfs_d].
  destruct (enqueued s) as [|i rq]; [done|].
  rewrite !set_start_remaining, Z.sub_diag. by cbn.
Qed.

Lemma round_robin_step_drive quantum s :
  drive (round_robin_d quantum) (lift s) = inr (lift (round_robin_step quantum s)).
Proof.
  rewrite drive_one_queue by done. unfold round_robin_step, d_order, d_run.
  cbn [d_key d_slice d_stay round_robin_d].
  destruct (enqueued s) as [|i rq]; [done|].
  rewrite !set_start_remaining. cbn. by destruct (_ =? 0).
Qed.

Lemma sjf_nonpreemptive_step_drive s :
  drive sjf_nonpreemptive_d (lift s) = inr (lift (sjf_nonpreemptive_step s)).
Proof.
  rewrite drive_one_queue by done. unfold sjf_nonpreemptive_step, d_order, d_run.
  cbn [d_key d_slice d_stay sjf_nonpreemptive_d].
  destruct (enqueued s) as [|j rq0]; [done|].
  destruct (sort_by _ _) as [|i rq]; [done|].
  rewrite !set_start_remaining, Z.sub_diag. by cbn.
Qed.

Lemma priority_nonpreemptive_step_drive s :
  drive priority_nonpreemptive_d (lift s)
  = inr (lift (priority_nonpreemptive_step s)).
Proof.
  rewrite drive_one_queue by done.
  unfold priority_nonpreemptive_step, d_order, d_run.
  cbn [d_key d_slice d_stay priority_nonpreemptive_d].
  destruct (enqueued s) as [|j rq0]; [done|].
  destruct (sort_by _ _) as [|i rq]; [done|].
  rewrite !set_start_remaining, Z.sub_diag. by cbn.
Qed.

Lemma sjf_preemptive_step_drive s :
  drive sjf_preemptive_d (lift s) = inr (lift (sjf_preemptive_step s)).
Proof.
  rewrite drive_one_queue by done. unfold sjf_preemptive_step, d_order, d_run.
  cbn [d_key d_slice d_stay sjf_preemptive_d].
  destruct (enqueued s) as [|j rq0]; [done|].
  destruct (sort_by _ _) as [|i rq]; [done|].
  rewrite !set_start_remaining. cbn. by destruct (_ =? 0).
Qed.

Lemma priority_preemptive_step_drive s :
  drive priority_preemptive_d (lift s) = inr (lift (priority_preemptive_step s)).
Proof.
  rewrite drive_one_queue by done. unfold priority_preemptive_step, d_order, d_run.
  cbn [d_key d_slice d_stay priority_preemptive_d].
  destruct (enqueued s) as [|j rq0]; [done|].
  destruct (sort_by _ _) as [|i rq]; [done|].
  rewrite !set_start_remaining. cbn. by destruct (_ =? 0).
Qed.

(** ** Membership, queues and the admission loop *)

Lemma py_in_spec st i l :
  py_in st i l = true ↔ ∃ j, j ∈ l ∧ st !!! i = st !!! j.
Proof.
  unfold py_in. rewrite existsb_exists. split.
  - intros (j & Hj%list_elem_of_In & H). exists j. split; [done|].
    apply orb_true_iff in H as [->%Nat.eqb_eq|H%bool_decide_eq_true]; done.
  - intros (j & Hj & H). exists j. split; [by apply list_elem_of_In|].
    apply orb_true_iff. right. by apply bool_decide_eq_true.
Qed.

Lemma py_in_self st i l : i ∈ l → py_in st i l = true.
Proof. intros. apply py_in_spec. by exists i. Qed.

Lemma py_in_any_spec st i qs :
  existsb (py_in st i) qs = true ↔ ∃ k j, queued qs k j ∧ st !!! i = st !!! j.
Proof.
  rewrite existsb_exists. split.
  - intros (q & Hq%list_elem_of_In & (j & Hj & E)%py_in_spec).
    apply list_elem_of_lookup in Hq as [k Hk]. exists k, j.
    split; [by exists q|done].
  - intros (k & j & (q & Hk & Hj) & E). exists q. split.
    + apply list_elem_of_In, list_elem_of_lookup. by exists k.
    + apply py_in_spec. by exists j.
Qed.

Lemma queued_alter_app qs k i k' j :
  queued (alter (λ q, q ++ [i]) k qs) k' j
  ↔ queued qs k' j ∨ (k' = k ∧ j = i ∧ (k < length qs)%nat).
Proof.
  unfold queued. rewrite list_lookup_alter. case_decide as E.
  - subst k'. split.
    + intros (q & Hq & Hj). destruct (qs !! k) as [q0|] eqn:E0; [|done].
      cbn in Hq. injection Hq as <-. apply elem_of_app in Hj as [Hj|Hj].
      * left. by exists q0.
      * apply list_elem_of_singleton in Hj. right.
        split_and!; [done..|]. by eapply lookup_lt_Some.
    + intros [(q & Hq & Hj)|(_ & -> & Hlt)].
      * rewrite Hq. exists (q ++ [i]). split; [done|].
        apply elem_of_app. by left.
      * apply lookup_lt_is_Some_2 in Hlt as [q Hq]. rewrite Hq.
        exists (q ++ [i]). split; [done|]. apply elem_of_app. right.
        by apply list_elem_of_singleton.
  - split; [by left|]. intros [H|(-> & _)]; done.
Qed.

Lemma first_nonempty_Some qs k q :
  first_nonempty qs = Some (k, q) →
  qs !! k = Some q ∧ q ≠ [] ∧ ∀ k', (k' < k)%nat → qs !! k' = Some [].
Proof.
  revert k. induction qs as [|q0 qs IH]; intros k; [done|].
  cbn [first_nonempty]. destruct q0 as [|i q0].
  - destruct (first_nonempty qs) as [[k0 q1]|]; [|done].
    intros [= <- <-]. destruct (IH k0 eq_refl) as (H1 & H2 & H3).
    split_and!; [done..|]. intros [|k'] Hk'; [done|].
    apply H3. lia.
  - intros [= <- <-]. split_and!; [done..|]. intros; lia.
Qed.

Lemma first_nonempty_None qs k q :
  first_nonempty qs = None → qs !! k = Some q → q = [].
Proof.
  revert k. induction qs as [|q0 qs IH]; intros k; [done|].
  cbn [first_nonempty]. destruct q0 as [|i q0]; [|done].
  destruct (first_nonempty qs) as [[k0 q1]|] eqn:E; [done|].
  intros _. destruct k as [|k]; cbn; [by intros [= <-]|]. by apply IH.
Qed.

Lemma insert_by_perm key x l : insert_by key x l ≡ₚ x :: l.
Proof.
  induction l as [|y l IH]; [done|]. cbn [insert_by].
  destruct (key x <=? key y); [done|]. rewrite IH. apply Permutation_swap.
Qed.

Lemma sort_by_perm key l : sort_by key l ≡ₚ l.
Proof.
  induction l as [|x l IH]; [done|]. cbn [sort_by].
  by rewrite insert_by_perm, IH.
Qed.

Lemma d_order_perm D st q : d_order D st q ≡ₚ q.
Proof. unfold d_order. destruct (d_key D); [apply sort_by_perm|done]. Qed.

Section Admission.
Variables (D : Discipline) (st : list Process) (t : Z) (done : list nat).

Definition enqueue1 (acc : result (list (list nat))) (i : nat)
    : result (list (list nat)) :=
  match acc with
  | inl e => inl e
  | inr qs =>
      if (arrival_time (st !!! i) <=? t)
         && negb (py_in st i done) && negb (existsb (py_in st i) qs)
      then match d_tier D (length qs) (st !!! i) with
           | inl e => inl e
           | inr k => inr (alter (λ q, q ++ [i]) k qs)
           end
      else inr qs
  end.

Lemma d_enqueue_fold qs :
  d_enqueue D st t done qs = foldl enqueue1 (inr qs) (seq 0 (length st)).
Proof. reflexivity. Qed.

Lemma enqueue1_raised e l : foldl enqueue1 (inl e) l = inl e.
Proof. induction l; [done|]. by cbn. Qed.

(** What the loop appends: [i] goes to the back of queue [k]. *)
Definition eligible (qs : list (list nat)) (i : nat) : Prop :=
  arrival_time (st !!! i) ≤ t ∧ py_in st i done = false
  ∧ existsb (py_in st i) qs = false.

Lemma enqueue_fold_ind (P : list (list nat) → Prop) l qs qs' :
  foldl enqueue1 (inr qs) l = inr qs' →
  P qs →
  (∀ qs i k, P qs → i ∈ l → eligible qs i →
             d_tier D (length qs) (st !!! i) = inr k →
             P (alter (λ q, q ++ [i]) k qs)) →
  P qs'.
Proof.
  revert qs. induction l as [|i l IH]; intros qs Hf HP Hstep.
  - cbn in Hf. by injection Hf as <-.
  - cbn [foldl] in Hf. unfold enqueue1 at 2 in Hf.
    destruct (_ && _ && _) eqn:Hc.
    + destruct (d_tier D _ _) as [e|k] eqn:Hk.
      { by rewrite enqueue1_raised in Hf. }
      apply (IH _ Hf).
      * apply Hstep; [done|left|..|done].
        apply andb_true_iff in Hc as [[H1 H2]%andb_true_iff H3].
        split_and!; [lia|by apply negb_true_iff..].
      * intros ???? Hi. apply Hstep; [done|by right].
    + apply (IH _ Hf HP). intros ???? Hi. apply Hstep; [done|by right].
Qed.

Lemma enqueue_fold_length l qs qs' :
  foldl enqueue1 (inr qs) l = inr qs' → length qs' = length qs.
Proof.
  intros Hf. apply (enqueue_fold_ind (λ q, length q = length qs) _ _ _ Hf);
    [done|]. intros ??? <- _ _ _. apply length_alter.
Qed.

(** Whatever has arrived and is not done is, after the loop, in a queue
    (itself, or a record equal to it). *)
Lemma enqueue_fold_complete l qs qs' i :
  (∀ p k, d_tier D (length qs) p = inr k → (k < length qs)%nat) →
  foldl enqueue1 (inr qs) l = inr qs' →
  i ∈ l → arrival_time (st !!! i) ≤ t → py_in st i done = false →
  existsb (py_in st i) qs' = true.
Proof.
  intros Hlt. revert qs Hlt.
  assert (Hmono : ∀ l qs qs', foldl enqueue1 (inr qs) l = inr qs' →
            existsb (py_in st i) qs = true → existsb (py_in st i) qs' = true).
  { intros l0 qs0 qs0' Hf H0.
    apply (enqueue_fold_ind (λ q, existsb (py_in st i) q = true) _ _ _ Hf);
      [done|].
    intros q j k (k0 & j0 & Hq & E)%py_in_any_spec _ _ _.
    apply py_in_any_spec. exists k0, j0. split; [|done].
    apply queued_alter_app. by left. }
  induction l as [|j l IH]; intros qs Hlt Hf Hi Harr Hdone.
  { by apply elem_of_nil in Hi. }
  cbn [foldl] in Hf. unfold enqueue1 at 2 in Hf.
  apply elem_of_cons in Hi as [->|Hi].
  - rewrite Hdone in Hf. cbn [negb] in Hf.
    destruct (existsb (py_in st j) qs) eqn:Hq.
    + rewrite andb_false_r in Hf. by apply (Hmono _ _ _ Hf).
    + replace (arrival_time (st !!! j) <=? t) with true in Hf by lia.
      cbn in Hf. destruct (d_tier D _ _) as [e|k] eqn:Hk.
      { by rewrite enqueue1_raised in Hf. }
      apply (Hmono _ _ _ Hf). apply py_in_any_spec. exists k, j.
      split; [|done]. apply queued_alter_app. right.
      split_and!; [done..|]. by eapply Hlt.
  - destruct (_ && _ && _).
    + destruct (d_tier D _ _) as [e|k] eqn:Hk.
      { by rewrite enqueue1_raised in Hf. }
      apply (IH _ ltac:(by rewrite length_alter) Hf); done.
    + by apply (IH _ Hlt Hf).
Qed.
End Admission.

(** ** Invariants of the driver *)

Lemma d_run_fields D k t p :
  pid (d_run D k t p) = pid p
  ∧ arrival_time (d_run D k t p) = arrival_time p
  ∧ burst_time (d_run D k t p) = burst_time p
  ∧ priority (d_run D k t p) = priority p
  ∧ completion_time (d_run D k t p) = completion_time p
  ∧ remaining_time (d_run D k t p)
    = remaining_time p - d_slice D k (remaining_time p).
Proof.
  unfold d_run, set_start. destruct p as [a b c d e [s|] f]; by cbn.
Qed.

Lemma queued_insert qs k q k' j :
  queued (<[k := q]> qs) k' j
  ↔ (k' = k ∧ j ∈ q ∧ (k < length qs)%nat) ∨ (k' ≠ k ∧ queued qs k' j).
Proof.
  unfold queued. rewrite list_lookup_insert. case_decide as E.
  - destruct E as [-> Hlt]. split.
    + intros (? & [= <-] & Hj). by left.
    + intros [(_ & Hj & _)|[? _]]; [by exists q|done].
  - split.
    + intros (q0 & Hq & Hj). destruct (decide (k' = k)) as [->|Hne].
      * apply lookup_lt_Some in Hq. exfalso. apply E. by split.
      * right. split; [done|]. by exists q0.
    + intros [(-> & _ & Hlt)|[_ H]]; [|done]. exfalso. by apply E.
Qed.

Ltac fields :=
  cbn [with_completion with_remaining with_start pid arrival_time burst_time
       priority remaining_time start_time completion_time].

Lemma store_lookup_insert (st : list Process) i x j :
  (i < length st)%nat →
  <[i := x]> st !!! j = if decide (j = i) then x else st !!! j.
Proof.
  intros Hi. rewrite list_lookup_total_insert.
  destruct (decide (j = i)) as [->|Hne].
  - by rewrite decide_True.
  - rewrite decide_False; [done|]. intros [? _]. congruence.
Qed.

Section Driver.
Variables (D : Discipline) (ntiers : nat) (good : nat → bool).
Hypothesis tier_lt : ∀ p k, d_tier D ntiers p = inr k → (k < ntiers)%nat.
Hypothesis tier_static :
  ∀ p p', priority p = priority p' → d_tier D ntiers p = d_tier D ntiers p'.
Hypothesis good_slice :
  ∀ k r, good k = true → 1 ≤ r → 1 ≤ d_slice D k r ≤ r.
Hypothesis bad_slice : ∀ k r, good k = false → 1 ≤ r → d_slice D k r ≤ 0.
Hypothesis good_down : ∀ k k', (k' ≤ k)%nat → good k = true → good k' = true.

(** The clock has never gone back: whoever has been admitted or has run
    arrived early enough for the work already done on it. *)
Definition on_time (s : MState) : Prop :=
  0 ≤ m_time s ∧
  ∀ i, (i < length (m_procs s))%nat →
       completion_time (m_procs s !!! i) = None →
       ((∃ k, queued (queues s) k i)
        ∨ remaining_time (m_procs s !!! i) ≠ burst_time (m_procs s !!! i)) →
       arrival_time (m_procs s !!! i) + burst_time (m_procs s !!! i)
       - remaining_time (m_procs s !!! i) ≤ m_time s.

(** A queue whose slices are not positive holds the processor for good;
    nothing else is ever admitted to a queue that makes progress. *)
Definition frozen (s : MState) : Prop :=
  (∀ k i, queued (queues s) k i → good k = false) ∧
  (∃ k i, queued (queues s) k i) ∧
  (∀ i k, (i < length (m_procs s))%nat →
          completion_time (m_procs s !!! i) = None →
          d_tier D ntiers (m_procs s !!! i) = inr k → good k = true →
          m_time s < arrival_time (m_procs s !!! i)).

Record Inv (s : MState) : Prop := mkInv {
  inv_tiers : length (queues s) = ntiers;
  inv_queued : ∀ k i, queued (queues s) k i →
    (i < length (m_procs s))%nat
    ∧ completion_time (m_procs s !!! i) = None
    ∧ d_tier D ntiers (m_procs s !!! i) = inr k;
  inv_nodup : ∀ k q, queues s !! k = Some q → NoDup q;
  inv_done : ∀ i, i ∈ m_completed s ↔
    (i < length (m_procs s))%nat ∧ completion_time (m_procs s !!! i) ≠ None;
  inv_done_nodup : NoDup (m_completed s);
  inv_burst : ∀ i, (i < length (m_procs s))%nat →
    1 ≤ burst_time (m_procs s !!! i);
  inv_record : ∀ i, (i < length (m_procs s))%nat →
    match completion_time (m_procs s !!! i) with
    | Some c => remaining_time (m_procs s !!! i) = 0
                ∧ arrival_time (m_procs s !!! i)
                  + burst_time (m_procs s !!! i) ≤ c
                ∧ 1 ≤ c
    | None => 1 ≤ remaining_time (m_procs s !!! i)
    end;
  inv_phase : on_time s ∨ frozen s
}.

Definition with_queues (s : MState) (qs : list (list nat)) : MState :=
  mkMState (m_procs s) (m_time s) qs (m_completed s).

(** Every arrived, unfinished record is in a queue or equal to a queued
    one. *)
Definition all_enqueued (s : MState) : Prop :=
  ∀ i, (i < length (m_procs s))%nat →
       arrival_time (m_procs s !!! i) ≤ m_time s →
       completion_time (m_procs s !!! i) = None →
       ∃ k j, queued (queues s) k j ∧ m_procs s !!! i = m_procs s !!! j.

Lemma not_done_py_in s i :
  Inv s → completion_time (m_procs s !!! i) = None →
  py_in (m_procs s) i (m_completed s) = false.
Proof.
  intros HI Hc. apply not_true_iff_false.
  intros (j & Hj & E)%py_in_spec.
  apply (inv_done _ HI) in Hj as [_ Hj]. congruence.
Qed.

Lemma py_in_done_false s i :
  Inv s → (i < length (m_procs s))%nat →
  py_in (m_procs s) i (m_completed s) = false →
  completion_time (m_procs s !!! i) = None.
Proof.
  intros HI Hi Hp. destruct (completion_time _) eqn:E; [|done].
  rewrite py_in_self in Hp; [done|].
  apply (inv_done _ HI). split; [done|congruence].
Qed.

Lemma enqueue_inv s qs :
  Inv s →
  d_enqueue D (m_procs s) (m_time s) (m_completed s) (queues s) = inr qs →
  Inv (with_queues s qs) ∧ all_enqueued (with_queues s qs).
Proof.
  intros HI Hf. rewrite d_enqueue_fold in Hf. split.
  - apply (enqueue_fold_ind _ _ _ _ (λ q, Inv (with_queues s q)) _ _ _ Hf).
    { by destruct s. }
    clear qs Hf. intros qs i k HQ Hi (Harr & Hdone & Hq) Hk.
    apply elem_of_seq in Hi as [_ Hi]. cbn in Hi.
    pose proof (py_in_done_false s i HI Hi Hdone) as Hc.
    assert (Hfree : ∀ k', ¬ queued qs k' i).
    { intros k' Hk'. apply not_true_iff_false in Hq. apply Hq.
      apply py_in_any_spec. by exists k', i. }
    pose proof (inv_tiers _ HQ) as Hlen. cbn in Hlen.
    rewrite Hlen in Hk.
    destruct HQ as [Q1 Q2 Q3 Q4 Q5 Q6 Q7 Q8]. cbn in *.
    split; cbn; [by rewrite length_alter|..|done|done|done|done|].
    + intros k' j [Hj|(-> & -> & _)]%queued_alter_app; [by apply Q2|done].
    + intros k' q. rewrite list_lookup_alter. case_decide as E.
      * subst k'. destruct (qs !! k) as [q0|] eqn:E0; [|done].
        cbn. intros [= <-]. apply NoDup_app. split_and!.
        -- by eapply Q3.
        -- intros x Hx ->%list_elem_of_singleton.
           apply (Hfree k). by exists q0.
        -- apply NoDup_singleton.
      * apply Q3.
    + destruct Q8 as [[T1 T2]|(F1 & F2 & F3)].
      * left. split; [done|]. cbn. intros j Hj Hcj Hor.
        destruct (decide (j = i)) as [->|Hne].
        -- destruct (decide (remaining_time (m_procs s !!! i)
                             = burst_time (m_procs s !!! i))) as [->|Hr].
           ++ lia.
           ++ apply T2; [done..|by right].
        -- apply T2; [done..|]. destruct Hor as [[k' Hk']|Hr]; [|by right].
           left. exists k'.
           apply queued_alter_app in Hk' as [?|(_ & ? & _)]; done.
      * right. split_and!; cbn.
        -- intros k' j [Hj|(-> & -> & _)]%queued_alter_app; [by eapply F1|].
           destruct (good k) eqn:Hg; [|done].
           specialize (F3 i k Hi Hc Hk Hg). cbn in F3. lia.
        -- destruct F2 as (k' & j & Hj). exists k', j.
           apply queued_alter_app. by left.
        -- done.
  - intros i Hi Harr Hc. cbn in *. apply py_in_any_spec.
    apply (enqueue_fold_complete D (m_procs s) (m_time s) (m_completed s)
             _ _ _ i) in Hf; [done|..].
    + rewrite (inv_tiers _ HI). apply tier_lt.
    + apply elem_of_seq. lia.
    + done.
    + by apply not_done_py_in.
Qed.

Section Dispatch.
Variables (s : MState) (k i : nat) (q q' : list nat).
Hypothesis HI : Inv s.
Hypothesis Hall : all_enqueued s.
Hypothesis Hk : queues s !! k = Some q.
Hypothesis Hfirst : ∀ k', (k' < k)%nat → queues s !! k' = Some [].
Hypothesis Hperm : d_order D (m_procs s) q = i :: q'.

Local Abbreviation st := (m_procs s).
Local Abbreviation p0 := (m_procs s !!! i).
Local Abbreviation e := (d_slice D k (remaining_time (m_procs s !!! i))).
Local Abbreviation p := (d_run D k (m_time s) (m_procs s !!! i)).

Lemma dispatch_perm : i :: q' ≡ₚ q.
Proof. rewrite <- Hperm. apply d_order_perm. Qed.

Lemma dispatch_queued : queued (queues s) k i.
Proof.
  exists q. split; [done|]. rewrite <- dispatch_perm. by left.
Qed.

Lemma dispatch_facts :
  (i < length st)%nat ∧ completion_time p0 = None
  ∧ d_tier D ntiers p0 = inr k ∧ 1 ≤ remaining_time p0
  ∧ (k < length (queues s))%nat ∧ (i ∉ q') ∧ NoDup q'.
Proof.
  destruct (inv_queued _ HI _ _ dispatch_queued) as (Hi & Hc & Ht).
  pose proof (inv_record _ HI i Hi) as Hr. rewrite Hc in Hr.
  pose proof (inv_nodup _ HI _ _ Hk) as Hnd.
  rewrite <- dispatch_perm in Hnd. apply NoDup_cons in Hnd as [??].
  split_and!; try done. by eapply lookup_lt_Some.
Qed.

(** Another queue entry is another object. *)
Lemma queued_other k' j :
  queued (<[k := q']> (queues s)) k' j → j ≠ i ∧ queued (queues s) k' j.
Proof.
  destruct dispatch_facts as (Hi & Hc & Ht & Hr & Hlt & Hni & Hnd).
  intros [(-> & Hj & _)|[Hne Hj]]%queued_insert.
  - split; [by intros ->|]. exists q. split; [done|].
    rewrite <- dispatch_perm. by right.
  - split; [|done]. intros ->.
    destruct (inv_queued _ HI _ _ Hj) as (_ & _ & Ht'). congruence.
Qed.

Lemma queued_requeue q'' k' j :
  q'' ≡ₚ i :: q' →
  queued (<[k := q'']> (queues s)) k' j ↔ queued (queues s) k' j.
Proof.
  destruct dispatch_facts as (Hi & Hc & Ht & Hr & Hlt & Hni & Hnd).
  intros Hp. rewrite queued_insert. split.
  - intros [(-> & Hj & _)|[_ Hj]]; [|done]. exists q. split; [done|].
    by rewrite <- dispatch_perm, <- Hp.
  - intros Hj. destruct (decide (k' = k)) as [->|Hne]; [left|by right].
    split_and!; [done| |done]. destruct Hj as (q0 & Hq0 & Hj).
    rewrite Hp, dispatch_perm. congruence.
Qed.

(** A slice that finishes the process was given by a queue that makes
    progress, at a time when the clock had never gone back. *)
Lemma good_on_time : good k = true → on_time s.
Proof.
  intros Hg. destruct (inv_phase _ HI) as [?|(F1 & _)]; [done|].
  rewrite (F1 _ _ dispatch_queued) in Hg. done.
Qed.

Lemma finish_inv :
  remaining_time p = 0 →
  Inv (mkMState (<[i := with_completion p (Some (m_time s + e))]> st)
                (m_time s + e) (<[k := q']> (queues s))
                (m_completed s ++ [i])).
Proof.
  intros Hz.
  destruct dispatch_facts as (Hi & Hc & Ht & Hr & Hlt & Hni & Hnd).
  destruct (d_run_fields D k (m_time s) p0) as (_ & Ea & Eb & Ep & Ec & Er).
  assert (Hg : good k = true).
  { destruct (good k) eqn:Hg; [done|].
    pose proof (bad_slice _ _ Hg Hr). lia. }
  pose proof (good_slice _ _ Hg Hr) as He.
  destruct (good_on_time Hg) as [T1 T2].
  split; cbn [m_procs m_time queues m_completed];
    rewrite ?length_insert.
  - apply (inv_tiers _ HI).
  - intros k' j [Hne Hj]%queued_other.
    rewrite store_lookup_insert by done. rewrite decide_False by done.
    by apply (inv_queued _ HI).
  - intros k' q0. rewrite list_lookup_insert. case_decide.
    + by intros [= <-].
    + apply (inv_nodup _ HI).
  - intros j. rewrite elem_of_app, list_elem_of_singleton.
    rewrite store_lookup_insert by done. rewrite (inv_done _ HI).
    case_decide as E; [subst j; fields|]; intuition congruence.
  - apply NoDup_app. split_and!; [apply (inv_done_nodup _ HI)| |
                                   apply NoDup_singleton].
    intros j Hj ->%list_elem_of_singleton.
    apply (inv_done _ HI) in Hj as [_ Hj]. done.
  - intros j Hj. rewrite store_lookup_insert by done.
    case_decide; [fields; rewrite Eb|]; by apply (inv_burst _ HI).
  - intros j Hj. rewrite store_lookup_insert by done.
    case_decide as E; [subst j; fields|by apply (inv_record _ HI)].
    rewrite Ea, Eb. split; [done|].
    specialize (T2 i Hi Hc (or_introl (ex_intro _ k dispatch_queued))).
    lia.
  - left. split; cbn [m_procs m_time queues]; [lia|].
    rewrite length_insert. intros j Hj.
    rewrite store_lookup_insert by done. case_decide as E; [done|].
    intros Hcj Hor. etrans; [apply T2; [done..|]|lia].
    destruct Hor as [[k' [_ Hq]%queued_other]|?]; [left|by right].
    by exists k'.
Qed.

Lemma requeue_inv q'' :
  remaining_time p ≠ 0 → q'' ≡ₚ i :: q' →
  Inv (mkMState (<[i := p]> st) (m_time s + e)
                (<[k := q'']> (queues s)) (m_completed s)).
Proof.
  intros Hnz Hq''.
  destruct dispatch_facts as (Hi & Hc & Ht & Hr & Hlt & Hni & Hnd).
  destruct (d_run_fields D k (m_time s) p0) as (_ & Ea & Eb & Ep & Ec & Er).
  assert (Hrem : 1 ≤ remaining_time p).
  { destruct (good k) eqn:Hg.
    - pose proof (good_slice _ _ Hg Hr). lia.
    - pose proof (bad_slice _ _ Hg Hr). lia. }
  assert (Hsame : ∀ j, completion_time (<[i := p]> st !!! j)
                       = completion_time (st !!! j)
                     ∧ d_tier D ntiers (<[i := p]> st !!! j)
                       = d_tier D ntiers (st !!! j)
                     ∧ burst_time (<[i := p]> st !!! j)
                       = burst_time (st !!! j)
                     ∧ arrival_time (<[i := p]> st !!! j)
                       = arrival_time (st !!! j)).
  { intros j. rewrite store_lookup_insert by done.
    case_decide as E; [subst j|done].
    split_and!; [done| |done..]. by apply tier_static. }
  split; cbn [m_procs m_time queues m_completed];
    rewrite ?length_insert.
  - apply (inv_tiers _ HI).
  - intros k' j Hj%queued_requeue; [|done].
    destruct (Hsame j) as (-> & -> & _). by apply (inv_queued _ HI).
  - intros k' q0. rewrite list_lookup_insert. case_decide.
    + intros [= <-]. rewrite Hq'', dispatch_perm.
      by apply (inv_nodup _ HI k).
    + apply (inv_nodup _ HI).
  - intros j. destruct (Hsame j) as (-> & _). apply (inv_done _ HI).
  - apply (inv_done_nodup _ HI).
  - intros j Hj. destruct (Hsame j) as (_ & _ & -> & _).
    by apply (inv_burst _ HI).
  - intros j Hj. destruct (Hsame j) as (-> & _).
    rewrite store_lookup_insert by done.
    case_decide as E; [subst j; by rewrite Hc|by apply (inv_record _ HI)].
  - destruct (good k) eqn:Hg.
    + pose proof (good_slice _ _ Hg Hr) as He.
      destruct (good_on_time Hg) as [T1 T2].
      left. split; cbn [m_procs m_time queues]; [lia|].
      rewrite length_insert. intros j Hj.
      destruct (Hsame j) as (-> & _ & -> & ->).
      rewrite store_lookup_insert by done. intros Hcj Hor.
      case_decide as E.
      * subst j.
        specialize (T2 i Hi Hc (or_introl (ex_intro _ k dispatch_queued))).
        lia.
      * etrans; [apply T2; [done..|]|lia].
        destruct Hor as [[k' Hq%queued_requeue]|?]; [left| |by right];
          [by exists k'|done].
    + pose proof (bad_slice _ _ Hg Hr) as He.
      assert (Hbad : ∀ k' j, queued (queues s) k' j → good k' = false).
      { destruct (inv_phase _ HI) as [_|(F1 & _)]; [|done].
        intros k' j (q0 & Hq0 & Hj).
        destruct (good k') eqn:Hg'; [|done].
        destruct (decide (k' < k)%nat) as [Hlt'|Hge].
        - rewrite (Hfirst _ Hlt') in Hq0. injection Hq0 as <-.
          by apply elem_of_nil in Hj.
        - rewrite (good_down k' k) in Hg; [done|lia|done]. }
      right. split_and!; cbn [m_procs m_time queues].
      * intros k' j Hj%queued_requeue; [|done]. by eapply Hbad.
      * exists k, i. apply queued_requeue; [done|]. apply dispatch_queued.
      * rewrite length_insert. intros j k' Hj.
        destruct (Hsame j) as (-> & -> & _ & ->).
        intros Hcj Htj Hg'.
        destruct (decide (arrival_time (st !!! j) ≤ m_time s))
          as [Harr|]; [|lia].
        destruct (Hall j Hj Harr Hcj) as (k0 & j0 & Hq0 & E0).
        destruct (inv_queued _ HI _ _ Hq0) as (_ & _ & Ht0).
        rewrite <- E0, Htj in Ht0. injection Ht0 as <-.
        rewrite (Hbad _ _ Hq0) in Hg'. done.
Qed.
End Dispatch.

(** One iteration of the loop keeps the invariant. *)
Theorem drive_inv s s' : Inv s → drive D s = inr s' → Inv s'.
Proof.
  intros HI. unfold drive.
  destruct (d_enqueue D _ _ _ _) as [?|qs] eqn:Ha; [done|].
  destruct (enqueue_inv _ _ HI Ha) as [HQ Hall].
  destruct (first_nonempty qs) as [[k q]|] eqn:Hf.
  - apply first_nonempty_Some in Hf as (Hk & Hne & Hfirst).
    destruct (d_order D (m_procs s) q) as [|i q'] eqn:Ho.
    { pose proof (d_order_length D (m_procs s) q) as Hl.
      rewrite Ho in Hl. by destruct q. }
    pose proof (finish_inv (with_queues s qs) k i q q' HQ Hk Ho) as Hfin.
    pose proof (requeue_inv (with_queues s qs) k i q q' HQ Hall Hk Hfirst Ho)
      as Hreq.
    cbn [m_procs m_time queues m_completed with_queues] in Hfin, Hreq.
    destruct (remaining_time _ =? 0) eqn:Hz; intros [= <-].
    + apply Hfin. by apply Z.eqb_eq.
    + apply Hreq; [by apply Z.eqb_neq|]. destruct (d_stay D); [done|].
      by rewrite Permutation_app_comm.
  - intros [= <-]. destruct HQ as [Q1 Q2 Q3 Q4 Q5 Q6 Q7 Q8]. cbn in *.
    split; cbn; try done.
    destruct Q8 as [[T1 T2]|(_ & (k & i & q & Hq & Hi) & _)].
    + cbn in T1. left. split; cbn; [lia|]. intros j Hj Hc Hor.
      specialize (T2 j Hj Hc Hor). cbn in T2. lia.
    + cbn in Hq. rewrite (first_nonempty_None _ _ _ Hf Hq) in Hi.
      by apply elem_of_nil in Hi.
Qed.

(** The invariant holds when the loop is entered, on the freshly reset
    records, if every burst time is positive. *)
Lemma initial_inv (ps : list Process) :
  (∀ p, p ∈ ps → 1 ≤ burst_time p) →
  Inv (mkMState (map fresh ps) 0 (replicate ntiers []) []).
Proof.
  intros Hb.
  assert (Hno : ∀ k i, ¬ queued (replicate ntiers []) k i).
  { intros k i (q & [-> _]%lookup_replicate & Hi). by apply elem_of_nil in Hi. }
  assert (Hfresh : ∀ i, (i < length (map fresh ps))%nat →
            ∃ p, p ∈ ps ∧ map fresh ps !!! i = fresh p).
  { intros i Hi. rewrite length_map in Hi.
    apply lookup_lt_is_Some_2 in Hi as [p Hp]. exists p.
    split; [by eapply list_elem_of_lookup_2|].
    apply list_lookup_total_correct. by rewrite list_lookup_fmap, Hp. }
  split; cbn [m_procs m_time queues m_completed].
  - apply length_replicate.
  - intros k i H. by apply Hno in H.
  - intros k q [-> _]%lookup_replicate. constructor.
  - intros i. split; [by intros ?%elem_of_nil|].
    intros [Hi Hc]. destruct (Hfresh i Hi) as (p & _ & E).
    by rewrite E in Hc.
  - constructor.
  - intros i Hi. destruct (Hfresh i Hi) as (p & Hp & E). rewrite E. cbn.
    by apply Hb.
  - intros i Hi. destruct (Hfresh i Hi) as (p & Hp & E). rewrite E. cbn.
    by apply Hb.
  - left. split; cbn [m_procs m_time queues]; [done|].
    intros i Hi _ [[k Hq]|Hr].
    + by apply Hno in Hq.
    + destruct (Hfresh i Hi) as (p & Hp & E). by rewrite E in Hr.
Qed.

Lemma reach_inv s0 s : Inv s0 → reach m_guard (drive D) s0 s → Inv s.
Proof. intros H0. induction 1; [done|]. by eapply drive_inv. Qed.
End Driver.

(** ** The seven disciplines satisfy the assumptions of the driver *)

Definition discipline (P : Policy) : Discipline :=
  match P with
  | FCFS => fcfs_d
  | SJF_nonpreemptive => sjf_nonpreemptive_d
  | SJF_preemptive => sjf_preemptive_d
  | Round_robin quantum => round_robin_d quantum
  | Priority_nonpreemptive => priority_nonpreemptive_d
  | Priority_preemptive => priority_preemptive_d
  | Multilevel_queue quantum => multilevel_queue_d quantum
  end.

(** Number of ready queues. *)
Definition tiers (P : Policy) : nat :=
  match P with Multilevel_queue _ => 3%nat | _ => 1%nat end.

(** The queues whose slices are positive. *)
Definition progresses (P : Policy) (k : nat) : bool :=
  match P with
  | Round_robin quantum => 1 <=? quantum
  | Multilevel_queue quantum => (k =? 0)%nat || (1 <=? quantum)
  | _ => true
  end.

Lemma py_index_lt n z k : py_index n z = inr k → (k < n)%nat.
Proof.
  unfold py_index. repeat case_match; intros [= <-]; lia.
Qed.

Lemma discipline_tier_lt P p k :
  d_tier (discipline P) (tiers P) p = inr k → (k < tiers P)%nat.
Proof.
  destruct P; cbn; try (intros [= <-]; lia). apply py_index_lt.
Qed.

Lemma discipline_tier_static P p p' :
  priority p = priority p' →
  d_tier (discipline P) (tiers P) p = d_tier (discipline P) (tiers P) p'.
Proof.
  destruct P; cbn; try done. unfold queue_index_of. by intros ->.
Qed.

Lemma discipline_good_slice P k r :
  progresses P k = true → 1 ≤ r → 1 ≤ d_slice (discipline P) k r ≤ r.
Proof.
  destruct P; cbn; try lia. destruct (k =? 0)%nat; cbn; lia.
Qed.

Lemma discipline_bad_slice P k r :
  progresses P k = false → 1 ≤ r → d_slice (discipline P) k r ≤ 0.
Proof.
  destruct P; cbn; try lia. destruct (k =? 0)%nat; cbn; lia.
Qed.

Lemma discipline_good_down P k k' :
  (k' ≤ k)%nat → progresses P k = true → progresses P k' = true.
Proof.
  destruct P; cbn; try done. intros Hk.
  destruct (k =? 0)%nat eqn:E; cbn.
  - apply Nat.eqb_eq in E. replace k' with O by lia. done.
  - intros ->. apply orb_true_r.
Qed.

Definition PInv (P : Policy) : MState → Prop :=
  Inv (discipline P) (tiers P) (progresses P).

Lemma policy_drive_inv P s s' :
  PInv P s → drive (discipline P) s = inr s' → PInv P s'.
Proof.
  apply drive_inv;
    eauto using discipline_tier_lt, discipline_tier_static,
      discipline_good_slice, discipline_bad_slice, discipline_good_down.
Qed.

Definition start (P : Policy) (sch : Scheduler) : MState :=
  mkMState (map fresh (original_processes sch)) 0 (replicate (tiers P) []) [].

Lemma policy_start_inv P sch :
  (∀ p, p ∈ original_processes sch → 1 ≤ burst_time p) →
  PInv P (start P sch).
Proof. apply initial_inv. Qed.

(** ** From the policy loops to the driver *)

Lemma loop_reach {S} (g : S → bool) step fuel (s0 s : S) e :
  loop g step fuel s0 = Some (s, e) → reach g step s0 s.
Proof.
  revert s0. induction fuel as [|fuel IH]; intros s0; cbn [loop].
  - destruct (g s0); [done|]. intros [= <- <-]. constructor.
  - destruct (g s0) eqn:Hg; [|intros [= <- <-]; constructor].
    destruct (step s0) as [x|s1] eqn:Hs.
    + intros [= <- <-]. constructor.
    + intros H%IH. clear IH. induction H.
      * eapply reach_next; [constructor|done..].
      * eapply reach_next; eauto.
  Qed.

Lemma reach_lift step D s0 s :
  (∀ s, drive D (lift s) = inr (lift (step s))) →
  reach guard (total step) s0 s →
  reach m_guard (drive D) (lift s0) (lift s).
Proof.
  intros Hd. induction 1 as [|s s' _ IH Hg Hs]; [constructor|].
  injection Hs as <-. eapply reach_next; [apply IH|apply Hg|apply Hd].
Qed.

Lemma reach_ext {S} (g : S → bool) step step' (s0 s : S) :
  (∀ s, step s = step' s) → reach g step s0 s → reach g step' s0 s.
Proof.
  intros He. induction 1; [constructor|].
  eapply reach_next; [done..|]. by rewrite <- He.
Qed.

Lemma visits_drive P sch st :
  visits P sch st →
  ∃ s, reach m_guard (drive (discipline P)) (start P sch) s ∧ m_procs s = st.
Proof.
  destruct P; cbn [visits]; intros (s & Hr & <-).
  7: { exists s. split; [|done].
       eapply reach_ext; [apply multilevel_queue_step_drive|done]. }
  all: exists (lift s); split; [|done];
    eapply (reach_lift _ _ _ _ _ Hr).
  Unshelve.
  - apply fcfs_step_drive.
  - apply sjf_nonpreemptive_step_drive.
  - apply sjf_preemptive_step_drive.
  - apply round_robin_step_drive.
  - apply priority_nonpreemptive_step_drive.
  - apply priority_preemptive_step_drive.
Qed.

Lemma run_single_visits step fuel sch sch' r :
  run_single step fuel sch = Some (sch', r) →
  visits_single step sch (processes sch')
  ∧ original_processes sch' = original_processes sch.
Proof.
  unfold run_single, visits_single.
  destruct (loop _ _ _ _) as [[s e]|] eqn:Hl; [|done].
  apply loop_reach in Hl. destruct e as [e|]; cbn; intros [= <- <-];
    (split; [by exists s|done]).
Qed.

Lemma run_visits P fuel sch sch' r :
  run P fuel sch = Some (sch', r) →
  visits P sch (processes sch')
  ∧ original_processes sch' = original_processes sch.
Proof.
  destruct P; cbn [run visits]; try apply run_single_visits.
  unfold multilevel_queue, visits_multilevel.
  destruct (loop _ _ _ _) as [[s e]|] eqn:Hl; [|done].
  apply loop_reach in Hl. destruct e as [e|]; cbn; intros [= <- <-];
    (split; [by exists s|done]).
Qed.

(** What every policy keeps true of the records, when all bursts are
    positive. *)
Lemma visits_inv P sch st :
  (∀ p, p ∈ original_processes sch → 1 ≤ burst_time p) →
  visits P sch st →
  ∃ s, PInv P s ∧ m_procs s = st.
Proof.
  intros Hb (s & Hr & <-)%visits_drive. exists s. split; [|done].
  pose proof (policy_start_inv P sch Hb) as H0.
  induction Hr; [done|]. eapply policy_drive_inv; eauto.
Qed.

Lemma visits_record P sch st p :
  (∀ p, p ∈ original_processes sch → 1 ≤ burst_time p) →
  visits P sch st → p ∈ st →
  match completion_time p with
  | Some c => remaining_time p = 0 ∧ arrival_time p + burst_time p ≤ c ∧ 1 ≤ c
  | None => 1 ≤ remaining_time p
  end ∧ 1 ≤ burst_time p.
Proof.
  intros Hb Hv Hp. destruct (visits_inv P sch st Hb Hv) as (s & HI & <-).
  apply list_elem_of_lookup in Hp as [i Hi].
  pose proof (lookup_lt_Some _ _ _ Hi) as Hlt.
  apply list_lookup_total_correct in Hi as <-.
  split; [by apply (inv_record _ _ _ _ HI)|by apply (inv_burst _ _ _ _ HI)].
Qed.

(** ** Completed records *)

Lemma visits_completed_ok P sch st p :
  Forall (λ p, 0 < burst_time p) (original_processes sch) →
  visits P sch st → p ∈ st → completed_ok p.
Proof.
  intros Hb Hv Hp c Hc.
  assert (Hb' : ∀ p, p ∈ original_processes sch → 1 ≤ burst_time p).
  { intros p' Hp'. rewrite Forall_forall in Hb. specialize (Hb p' Hp'). lia. }
  destruct (visits_record P sch st p Hb' Hv Hp) as [Hr Hbp].
  rewrite Hc in Hr. unfold turnaround_time, waiting_time, turnaround_time.
  rewrite Hc. split_and!; try done; lia.
Qed.

(** C4. Under each of the seven policies (whatever the quantum), on a
    workload whose burst times are all positive, every record with
    [completion_time] set has [completion_time >= arrival_time],
    [remaining_time = 0] and
    [waiting_time = (completion_time - arrival_time) - burst_time >= 0],
    that is [turnaround_time >= burst_time]; this holds of the records at
    every iteration of the loop and of those the method leaves behind. *)
Theorem completed_records_ok (P : Policy) (sch : Scheduler) :
  Forall (λ p, 0 < burst_time p) (original_processes sch) →
  (∀ st p, visits P sch st → p ∈ st → completed_ok p)
  ∧ (∀ fuel sch' r, run P fuel sch = Some (sch', r) →
       ∀ p, p ∈ processes sch' → completed_ok p).
Proof.
  intros Hb. split.
  - intros st p. by apply visits_completed_ok.
  - intros fuel sch' r [Hv _]%run_visits p.
    by apply (visits_completed_ok P sch).
Qed.

Lemma completed_records_ok_witness :
  Forall (λ p, 0 < burst_time p) spec_example
  ∧ run (Round_robin 2) 10 (Scheduler_init spec_example)
    = Some (mkScheduler spec_example
              [ mkProcess 0 0 5 1 0 (Some 0) (Some 7);
                mkProcess 1 1 3 2 0 (Some 4) (Some 8) ],
            inr (mkMetrics (Int 7) (Int 3)
                   (Float (S754_finite false 4503599627370496 (-54)))
                   (Float (S754_finite false 7036874417766400 (-46)))))
  ∧ completed_ok (mkProcess 0 0 5 1 0 (Some 0) (Some 7))
  ∧ completed_ok (mkProcess 1 1 3 2 0 (Some 4) (Some 8)).
Proof.
  assert (Hb : Forall (λ p, 0 < burst_time p) spec_example) by compute_done.
  assert (Hr : run (Round_robin 2) 10 (Scheduler_init spec_example)
    = Some (mkScheduler spec_example
              [ mkProcess 0 0 5 1 0 (Some 0) (Some 7);
                mkProcess 1 1 3 2 0 (Some 4) (Some 8) ],
            inr (mkMetrics (Int 7) (Int 3)
                   (Float (S754_finite false 4503599627370496 (-54)))
                   (Float (S754_finite false 7036874417766400 (-46))))))
    by reflexivity.
  pose proof (proj2 (completed_records_ok (Round_robin 2)
                       (Scheduler_init spec_example) Hb) _ _ _ Hr) as H.
  split_and!; [exact Hb|exact Hr|apply H; cbn..].
  - by left.
  - right. by left.
Defined.

(** ** The divisor of [get_metrics] *)

Lemma py_max_ge x xs : x ≤ py_max x xs.
Proof.
  unfold py_max. revert x. induction xs as [|y xs IH]; intros x; cbn; [lia|].
  etrans; [|apply IH]. lia.
Qed.

Lemma is_completed_Some p : is_completed p = true → ∃ c, completion_time p = Some c.
Proof. unfold is_completed. destruct (completion_time p); [eauto|done]. Qed.

Lemma completion_times_cons st p l :
  completed_records st = p :: l →
  ∃ c, completion_time p = Some c
       ∧ completion_times (completed_records st) = c :: completion_times l.
Proof.
  intros H. assert (Hin : In p (completed_records st)) by (rewrite H; by left).
  apply filter_In in Hin as [_ [c Hc]%is_completed_Some].
  exists c. split; [done|]. rewrite H. unfold completion_times. cbn.
  by rewrite Hc.
Qed.

Lemma completion_times_elem st c :
  c ∈ completion_times (completed_records st) →
  ∃ p, p ∈ st ∧ completion_time p = Some c.
Proof.
  unfold completion_times. intros (p & Hp & Hc)%list_elem_of_omap.
  apply list_elem_of_In, filter_In in Hp as [Hp _].
  exists p. split; [by apply list_elem_of_In|done].
Qed.

(** [/] raises [ZeroDivisionError] on a zero divisor and on nothing else;
    its other exception is [OverflowError]. *)
Lemma truediv_raises a b e :
  truediv a b = inl e →
  (e = ZeroDivisionError ∧ b = 0) ∨ (e = OverflowError ∧ b ≠ 0).
Proof.
  unfold truediv. destruct (b =? 0) eqn:E.
  - intros [= <-]. left. split; [done|lia].
  - destruct (round_double _ _ _); try done.
    intros [= <-]. right. split; [done|lia].
Qed.

Lemma mean_raises xs e :
  mean xs = inl e → (e = StatisticsError ∧ xs = []) ∨ e = OverflowError.
Proof.
  destruct xs as [|x xs]; [intros [= <-]; by left|]. unfold mean.
  destruct (_ =? 0); [done|].
  destruct (truediv _ _) as [e'|f] eqn:E; [|done]. intros [= <-].
  apply truediv_raises in E as [[_ E]|[E _]]; [|by right].
  cbn [length] in E. lia.
Qed.

Lemma omap_turnaround_cons p l c :
  completion_time p = Some c →
  omap turnaround_time (p :: l) = (c - arrival_time p) :: omap turnaround_time l.
Proof. intros Hc. cbn. unfold turnaround_time at 1. by rewrite Hc. Qed.

Lemma omap_waiting_cons p l c :
  completion_time p = Some c →
  omap waiting_time (p :: l)
  = (c - arrival_time p - burst_time p) :: omap waiting_time l.
Proof.
  intros Hc. cbn. unfold waiting_time at 1, turnaround_time. by rewrite Hc.
Qed.

Lemma visits_divisor_positive P sch st :
  Forall (λ p, 1 ≤ burst_time p) (original_processes sch) →
  visits P sch st → completed_records st ≠ [] →
  ∃ c cs,
    completion_times (completed_records st) = c :: cs
    ∧ 0 < py_max c cs.
Proof.
  intros Hb Hv Hne.
  assert (Hb' : ∀ p, p ∈ original_processes sch → 1 ≤ burst_time p).
  { by apply Forall_forall. }
  destruct (completed_records st) as [|p l] eqn:Hcr; [done|].
  destruct (completion_times_cons _ _ _ Hcr) as (c & Hc & Hct).
  rewrite Hcr in Hct.
  exists c, (completion_times l). split; [done|].
  pose proof (py_max_ge c (completion_times l)) as Hge.
  destruct (completion_times_elem st c) as (p' & Hp' & Hc').
  { rewrite Hcr, Hct. by left. }
  destruct (visits_record P sch st p' Hb' Hv Hp') as [Hr _].
  rewrite Hc' in Hr. lia.
Qed.

(** The exceptions of [get_metrics]: a zero divisor, or a result beyond
    the largest double. *)
Lemma get_metrics_raises sch e :
  get_metrics sch = inl e →
  ∃ c cs,
    completion_times (completed_records (processes sch)) = c :: cs
    ∧ ((e = ZeroDivisionError ∧ py_max c cs = 0) ∨ e = OverflowError).
Proof.
  unfold get_metrics.
  destruct (completed_records (processes sch)) as [|p l] eqn:E; [done|].
  destruct (completion_times_cons _ _ _ E) as (c & _ & Hc).
  rewrite E in Hc. rewrite Hc. intros H. exists c, (completion_times l).
  split; [done|].
  assert (Hp : is_completed p = true).
  { assert (Hin : In p (completed_records (processes sch)))
      by (rewrite E; by left).
    by apply filter_In in Hin as [_ ?]. }
  destruct (is_completed_Some p Hp) as [c0 Hc0].
  destruct (mean _) as [e1|att] eqn:E1.
  { injection H as <-. apply mean_raises in E1 as [[_ E1]|E1]; [|by right].
    by rewrite (omap_turnaround_cons p l c0 Hc0) in E1. }
  destruct (mean (omap waiting_time _)) as [e2|awt] eqn:E2.
  { injection H as <-. apply mean_raises in E2 as [[_ E2]|E2]; [|by right].
    by rewrite (omap_waiting_cons p l c0 Hc0) in E2. }
  destruct (truediv (Z.of_nat _) _) as [e3|thr] eqn:E3.
  { injection H as <-.
    apply truediv_raises in E3 as [[He Hz]|[He _]]; subst e3;
      [by left|by right]. }
  destruct (truediv (sumZ _) _) as [e4|u] eqn:E4; [|done].
  injection H as <-.
  apply truediv_raises in E4 as [[He Hz]|[He _]]; subst e4;
    [by left|by right].
Qed.

(** On the records of a policy loop with positive burst times, the only
    exception of [get_metrics] is [OverflowError]. *)
Lemma visits_metrics_raise P sch sch' e :
  Forall (λ p, 1 ≤ burst_time p) (original_processes sch) →
  visits P sch (processes sch') →
  get_metrics sch' = inl e → e = OverflowError.
Proof.
  intros Hb Hv (c & cs & Hc & [[_ Hz]|?])%get_metrics_raises; [|done].
  destruct (visits_divisor_positive P sch (processes sch') Hb Hv)
    as (c' & cs' & Hc' & Hpos).
  { intros E. by rewrite E in Hc. }
  rewrite Hc in Hc'. injection Hc' as <- <-. lia.
Qed.

(** C10. On a workload whose burst times are all at least 1, whenever the
    records of a policy loop (at any iteration, for any quantum) include a
    completed one, the maximum [completion_time] of the completed records
    is strictly positive, so the two divisions of [get_metrics] never
    divide by zero: neither they nor [get_metrics] raise
    [ZeroDivisionError]. *)
Theorem max_completion_time_positive (P : Policy) (sch : Scheduler)
    (st : list Process) :
  Forall (λ p, 1 ≤ burst_time p) (original_processes sch) →
  visits P sch st →
  completed_records st ≠ [] →
  ∃ c cs,
    completion_times (completed_records st) = c :: cs
    ∧ 0 < py_max c cs
    ∧ (∀ a, truediv a (py_max c cs) ≠ inl ZeroDivisionError)
    ∧ get_metrics (mkScheduler (original_processes sch) st)
      ≠ inl ZeroDivisionError.
Proof.
  intros Hb Hv Hne.
  destruct (visits_divisor_positive P sch st Hb Hv Hne) as (c & cs & Hc & Hpos).
  exists c, cs. split_and!; [done..| |].
  - intros a [[_ ?]|[? _]]%truediv_raises; [lia|done].
  - intros (c' & cs' & Hc' & [[_ Hz]|?])%get_metrics_raises; [|done].
    cbn [processes] in Hc'. rewrite Hc in Hc'. injection Hc' as <- <-. lia.
Qed.

Lemma max_completion_time_positive_witness :
  Forall (λ p, 1 ≤ burst_time p) spec_example
  ∧ visits (Multilevel_queue (-3)) (Scheduler_init spec_example)
      [ mkProcess 0 0 5 1 0 (Some 0) (Some 5);
        mkProcess 1 1 3 2 3 None None ]
  ∧ ∃ c cs,
      completion_times (completed_records
        [ mkProcess 0 0 5 1 0 (Some 0) (Some 5);
          mkProcess 1 1 3 2 3 None None ]) = c :: cs
      ∧ 0 < py_max c cs
      ∧ (∀ a, truediv a (py_max c cs) ≠ inl ZeroDivisionError)
      ∧ get_metrics (mkScheduler spec_example
          [ mkProcess 0 0 5 1 0 (Some 0) (Some 5);
            mkProcess 1 1 3 2 3 None None ]) ≠ inl ZeroDivisionError.
Proof.
  assert (Hb : Forall (λ p, 1 ≤ burst_time p) spec_example) by compute_done.
  assert (Hv : visits (Multilevel_queue (-3)) (Scheduler_init spec_example)
      [ mkProcess 0 0 5 1 0 (Some 0) (Some 5);
        mkProcess 1 1 3 2 3 None None ]).
  { eexists. split.
    - eapply reach_next; [apply reach_start|reflexivity|reflexivity].
    - reflexivity. }
  split_and!; [exact Hb|exact Hv|].
  exact (max_completion_time_positive _ (Scheduler_init spec_example) _
           Hb Hv ltac:(discriminate)).
Defined.

(** ** Every method is the driver run on its discipline *)

Definition outcome (r : option (MState * option Exn))
    : option (list Process * option Exn) :=
  match r with
  | None => None
  | Some (s, e) => Some (m_procs s, e)
  end.

Lemma loop_lift step D fuel s :
  (∀ s, drive D (lift s) = inr (lift (step s))) →
  outcome (loop m_guard (drive D) fuel (lift s))
  = match loop guard (total step) fuel s with
    | None => None
    | Some (s', e) => Some (procs s', e)
    end.
Proof.
  intros Hd. revert s. induction fuel as [|fuel IH]; intros s; cbn [loop].
  - change (m_guard (lift s)) with (guard s). by destruct (guard s).
  - change (m_guard (lift s)) with (guard s). destruct (guard s); [|done].
    rewrite Hd. unfold total. apply IH.
Qed.

Lemma loop_ext {S} (g : S → bool) step step' fuel (s : S) :
  (∀ s, step s = step' s) → loop g step fuel s = loop g step' fuel s.
Proof.
  intros He. revert s. induction fuel as [|fuel IH]; intros s; cbn [loop];
    [done|]. rewrite He. destruct (g s); [|done].
  destruct (step' s); [done|apply IH].
Qed.

Lemma run_drive P fuel sch :
  run P fuel sch
  = conclude (reset_processes sch)
      (outcome (loop m_guard (drive (discipline P)) fuel (start P sch))).
Proof.
  destruct P; cbn [run discipline].
  7: { unfold multilevel_queue.
       by rewrite (loop_ext _ _ _ _ _ (multilevel_queue_step_drive quantum)). }
  all: unfold fcfs, sjf_nonpreemptive, sjf_preemptive, round_robin,
         priority_nonpreemptive, priority_preemptive, run_single;
       f_equal; symmetry;
       change (start _ sch) with (lift (initial (reset_processes sch))).
  - apply (loop_lift fcfs_step), fcfs_step_drive.
  - apply (loop_lift sjf_nonpreemptive_step), sjf_nonpreemptive_step_drive.
  - apply (loop_lift sjf_preemptive_step), sjf_preemptive_step_drive.
  - apply (loop_lift (round_robin_step quantum)), round_robin_step_drive.
  - apply (loop_lift priority_nonpreemptive_step),
      priority_nonpreemptive_step_drive.
  - apply (loop_lift priority_preemptive_step), priority_preemptive_step_drive.
Qed.

(** ** Termination *)

(** The descriptor fields of a record never change. *)
Lemma drive_static D s s' j :
  drive D s = inr s' →
  length (m_procs s') = length (m_procs s)
  ∧ fresh (m_procs s' !!! j) = fresh (m_procs s !!! j).
Proof.
  unfold drive. destruct (d_enqueue D _ _ _ _) as [?|qs]; [done|].
  destruct (first_nonempty qs) as [[k q]|]; [|by intros [= <-]].
  destruct (d_order D _ q) as [|i q']; [by intros [= <-]|].
  destruct (d_run_fields D k (m_time s) (m_procs s !!! i))
    as (E1 & E2 & E3 & E4 & _).
  destruct (_ =? 0); intros [= <-]; cbn [m_procs];
    rewrite length_insert, list_lookup_total_insert;
    (split; [done|]); case_decide as E; try done;
    destruct E as [<- _]; unfold fresh; fields; congruence.
Qed.

Lemma sumZ_insert (f : Process → Z) st i x :
  (i < length st)%nat →
  sumZ (map f (<[i := x]> st)) = sumZ (map f st) - f (st !!! i) + f x.
Proof.
  revert i. induction st as [|p st IH]; intros i Hi; [cbn in Hi; lia|].
  destruct i as [|i]; [cbn; lia|].
  change ((p :: st) !!! S i) with (st !!! i).
  cbn -[lookup_total]. cbn in Hi. unfold sumZ in IH. rewrite IH by lia. lia.
Qed.

Lemma sumZ_nonneg (f : Process → Z) st :
  (∀ i, (i < length st)%nat → 0 ≤ f (st !!! i)) → 0 ≤ sumZ (map f st).
Proof.
  induction st as [|p st IH]; intros H; cbn; [done|].
  pose proof (H O ltac:(cbn; lia)) as H0. cbn in H0.
  assert (0 ≤ sumZ (map f st)); [|unfold sumZ in *; lia].
  apply IH. intros i Hi. apply (H (S i)). cbn. lia.
Qed.

(** Fewer references than objects: some object is not referenced. *)
Lemma missing_index (l : list nat) n :
  NoDup l → (length l < n)%nat → ∃ i, (i < n)%nat ∧ i ∉ l.
Proof.
  intros Hnd Hlen.
  destruct (decide (Forall (λ i, i ∈ l) (seq 0 n))) as [Hall|Hex].
  - assert (seq 0 n ⊆+ l) as Hsub.
    { apply NoDup_submseteq; [apply NoDup_seq|].
      intros x Hx. rewrite Forall_forall in Hall. by apply Hall. }
    apply submseteq_length in Hsub. rewrite length_seq in Hsub. lia.
  - apply not_Forall_Exists in Hex; [|apply _].
    apply Exists_exists in Hex as (i & Hi & Hni).
    apply elem_of_seq in Hi. exists i. split; [lia|done].
Qed.

(** As many references as objects: every object is referenced. *)
Lemma full_index (l : list nat) n i :
  NoDup l → (∀ j, j ∈ l → (j < n)%nat) → (n ≤ length l)%nat →
  (i < n)%nat → i ∈ l.
Proof.
  intros Hnd Hlt Hlen Hi.
  assert (l ⊆+ seq 0 n) as Hsub.
  { apply NoDup_submseteq; [done|]. intros x Hx. apply elem_of_seq.
    specialize (Hlt x Hx). lia. }
  apply submseteq_length_Permutation in Hsub; [|by rewrite length_seq].
  rewrite Hsub. apply elem_of_seq. lia.
Qed.

Lemma enqueue_fold_ok D st t done l qs :
  (∀ i, i ∈ l → ∃ k, d_tier D (length qs) (st !!! i) = inr k) →
  ∃ qs', foldl (enqueue1 D st t done) (inr qs) l = inr qs'.
Proof.
  revert qs. induction l as [|i l IH]; intros qs Hok; [by exists qs|].
  cbn [foldl]. unfold enqueue1 at 2.
  destruct (_ && _ && _).
  - destruct (Hok i) as [k ->]; [by left|]. apply IH.
    intros j Hj. rewrite length_alter. apply Hok. by right.
  - apply IH. intros j Hj. apply Hok. by right.
Qed.

(** The queue subscript computed for [p] does not raise. *)
Definition placeable (P : Policy) (p : Process) : Prop :=
  ∃ k, d_tier (discipline P) (tiers P) p = inr k.

Definition remaining_work (st : list Process) : Z :=
  sumZ (map remaining_time st).

(** What is left to do: ticks of work, and idle ticks until the last
    arrival [M]. *)
Definition measure (M : Z) (s : MState) : nat :=
  (Z.to_nat (remaining_work (m_procs s)) + Z.to_nat (M - m_time s))%nat.

Lemma productive_progresses P k : productive P → progresses P k = true.
Proof.
  destruct P; cbn; try done; intros H.
  - lia.
  - apply orb_true_iff. right. lia.
Qed.

Section Termination.
Variables (P : Policy) (M : Z).
Hypothesis Hprod : productive P.

Record TInv (s : MState) : Prop := mkTInv {
  t_inv : PInv P s;
  t_place : ∀ i, (i < length (m_procs s))%nat → placeable P (m_procs s !!! i);
  t_arrival : ∀ i, (i < length (m_procs s))%nat →
    arrival_time (m_procs s !!! i) ≤ M
}.

Lemma drive_tinv s s' : TInv s → drive (discipline P) s = inr s' → TInv s'.
Proof.
  intros [H1 H2 H3] Hd. split.
  - by eapply policy_drive_inv.
  - intros i Hi. destruct (drive_static _ _ _ i Hd) as [Hl Hf].
    rewrite Hl in Hi. destruct (H2 i Hi) as [k Hk]. exists k.
    rewrite <- Hk. apply discipline_tier_static.
    by apply (f_equal priority) in Hf.
  - intros i Hi. destruct (drive_static _ _ _ i Hd) as [Hl Hf].
    rewrite Hl in Hi. apply (f_equal arrival_time) in Hf. cbn in Hf.
    rewrite Hf. by apply H3.
Qed.

Lemma remaining_nonneg s : PInv P s → 0 ≤ remaining_work (m_procs s).
Proof.
  intros HI. apply sumZ_nonneg. intros i Hi.
  pose proof (inv_record _ _ _ _ HI i Hi) as Hr.
  destruct (completion_time _); lia.
Qed.

(** While the loop condition holds, an iteration does not raise and
    leaves strictly less to do. *)
Lemma drive_progress s :
  TInv s → m_guard s = true →
  ∃ s', drive (discipline P) s = inr s' ∧ (measure M s' < measure M s)%nat.
Proof.
  intros HT Hg. pose proof HT as [HI Hpl Harr].
  assert (Hnext : ∀ s', drive (discipline P) s = inr s' →
                        0 ≤ remaining_work (m_procs s')).
  { intros s' Hs'. apply remaining_nonneg. by eapply policy_drive_inv. }
  revert Hnext. unfold drive.
  destruct (enqueue_fold_ok (discipline P) (m_procs s) (m_time s)
              (m_completed s) (seq 0 (length (m_procs s))) (queues s))
    as [qs Hqs].
  { intros i [_ Hi]%elem_of_seq. rewrite (inv_tiers _ _ _ _ HI).
    by apply Hpl. }
  rewrite d_enqueue_fold, Hqs.
  rewrite <- d_enqueue_fold in Hqs.
  destruct (enqueue_inv _ _ _ (discipline_tier_lt P) _ _ HI Hqs) as [HQ Hall].
  destruct (first_nonempty qs) as [[k q]|] eqn:Hf.
  - apply first_nonempty_Some in Hf as (Hk & Hne & Hfirst).
    destruct (d_order (discipline P) (m_procs s) q) as [|i q'] eqn:Ho.
    { pose proof (d_order_length (discipline P) (m_procs s) q) as Hl.
      rewrite Ho in Hl. by destruct q. }
    destruct (dispatch_facts _ _ _ _ _ _ _ _ HQ Hk Ho)
      as (Hi & Hc & Ht & Hr & _).
    cbn [with_queues m_procs] in Hi, Hc, Hr.
    pose proof (discipline_good_slice P k _ (productive_progresses P k Hprod) Hr)
      as He.
    destruct (d_run_fields (discipline P) k (m_time s) (m_procs s !!! i))
      as (_ & _ & _ & _ & _ & Er).
    assert (Hsum : ∀ x, remaining_time x = remaining_time (m_procs s !!! i)
                         - d_slice (discipline P) k
                             (remaining_time (m_procs s !!! i)) →
              remaining_work (<[i := x]> (m_procs s))
              = remaining_work (m_procs s)
                - d_slice (discipline P) k (remaining_time (m_procs s !!! i))).
    { intros x Hx. unfold remaining_work. rewrite sumZ_insert by done. lia. }
    destruct (_ =? 0); intros Hnext; eexists; (split; [reflexivity|]);
      specialize (Hnext _ eq_refl); revert Hnext;
      unfold measure; cbn [m_procs m_time];
      rewrite Hsum by (fields; done); lia.
  - intros _. eexists. split; [reflexivity|].
    unfold measure, m_idle. cbn [m_procs m_time].
    destruct (missing_index (m_completed s) (length (m_procs s)))
      as (i & Hi & Hni).
    { apply (inv_done_nodup _ _ _ _ HI). }
    { unfold m_guard in Hg. by apply Nat.ltb_lt. }
    assert (Hc : completion_time (m_procs s !!! i) = None).
    { destruct (completion_time _) eqn:E; [|done]. exfalso. apply Hni.
      apply (inv_done _ _ _ _ HI). split; [done|congruence]. }
    assert (m_time s < arrival_time (m_procs s !!! i)).
    { destruct (decide (arrival_time (m_procs s !!! i) ≤ m_time s))
        as [Hle|]; [|lia].
      destruct (Hall i Hi Hle Hc) as (k & j & (q & Hq & Hj) & _).
      cbn in Hq. rewrite (first_nonempty_None _ _ _ Hf Hq) in Hj.
      by apply elem_of_nil in Hj. }
    specialize (Harr i Hi). lia.
Qed.

Lemma drive_terminates n s :
  (measure M s < n)%nat → TInv s →
  ∃ fuel s', loop m_guard (drive (discipline P)) fuel s = Some (s', None)
             ∧ m_guard s' = false ∧ TInv s'.
Proof.
  revert s. induction n as [|n IH]; intros s Hm HT; [lia|].
  destruct (m_guard s) eqn:Hg.
  - destruct (drive_progress s HT Hg) as (s1 & Hs1 & Hlt).
    destruct (IH s1) as (fuel & s' & Hl & Hg' & HT');
      [lia|by eapply drive_tinv|].
    exists (S fuel), s'. cbn [loop]. by rewrite Hg, Hs1.
  - exists O, s. cbn [loop]. by rewrite Hg.
Qed.
End Termination.

Lemma all_completed P s i :
  PInv P s → m_guard s = false → (i < length (m_procs s))%nat →
  completion_time (m_procs s !!! i) ≠ None.
Proof.
  intros HI Hg Hi. apply (inv_done _ _ _ _ HI).
  apply (full_index _ (length (m_procs s))); [apply (inv_done_nodup _ _ _ _ HI)
                                              | | |done].
  - intros j Hj. by apply (inv_done _ _ _ _ HI) in Hj as [? _].
  - unfold m_guard in Hg. by apply Nat.ltb_ge.
Qed.

Definition last_arrival (ps : list Process) : Z :=
  foldr Z.max 0 (map arrival_time ps).

Lemma last_arrival_ge ps p : p ∈ ps → arrival_time p ≤ last_arrival ps.
Proof.
  unfold last_arrival. induction ps as [|q ps IH]; [by intros ?%elem_of_nil|].
  intros [->|Hp]%elem_of_cons; cbn; [lia|]. specialize (IH Hp). lia.
Qed.

Lemma fresh_lookup ps i :
  (i < length (map fresh ps))%nat →
  ∃ p, p ∈ ps ∧ map fresh ps !!! i = fresh p.
Proof.
  intros Hi. rewrite length_map in Hi.
  apply lookup_lt_is_Some_2 in Hi as [p Hp]. exists p.
  split; [by eapply list_elem_of_lookup_2|].
  apply list_lookup_total_correct. by rewrite list_lookup_fmap, Hp.
Qed.

Lemma subscript_ok_placeable P p : subscript_ok P p → placeable P p.
Proof.
  unfold placeable. destruct P; cbn; eauto.
  intros Hp. unfold py_index, queue_index_of.
  assert (-3 ≤ priority p `div` 4) by (apply Z.div_le_lower_bound; lia).
  set (z := Z.min (priority p `div` 4) 2). assert (-3 ≤ z ≤ 2) by lia.
  change (- Z.of_nat 3) with (-3). change (Z.of_nat 3) with 3.
  destruct (Z.leb_spec 0 z), (Z.ltb_spec z 3); cbn; eauto; try lia.
  destruct (Z.leb_spec (-3) z), (Z.ltb_spec z 0); cbn; eauto; lia.
Qed.

Lemma start_tinv P sch :
  Forall (λ p, 0 < burst_time p) (original_processes sch) →
  Forall (subscript_ok P) (original_processes sch) →
  TInv P (last_arrival (original_processes sch)) (start P sch).
Proof.
  intros Hb Hs. rewrite Forall_forall in Hb, Hs. split.
  - apply policy_start_inv. intros p Hp. specialize (Hb p Hp). lia.
  - intros i (p & Hp & E)%fresh_lookup. cbn [start m_procs]. rewrite E.
    destruct (subscript_ok_placeable P p (Hs p Hp)) as [k Hk]. exists k.
    rewrite <- Hk. by apply discipline_tier_static.
  - intros i (p & Hp & E)%fresh_lookup. cbn [start m_procs]. rewrite E.
    cbn. by apply last_arrival_ge.
Qed.

Lemma loop_more {S} (g : S → bool) step fuel fuel' (s : S) r :
  loop g step fuel s = Some r → (fuel ≤ fuel')%nat →
  loop g step fuel' s = Some r.
Proof.
  revert fuel' s. induction fuel as [|fuel IH]; intros fuel' s; cbn [loop].
  - destruct (g s) eqn:Hg; [done|]. intros [= <-] _.
    destruct fuel'; cbn [loop]; by rewrite Hg.
  - intros H Hle. destruct fuel' as [|fuel']; [lia|]. cbn [loop].
    destruct (g s); [|done]. destruct (step s); [done|].
    apply IH; [done|lia].
Qed.

(** With enough fuel the loop exits. *)
Lemma drive_loop_completes P sch :
  Forall (λ p, 0 < burst_time p) (original_processes sch) →
  productive P →
  Forall (subscript_ok P) (original_processes sch) →
  ∃ fuel s',
    (∀ fuel', (fuel ≤ fuel')%nat →
       loop m_guard (drive (discipline P)) fuel' (start P sch)
       = Some (s', None))
    ∧ m_guard s' = false
    ∧ reach m_guard (drive (discipline P)) (start P sch) s'.
Proof.
  intros Hb Hprod Hs.
  destruct (drive_terminates P _ Hprod _ (start P sch) (Nat.lt_succ_diag_r _)
              (start_tinv P sch Hb Hs)) as (fuel & s' & Hl & Hg & HT).
  exists fuel, s'. split_and!; [|done|by eapply loop_reach].
  intros fuel' Hle. by apply (loop_more _ _ _ _ _ _ Hl Hle).
Qed.

(** With enough fuel the loop exits with every record completed, and the
    method ends with the call of [get_metrics]. *)
Lemma drive_run_completes P sch :
  Forall (λ p, 0 < burst_time p) (original_processes sch) →
  productive P →
  Forall (subscript_ok P) (original_processes sch) →
  ∃ fuel sch',
    (∀ fuel', (fuel ≤ fuel')%nat →
       run P fuel' sch = Some (sch', get_metrics sch'))
    ∧ Forall (λ p, is_completed p = true) (processes sch').
Proof.
  intros Hb Hprod Hs.
  destruct (drive_terminates P _ Hprod _ (start P sch) (Nat.lt_succ_diag_r _)
              (start_tinv P sch Hb Hs)) as (fuel & s' & Hl & Hg & HT).
  exists fuel, (mkScheduler (original_processes sch) (m_procs s')).
  split.
  - intros fuel' Hle. by rewrite run_drive, (loop_more _ _ _ _ _ _ Hl Hle).
  - cbn [processes]. apply Forall_lookup. intros i p Hp.
    pose proof (lookup_lt_Some _ _ _ Hp) as Hi.
    pose proof (all_completed P s' i (t_inv _ _ _ HT) Hg Hi) as Hc.
    apply list_lookup_total_correct in Hp as <-.
    unfold is_completed. by destruct (completion_time _).
Qed.

(** ** Claims about termination *)

(** The priorities for which the multilevel queue computes a queue index
    in 0..2. *)
Definition ranked (P : Policy) (p : Process) : Prop :=
  match P with
  | Multilevel_queue _ => 0 ≤ priority p
  | _ => True
  end.

Lemma ranked_subscript_ok P p : ranked P p → subscript_ok P p.
Proof. destruct P; cbn; try done. lia. Qed.

(** C2 as amended. Each of the seven methods, with a quantum of at least 1
    where it takes one, terminates on every workload whose burst times are
    positive and, for the multilevel queue, whose priorities are not
    negative: with enough fuel the loop exits after finitely many
    iterations, every record is completed, and the method ends with the
    call of [get_metrics], which returns the metrics unless an average or
    a quotient is too large for a float ([OverflowError]). *)
Theorem policy_terminates (P : Policy) (sch : Scheduler) :
  Forall (λ p, 0 < burst_time p) (original_processes sch) →
  productive P →
  Forall (ranked P) (original_processes sch) →
  ∃ fuel sch',
    (∀ fuel', (fuel ≤ fuel')%nat →
       run P fuel' sch = Some (sch', get_metrics sch'))
    ∧ Forall (λ p, is_completed p = true) (processes sch')
    ∧ ∀ e, get_metrics sch' = inl e → e = OverflowError.
Proof.
  intros Hb Hp Hr.
  destruct (drive_run_completes P sch) as (fuel & sch' & Hrun & Hall);
    [done..| |].
  { eapply Forall_impl; [exact Hr|]. apply ranked_subscript_ok. }
  exists fuel, sch'. split_and!; [done..|].
  destruct (run_visits _ _ _ _ _ (Hrun fuel (le_n _))) as [Hv _].
  intros e. apply (visits_metrics_raise P sch); [|done].
  eapply Forall_impl; [exact Hb|]. cbn. intros; lia.
Qed.

Lemma policy_terminates_witness :
  Forall (λ p, 0 < burst_time p) spec_example
  ∧ productive (Multilevel_queue default_quantum)
  ∧ Forall (ranked (Multilevel_queue default_quantum)) spec_example
  ∧ ∃ fuel sch',
      (∀ fuel', (fuel ≤ fuel')%nat →
         run (Multilevel_queue default_quantum) fuel' (Scheduler_init spec_example)
         = Some (sch', get_metrics sch'))
      ∧ Forall (λ p, is_completed p = true) (processes sch')
      ∧ ∀ e, get_metrics sch' = inl e → e = OverflowError.
Proof.
  assert (H1 : Forall (λ p, 0 < burst_time p) spec_example) by compute_done.
  assert (H2 : productive (Multilevel_queue default_quantum))
    by (unfold default_quantum; cbn; lia).
  assert (H3 : Forall (ranked (Multilevel_queue default_quantum))
                 spec_example)
    by (repeat (apply Forall_cons_2; [cbn; lia|]); apply Forall_nil_2).
  split_and!; [exact H1|exact H2|exact H3|].
  exact (policy_terminates (Multilevel_queue default_quantum)
           (Scheduler_init spec_example) H1 H2 H3).
Defined.

(** Round robin with quantum 0 comes back to the same state. *)
Definition spinning : State :=
  mkState [ mkProcess 0 0 5 0 5 (Some 0) None ] 0 [0%nat] [].

Lemma spinning_forever fuel :
  loop guard (total (round_robin_step 0)) fuel spinning = None.
Proof. induction fuel as [|fuel IH]; [done|]. exact IH. Qed.

(** C2, counterexample. On valid descriptors, [multilevel_queue] with the
    default quantum raises [IndexError] at the first admission of a
    process of priority -13 and completes nothing, and [round_robin] with
    quantum 0 never leaves its loop. *)
Lemma policy_terminates_counterexample :
  valid_descriptors low_priority_example
  ∧ ¬ completes_all (Multilevel_queue default_quantum)
        (Scheduler_init low_priority_example)
  ∧ valid_descriptors single_example
  ∧ ¬ completes_all (Round_robin 0) (Scheduler_init single_example).
Proof.
  split_and!.
  - split; [compute_done|].
    repeat (apply Forall_cons_2; [cbn; lia|]); apply Forall_nil_2.
  - intros ([|fuel] & sch' & r & Hrun & Hall); [done|].
    cbn in Hrun. injection Hrun as <- <-. by inversion Hall.
  - split; [compute_done|].
    repeat (apply Forall_cons_2; [cbn; lia|]); apply Forall_nil_2.
  - intros ([|fuel] & sch' & r & Hrun & Hall); [done|].
    revert Hrun. cbn [run]. unfold round_robin, run_single.
    change (loop guard (total (round_robin_step 0)) (S fuel)
              (initial (reset_processes (Scheduler_init single_example))))
      with (loop guard (total (round_robin_step 0)) fuel spinning).
    by rewrite spinning_forever.
Qed.

(** ** Round robin with a large quantum *)

Lemma enqueue_bound st t done rq i :
  i ∈ enqueue st t done rq → i ∈ rq ∨ (i < length st)%nat.
Proof.
  unfold enqueue.
  assert (Hl : ∀ j, j ∈ seq 0 (length st) → (j < length st)%nat).
  { intros j [_ ?]%elem_of_seq. lia. }
  revert Hl. generalize (seq 0 (length st)). intros l. revert rq.
  induction l as [|j l IH]; intros rq Hl; cbn [foldl]; [by left|].
  intros H. apply IH in H; [|intros; apply Hl; by right].
  destruct H as [H|H]; [|by right]. destruct (_ && _ && _); [|by left].
  apply elem_of_app in H as [H|H%list_elem_of_singleton]; [by left|].
  subst i. right. apply Hl. by left.
Qed.

Section LargeQuantum.
Variable Q : Z.

(** Nothing has run partially, and the quantum covers what is left of
    every record. *)
Definition covered (s : State) : Prop :=
  (∀ i, i ∈ ready_queue s → (i < length (procs s))%nat)
  ∧ ∀ i, (i < length (procs s))%nat → 0 ≤ remaining_time (procs s !!! i) ≤ Q.

Lemma covered_step s :
  covered s → round_robin_step Q s = fcfs_step s ∧ covered (fcfs_step s).
Proof.
  intros [Hq Hr]. unfold round_robin_step, fcfs_step.
  destruct (enqueued s) as [|i rq] eqn:E.
  { split; [done|]. split; [by intros i ?%elem_of_nil|done]. }
  assert (Hin : ∀ j, j ∈ i :: rq → (j < length (procs s))%nat).
  { intros j Hj. rewrite <- E in Hj.
    apply enqueue_bound in Hj as [Hj|Hj]; [by apply Hq|done]. }
  pose proof (Hr i (Hin i ltac:(by left))) as Hi.
  rewrite !set_start_remaining.
  split.
  - cbn [remaining_time with_remaining].
    rewrite Z.min_r by lia. rewrite Z.sub_diag. done.
  - split; cbn [procs ready_queue]; rewrite length_insert.
    + intros j Hj. apply Hin. by right.
    + intros j Hj. rewrite list_lookup_total_insert.
      case_decide; [cbn; lia|by apply Hr].
Qed.

Lemma covered_loop fuel s :
  covered s →
  loop guard (total (round_robin_step Q)) fuel s
  = loop guard (total fcfs_step) fuel s.
Proof.
  revert s. induction fuel as [|fuel IH]; intros s Hs; cbn [loop]; [done|].
  destruct (guard s); [|done]. unfold total.
  destruct (covered_step s Hs) as [-> Hs']. by apply IH.
Qed.

Lemma covered_initial sch :
  Forall (λ p, 0 < burst_time p ≤ Q) (original_processes sch) →
  covered (initial (reset_processes sch)).
Proof.
  intros Hb. rewrite Forall_forall in Hb. split; cbn.
  - by intros i ?%elem_of_nil.
  - intros i (p & Hp & ->)%fresh_lookup. cbn. specialize (Hb p Hp). lia.
Qed.

Lemma round_robin_as_fcfs fuel sch :
  Forall (λ p, 0 < burst_time p ≤ Q) (original_processes sch) →
  round_robin Q fuel sch = fcfs fuel sch.
Proof.
  intros Hb. unfold round_robin, fcfs, run_single.
  by rewrite covered_loop by by apply covered_initial.
Qed.
End LargeQuantum.

(** C5. On a workload whose burst times are positive, round robin with a
    quantum [Q] at least as large as every burst time does what FCFS
    does: with the same fuel the two methods end in the same way, with the
    same records, and with enough fuel both loops exit, every record
    completed, each with the same [completion_time] under both. *)
Theorem round_robin_degenerates_to_fcfs (sch : Scheduler) (Q : Z) :
  Forall (λ p, 0 < burst_time p ≤ Q) (original_processes sch) →
  (∀ fuel, round_robin Q fuel sch = fcfs fuel sch)
  ∧ ∃ fuel sch_rr sch_fcfs r_rr r_fcfs,
      round_robin Q fuel sch = Some (sch_rr, r_rr)
      ∧ fcfs fuel sch = Some (sch_fcfs, r_fcfs)
      ∧ map completion_time (processes sch_rr)
        = map completion_time (processes sch_fcfs)
      ∧ Forall (λ p, is_completed p = true) (processes sch_fcfs).
Proof.
  intros Hb. split; [intros fuel; by apply round_robin_as_fcfs|].
  destruct (drive_run_completes FCFS sch) as (fuel & sch' & Hrun & Hall).
  { eapply Forall_impl; [exact Hb|]. cbn. intros; lia. }
  { done. }
  { by apply Forall_forall. }
  specialize (Hrun fuel (le_n _)). cbn [run] in Hrun.
  exists fuel, sch', sch', (get_metrics sch'), (get_metrics sch').
  split_and!; [|done..]. by rewrite round_robin_as_fcfs.
Qed.

Lemma round_robin_degenerates_to_fcfs_witness :
  Forall (λ p, 0 < burst_time p ≤ 5) spec_example
  ∧ round_robin 5 4 (Scheduler_init spec_example)
    = fcfs 4 (Scheduler_init spec_example)
  ∧ fcfs 4 (Scheduler_init spec_example)
    = Some (mkScheduler spec_example
              [ mkProcess 0 0 5 1 0 (Some 0) (Some 5);
                mkProcess 1 1 3 2 0 (Some 5) (Some 8) ],
            inr (mkMetrics (Int 6) (Int 2)
                   (Float (S754_finite false 4503599627370496 (-54)))
                   (Float (S754_finite false 7036874417766400 (-46))))).
Proof.
  assert (Hb : Forall (λ p, 0 < burst_time p ≤ 5) spec_example).
  { repeat (apply Forall_cons_2; [cbn; lia|]); apply Forall_nil_2. }
  split_and!; [exact Hb| |reflexivity].
  exact (proj1 (round_robin_degenerates_to_fcfs (Scheduler_init spec_example)
                  5 Hb) 4%nat).
Defined.

(** ** The tiers of the multilevel queue *)

(** Every queued reference is valid and sits in the queue that the
    subscript [min(priority // 4, 2)] designates. *)
Record Tiered (s : MState) : Prop := mkTiered {
  tiered_length : length (queues s) = 3%nat;
  tiered_queued : ∀ k i, queued (queues s) k i →
    (i < length (m_procs s))%nat
    ∧ py_index 3 (queue_index_of (m_procs s !!! i)) = inr k
}.

Lemma mlq_enqueue_tiered s qs :
  Tiered s →
  mlq_enqueue (m_procs s) (m_time s) (m_completed s) (queues s) = inr qs →
  Tiered (with_queues s qs).
Proof.
  intros HT Hf.
  change (foldl (enqueue1 (multilevel_queue_d 0) (m_procs s) (m_time s)
                   (m_completed s)) (inr (queues s))
                (seq 0 (length (m_procs s))) = inr qs) in Hf.
  apply (enqueue_fold_ind _ _ _ _ (λ q, Tiered (with_queues s q)) _ _ _ Hf).
  { by destruct s. }
  clear qs Hf. intros qs i k [H1 H2] Hi _ Hk. cbn in *.
  apply elem_of_seq in Hi as [_ Hi]. rewrite H1 in Hk.
  split; cbn; [by rewrite length_alter|].
  intros k' j [Hj|(-> & -> & _)]%queued_alter_app; [by apply H2|].
  split; [lia|done].
Qed.

(** What one iteration does, case by case. *)
Lemma multilevel_queue_step_cases quantum s s' :
  multilevel_queue_step quantum s = inr s' →
  ∃ qs, mlq_enqueue (m_procs s) (m_time s) (m_completed s) (queues s) = inr qs
  ∧ ((first_nonempty qs = None ∧ mlq_dispatch s = None ∧ s' = m_idle s qs)
     ∨ ∃ k i q',
         first_nonempty qs = Some (k, i :: q')
         ∧ mlq_dispatch s = Some (k, i)
         ∧ let p0 := m_procs s !!! i in
           let e := if (k =? 0)%nat then remaining_time p0
                    else Z.min quantum (remaining_time p0) in
           let p := with_remaining (set_start (m_time s) p0)
                                   (remaining_time p0 - e) in
           (remaining_time p0 - e = 0
            ∧ s' = mkMState (<[i := with_completion p (Some (m_time s + e))]>
                               (m_procs s))
                            (m_time s + e) (<[k := q']> qs)
                            (m_completed s ++ [i]))
           ∨ (remaining_time p0 - e ≠ 0
              ∧ s' = mkMState (<[i := p]> (m_procs s)) (m_time s + e)
                              (<[k := q' ++ [i]]> qs) (m_completed s))).
Proof.
  unfold multilevel_queue_step, mlq_dispatch.
  destruct (mlq_enqueue _ _ _ _) as [?|qs]; [done|]. intros H. exists qs.
  split; [done|].
  destruct (first_nonempty qs) as [[k q]|] eqn:Hf.
  - destruct q as [|i q'].
    { apply first_nonempty_Some in Hf as (_ & ? & _). done. }
    right. exists k, i, q'. split_and!; [done..|]. cbn zeta.
    rewrite !set_start_remaining in H. cbn [remaining_time with_remaining] in H.
    destruct (_ =? 0) eqn:Hz; injection H as <-.
    + left. split; [by apply Z.eqb_eq|done].
    + right. split; [by apply Z.eqb_neq|done].
  - left. injection H as <-. done.
Qed.

Lemma multilevel_queue_step_tiered quantum s s' :
  Tiered s → multilevel_queue_step quantum s = inr s' → Tiered s'.
Proof.
  intros HT (qs & Hqs & Hcase)%multilevel_queue_step_cases.
  destruct (mlq_enqueue_tiered s qs HT Hqs) as [H1 H2]. cbn in H1, H2.
  destruct Hcase as [(_ & _ & ->)|(k & i & q' & Hf & _ & Hs')]; [done|].
  apply first_nonempty_Some in Hf as (Hk & _ & _).
  assert (Hsub : ∀ q'' k' j, (∀ x, x ∈ q'' → x ∈ i :: q') →
            queued (<[k := q'']> qs) k' j → queued qs k' j).
  { intros q'' k' j Hq'' [(-> & Hj & _)|[_ ?]]%queued_insert; [|done].
    exists (i :: q'). split; [done|]. by apply Hq''. }
  assert (Hstore : ∀ x j, priority x = priority (m_procs s !!! i) →
            queue_index_of (<[i := x]> (m_procs s) !!! j)
            = queue_index_of (m_procs s !!! j)).
  { intros x j Hx. rewrite list_lookup_total_insert. case_decide as E; [|done].
    destruct E as [<- _]. unfold queue_index_of. by rewrite Hx. }
  cbn zeta in Hs'.
  destruct Hs' as [[_ ->]|[_ ->]]; split; cbn [queues m_procs];
    rewrite ?length_insert; try done.
  - intros k' j Hj%(Hsub q'); [|intros x Hx; by right].
    rewrite Hstore; [by apply H2|]. unfold set_start.
    by destruct (start_time _).
  - intros k' j Hj%(Hsub (q' ++ [i])).
    + rewrite Hstore; [by apply H2|]. unfold set_start.
      by destruct (start_time _).
    + intros x [Hx|Hx%list_elem_of_singleton]%elem_of_app; [by right|].
      subst x. by left.
Qed.

Lemma reach_tiered quantum sch s :
  reach m_guard (multilevel_queue_step quantum)
        (m_initial (reset_processes sch)) s →
  Tiered s.
Proof.
  induction 1 as [|s s' _ IH _ Hs].
  - split; [done|]. intros k i (q & Hq & Hi). exfalso.
    destruct k as [|[|[|k]]]; cbn in Hq; try done;
      injection Hq as <-; by apply elem_of_nil in Hi.
  - by eapply multilevel_queue_step_tiered.
Qed.

(** The descriptor fields of the records are those of the workload. *)
Lemma reach_static quantum sch s i p :
  reach m_guard (multilevel_queue_step quantum)
        (m_initial (reset_processes sch)) s →
  original_processes sch !! i = Some p →
  fresh (m_procs s !!! i) = fresh p.
Proof.
  intros Hr Hp. induction Hr as [|s s' _ IH _ Hs].
  - cbn. erewrite list_lookup_total_correct; [|by rewrite list_lookup_fmap, Hp].
    done.
  - rewrite multilevel_queue_step_drive in Hs.
    destruct (drive_static _ _ _ i Hs) as [_ ->]. done.
Qed.

Lemma reach_length quantum sch s :
  reach m_guard (multilevel_queue_step quantum)
        (m_initial (reset_processes sch)) s →
  length (m_procs s) = length (original_processes sch).
Proof.
  induction 1 as [|s s' _ IH _ Hs]; [cbn; by rewrite length_map|].
  rewrite multilevel_queue_step_drive in Hs.
  destruct (drive_static _ _ _ O Hs) as [-> _]. done.
Qed.

Lemma reach_queued_tier quantum sch s k i :
  reach m_guard (multilevel_queue_step quantum)
        (m_initial (reset_processes sch)) s →
  queued (queues s) k i →
  ∃ p, original_processes sch !! i = Some p
       ∧ priority (m_procs s !!! i) = priority p
       ∧ py_index 3 (queue_index_of p) = inr k.
Proof.
  intros Hr Hq. destruct (tiered_queued _ (reach_tiered _ _ _ Hr) _ _ Hq)
    as [Hi Hk].
  rewrite (reach_length _ _ _ Hr) in Hi.
  apply lookup_lt_is_Some_2 in Hi as [p Hp]. exists p.
  pose proof (reach_static _ _ _ _ _ Hr Hp) as Hf.
  apply (f_equal priority) in Hf. cbn in Hf.
  split_and!; [done..|]. unfold queue_index_of in *. by rewrite <- Hf.
Qed.

Lemma py_index_nonneg z k : py_index 3 z = inr k → 0 ≤ z → Z.of_nat k = z.
Proof.
  unfold py_index. change (- Z.of_nat 3) with (-3). change (Z.of_nat 3) with 3.
  destruct (Z.leb_spec 0 z), (Z.ltb_spec z 3); cbn; try (intros [= <-]; lia).
  all: destruct (Z.leb_spec (-3) z), (Z.ltb_spec z 0); cbn;
    try (intros [= <-]; lia); done.
Qed.

Lemma mlq_dispatch_queued s k i :
  Tiered s → mlq_dispatch s = Some (k, i) →
  ∃ qs q',
    mlq_enqueue (m_procs s) (m_time s) (m_completed s) (queues s) = inr qs
    ∧ first_nonempty qs = Some (k, i :: q')
    ∧ qs !! k = Some (i :: q')
    ∧ (i < length (m_procs s))%nat
    ∧ py_index 3 (queue_index_of (m_procs s !!! i)) = inr k.
Proof.
  intros HT. unfold mlq_dispatch.
  destruct (mlq_enqueue _ _ _ _) as [?|qs] eqn:Hqs; [done|].
  destruct (first_nonempty qs) as [[k0 [|i0 q']]|] eqn:Hf; try done.
  intros [= -> ->]. exists qs, q'.
  pose proof (first_nonempty_Some _ _ _ Hf) as (Hk & _ & _).
  destruct (tiered_queued _ (mlq_enqueue_tiered s qs HT Hqs) k i) as [Hi Ht].
  { exists (i :: q'). split; [done|by left]. }
  done.
Qed.

Lemma tier_example_reach :
  reach m_guard (multilevel_queue_step 2)
        (m_initial (reset_processes (Scheduler_init tier_example)))
        tier_example_state.
Proof.
  eapply reach_next; [apply reach_start|reflexivity|reflexivity].
Defined.

(** C6. The claim fails on negative priorities, for which the subscript
    [min(priority // 4, 2)] is negative: a process of priority -1 is
    queued in queue 2, which is not [min(priority div 4, 2) = -1], and a
    process of priority -13 is not admitted to any queue, its admission
    raises [IndexError]. *)
Theorem negative_priority_tier :
  (∃ s p,
     reach m_guard (multilevel_queue_step default_quantum)
           (m_initial (reset_processes (Scheduler_init negative_priority_example)))
           s
     ∧ negative_priority_example !! 0%nat = Some p
     ∧ queued (queues s) 2 0
     ∧ Z.of_nat 2 ≠ Z.min (priority p `div` 4) 2)
  ∧ multilevel_queue_step default_quantum
      (m_initial (reset_processes (Scheduler_init low_priority_example)))
    = inl IndexError
  ∧ multilevel_queue default_quantum 1 (Scheduler_init low_priority_example)
    = Some (Scheduler_init low_priority_example, inl IndexError).
Proof.
  split_and!; [|reflexivity..].
  exists (mkMState [ mkProcess 0 0 5 (-1) 3 (Some 0) None ] 2
                   [[]; []; [0%nat]] []),
         (mkProcess 0 0 5 (-1) 0 None None).
  split_and!.
  - eapply reach_next; [apply reach_start|reflexivity|reflexivity].
  - reflexivity.
  - exists [0%nat]. split; [reflexivity|by left].
  - by compute.
Qed.

(** C7. In the multilevel queue, at every iteration, a process whose
    descriptor has priority 0 is queued nowhere but in queue 0; when the
    iteration dispatches it, it dispatches it from queue 0 and the
    iteration does not raise: the clock advances by the process's
    [remaining_time], the process is completed at that instant with
    nothing left to run, it joins [completed_processes], and no other
    record is touched. *)
Theorem priority_zero_runs_to_completion (quantum : Z) (sch : Scheduler)
    (s : MState) :
  reach m_guard (multilevel_queue_step quantum)
        (m_initial (reset_processes sch)) s →
  (∀ k i p, original_processes sch !! i = Some p → priority p = 0 →
            queued (queues s) k i → k = O)
  ∧ (∀ k i p, original_processes sch !! i = Some p → priority p = 0 →
       mlq_dispatch s = Some (k, i) →
       k = O
       ∧ ∃ s', multilevel_queue_step quantum s = inr s'
           ∧ m_time s' = m_time s + remaining_time (m_procs s !!! i)
           ∧ completion_time (m_procs s' !!! i)
             = Some (m_time s + remaining_time (m_procs s !!! i))
           ∧ remaining_time (m_procs s' !!! i) = 0
           ∧ m_completed s' = m_completed s ++ [i]
           ∧ ∀ j, j ≠ i → m_procs s' !!! j = m_procs s !!! j).
Proof.
  intros Hr. split.
  - intros k i p Hp Hz Hq.
    destruct (reach_queued_tier _ _ _ _ _ Hr Hq) as (p' & Hp' & _ & Hk).
    rewrite Hp in Hp'. injection Hp' as <-.
    unfold queue_index_of in Hk. rewrite Hz in Hk. by injection Hk as <-.
  - intros k i p Hp Hz Hd.
    destruct (mlq_dispatch_queued s k i (reach_tiered _ _ _ Hr) Hd)
      as (qs & q' & Hqs & Hf & Hk & Hi & Ht).
    pose proof (reach_static _ _ _ _ _ Hr Hp) as Hfr.
    apply (f_equal priority) in Hfr. cbn in Hfr.
    unfold queue_index_of in Ht. rewrite Hfr, Hz in Ht. injection Ht as <-.
    split; [done|].
    unfold multilevel_queue_step. rewrite Hqs, Hf. cbn [Nat.eqb].
    rewrite !set_start_remaining. cbn [remaining_time with_remaining].
    rewrite Z.sub_diag. cbn [Z.eqb]. eexists. split; [reflexivity|].
    cbn [m_procs m_time m_completed].
    rewrite list_lookup_total_insert_eq by done.
    split_and!; try done.
    intros j Hj. by rewrite list_lookup_total_insert_ne.
Qed.

Lemma zero_priority_reach :
  reach m_guard (multilevel_queue_step 2)
        (m_initial (reset_processes (Scheduler_init zero_priority_example)))
        zero_priority_state.
Proof.
  eapply reach_next; [apply reach_start|reflexivity|reflexivity].
Defined.

Lemma priority_zero_runs_to_completion_witness :
  reach m_guard (multilevel_queue_step 2)
        (m_initial (reset_processes (Scheduler_init zero_priority_example)))
        zero_priority_state
  ∧ mlq_dispatch zero_priority_state = Some (O, 1%nat)
  ∧ ∃ s', multilevel_queue_step 2 zero_priority_state = inr s'
      ∧ m_time s' = 6
      ∧ completion_time (m_procs s' !!! 1%nat) = Some 6
      ∧ remaining_time (m_procs s' !!! 1%nat) = 0
      ∧ m_completed s' = [1%nat]
      ∧ ∀ j, j ≠ 1%nat → m_procs s' !!! j = m_procs zero_priority_state !!! j.
Proof.
  split_and!; [exact zero_priority_reach|reflexivity|].
  exact (proj2 (proj2 (priority_zero_runs_to_completion 2
                  (Scheduler_init zero_priority_example) zero_priority_state
                  zero_priority_reach)
                O 1%nat (mkProcess 1 1 4 0 0 None None)
                eq_refl eq_refl eq_refl)).
Defined.

(** ** [get_metrics] on records none of which is completed *)

Lemma run_original P fuel a b :
  original_processes a = original_processes b → run P fuel a = run P fuel b.
Proof.
  intros E.
  assert (reset_processes a = reset_processes b) as Hr
    by (unfold reset_processes; by rewrite E).
  destruct P; cbn [run];
    unfold fcfs, sjf_nonpreemptive, sjf_preemptive, round_robin,
      priority_nonpreemptive, priority_preemptive, multilevel_queue, run_single;
    by rewrite Hr.
Qed.

Lemma completed_records_idem st :
  completed_records (completed_records st) = completed_records st.
Proof.
  unfold completed_records. induction st as [|p st IH]; [done|]. cbn.
  destruct (is_completed p) eqn:E; [|done]. cbn. by rewrite E, IH.
Qed.

Lemma completed_records_none st :
  (∀ p, p ∈ st → completion_time p = None) → completed_records st = [].
Proof.
  unfold completed_records. induction st as [|p st IH]; intros H; [done|].
  cbn. unfold is_completed at 1. rewrite (H p) by by left.
  apply IH. intros q Hq. apply H. by right.
Qed.

(** C8. [get_metrics] looks at the records with a set [completion_time]
    only: it returns what it returns on those records alone.  When no
    record has [completion_time] set, it raises nothing and returns the
    four metrics equal to 0; this is the case of the empty workload, on
    which every policy method returns these zero metrics at once. *)
Theorem get_metrics_none_completed (sch : Scheduler) :
  get_metrics sch
  = get_metrics (mkScheduler (original_processes sch)
                             (completed_records (processes sch)))
  ∧ ((∀ p, p ∈ processes sch → completion_time p = None) →
     get_metrics sch = inr (mkMetrics (Int 0) (Int 0) (Int 0) (Int 0)))
  ∧ (original_processes sch = [] →
     ∀ P fuel, run P fuel sch
               = Some (mkScheduler [] [], inr (mkMetrics (Int 0) (Int 0) (Int 0) (Int 0)))).
Proof.
  split_and!.
  - unfold get_metrics. cbn [processes]. by rewrite completed_records_idem.
  - intros Hnone. unfold get_metrics. by rewrite completed_records_none.
  - intros Ho P fuel.
    rewrite (run_original P fuel sch (mkScheduler [] [])) by done.
    destruct P, fuel; reflexivity.
Qed.

Lemma get_metrics_none_completed_witness :
  (∀ p, p ∈ processes (Scheduler_init spec_example) → completion_time p = None)
  ∧ get_metrics (Scheduler_init spec_example) = inr (mkMetrics (Int 0) (Int 0) (Int 0) (Int 0))
  ∧ original_processes (Scheduler_init []) = []
  ∧ run (Multilevel_queue default_quantum) 0 (Scheduler_init [])
    = Some (mkScheduler [] [], inr (mkMetrics (Int 0) (Int 0) (Int 0) (Int 0))).
Proof.
  assert (H1 : ∀ p, p ∈ processes (Scheduler_init spec_example) →
                    completion_time p = None).
  { intros p Hp. cbn in Hp.
    repeat (apply elem_of_cons in Hp as [->|Hp]; [reflexivity|]).
    by apply elem_of_nil in Hp. }
  split_and!; [exact H1| |reflexivity|].
  - exact (proj1 (proj2 (get_metrics_none_completed _)) H1).
  - exact (proj2 (proj2 (get_metrics_none_completed (Scheduler_init [])))
             eq_refl (Multilevel_queue default_quantum) O).
Defined.

(** ** Runs do not depend on earlier runs *)

(** C9. When a policy method has returned on a scheduler, calling it again
    on the scheduler it left behind returns the same records and the same
    metrics; more generally every method returns, on the scheduler left
    behind, what it returns on the scheduler before the call: a run does
    not depend on the state left by an earlier run. *)
Theorem run_is_repeatable (P : Policy) (fuel : nat) (sch sch1 : Scheduler)
    (r1 : result Metrics) :
  run P fuel sch = Some (sch1, r1) →
  run P fuel sch1 = Some (sch1, r1)
  ∧ ∀ P' fuel', run P' fuel' sch1 = run P' fuel' sch.
Proof.
  intros Hrun. destruct (run_visits _ _ _ _ _ Hrun) as [_ Ho].
  split; [by rewrite (run_original P fuel sch1 sch)|].
  intros P' fuel'. by apply run_original.
Qed.

Lemma run_is_repeatable_witness :
  run SJF_preemptive 10 (Scheduler_init spec_example)
  = Some (mkScheduler spec_example
            [ mkProcess 0 0 5 1 0 (Some 0) (Some 8);
              mkProcess 1 1 3 2 0 (Some 1) (Some 4) ],
          inr (mkMetrics (Float (S754_finite false 6192449487634432 (-50)))
                   (Float (S754_finite false 6755399441055744 (-52)))
                   (Float (S754_finite false 4503599627370496 (-54)))
                   (Float (S754_finite false 7036874417766400 (-46)))))
  ∧ run SJF_preemptive 10
      (mkScheduler spec_example
         [ mkProcess 0 0 5 1 0 (Some 0) (Some 8);
           mkProcess 1 1 3 2 0 (Some 1) (Some 4) ])
    = Some (mkScheduler spec_example
              [ mkProcess 0 0 5 1 0 (Some 0) (Some 8);
                mkProcess 1 1 3 2 0 (Some 1) (Some 4) ],
            inr (mkMetrics (Float (S754_finite false 6192449487634432 (-50)))
                   (Float (S754_finite false 6755399441055744 (-52)))
                   (Float (S754_finite false 4503599627370496 (-54)))
                   (Float (S754_finite false 7036874417766400 (-46))))).
Proof.
  assert (H : run SJF_preemptive 10 (Scheduler_init spec_example)
    = Some (mkScheduler spec_example
              [ mkProcess 0 0 5 1 0 (Some 0) (Some 8);
                mkProcess 1 1 3 2 0 (Some 1) (Some 4) ],
            inr (mkMetrics (Float (S754_finite false 6192449487634432 (-50)))
                   (Float (S754_finite false 6755399441055744 (-52)))
                   (Float (S754_finite false 4503599627370496 (-54)))
                   (Float (S754_finite false 7036874417766400 (-46))))))
    by reflexivity.
  split; [exact H|].
  exact (proj1 (run_is_repeatable _ _ _ _ _ H)).
Defined.

(** ** No validation of burst times *)

Lemma loop_total_no_exn {S} (g : S → bool) (f : S → S) fuel s s' e :
  loop g (total f) fuel s = Some (s', Some e) → False.
Proof.
  revert s. induction fuel as [|fuel IH]; intros s; cbn [loop].
  - by destruct (g s).
  - destruct (g s); [|done]. unfold total at 1. apply IH.
Qed.

Lemma enqueue1_raises D st t done l acc e :
  (∀ n p e, d_tier D n p = inl e → e = IndexError) →
  (∀ e', acc = inl e' → e' = IndexError) →
  foldl (enqueue1 D st t done) acc l = inl e → e = IndexError.
Proof.
  intros HD. revert acc. induction l as [|i l IH]; intros acc Hacc; cbn [foldl].
  - intros ->. by apply Hacc.
  - apply IH. intros e'. unfold enqueue1. destruct acc as [e0|qs].
    + intros [= <-]. by apply Hacc.
    + destruct (_ && _ && _); [|done].
      destruct (d_tier D _ _) eqn:Ht; [|done]. intros [= <-]. by eapply HD.
Qed.

Lemma multilevel_queue_step_raises quantum s e :
  multilevel_queue_step quantum s = inl e → e = IndexError.
Proof.
  unfold multilevel_queue_step.
  destruct (mlq_enqueue _ _ _ _) as [e0|qs] eqn:Hq.
  - intros [= <-]. revert Hq.
    apply (enqueue1_raises (multilevel_queue_d quantum)); [|done].
    intros n p e'. cbn. unfold py_index. repeat case_match; congruence.
  - destruct (first_nonempty qs) as [[k [|i q']]|]; try done.
    by destruct (_ =? 0).
Qed.

Lemma loop_exn {S} (g : S → bool) step fuel (s s' : S) e :
  loop g step fuel s = Some (s', Some e) → step s' = inl e.
Proof.
  revert s. induction fuel as [|fuel IH]; intros s; cbn [loop].
  - by destruct (g s).
  - destruct (g s); [|done]. destruct (step s) eqn:Hs.
    + by intros [= <- <-].
    + apply IH.
Qed.

(** The exceptions of a policy method are those of [get_metrics] and, in
    the multilevel queue, of the queue subscript. *)
Lemma run_raises P fuel sch sch' e :
  run P fuel sch = Some (sch', inl e) →
  e = ZeroDivisionError ∨ e = OverflowError
  ∨ (e = IndexError ∧ ∃ quantum, P = Multilevel_queue quantum).
Proof.
  assert (Hm : ∀ sch0, get_metrics sch0 = inl e →
                       e = ZeroDivisionError ∨ e = OverflowError).
  { intros sch0 (c & cs & _ & [[He _]|He])%get_metrics_raises; auto. }
  assert (Hsingle : ∀ step, run_single step fuel sch = Some (sch', inl e) →
                            e = ZeroDivisionError ∨ e = OverflowError).
  { intros step. unfold run_single.
    destruct (loop _ _ _ _) as [[s [e0|]]|] eqn:Hl; cbn; [|intros [= _ H]|done].
    - by apply loop_total_no_exn in Hl.
    - by apply Hm in H. }
  destruct P; cbn [run];
    try (intros [?|?]%Hsingle; [by left|right; by left]).
  unfold multilevel_queue.
  destruct (loop _ _ _ _) as [[s [e0|]]|] eqn:Hl; cbn; [| |done].
  - intros [= _ ->]. right. right. apply loop_exn in Hl.
    apply multilevel_queue_step_raises in Hl. eauto.
  - intros [= _ H]. apply Hm in H as [?|?]; [by left|right; by left].
Qed.



(** ** Ties in the sorting policies *)

Lemma earlier_nil a b : ¬ earlier [] a b.
Proof. intros (l1 & l2 & l3 & H). by destruct l1. Qed.

Lemma earlier_cons x l a b :
  earlier (x :: l) a b ↔ (x = a ∧ b ∈ l) ∨ earlier l a b.
Proof.
  split.
  - intros ([|y l1] & l2 & l3 & H); injection H as -> ->.
    + left. split; [done|]. apply elem_of_app. right. by left.
    + right. by exists l1, l2, l3.
  - intros [[-> Hb]|(l1 & l2 & l3 & ->)].
    + apply list_elem_of_split in Hb as (l2 & l3 & ->). by exists [], l2, l3.
    + by exists (x :: l1), l2, l3.
Qed.

Lemma earlier_app l l' a b :
  earlier (l ++ l') a b
  ↔ earlier l a b ∨ (a ∈ l ∧ b ∈ l') ∨ earlier l' a b.
Proof.
  induction l as [|x l IH]; cbn [app].
  - split; [by right; right|]. intros [H|[[H _]|H]]; [|by apply elem_of_nil in H|done].
    by apply earlier_nil in H.
  - rewrite !earlier_cons, IH, elem_of_app, elem_of_cons.
    intuition (subst; tauto).
Qed.

Lemma earlier_elem l a b : earlier l a b → a ∈ l ∧ b ∈ l.
Proof.
  intros (l1 & l2 & l3 & ->). split.
  - apply elem_of_app. right. by left.
  - apply elem_of_app. right. right. apply elem_of_app. right. by left.
Qed.

(** [l] is sorted by [key], and equal keys come in the order of [log]. *)
Definition ordered (key : nat → Z) (log l : list nat) : Prop :=
  ∀ a b, earlier l a b →
         key a ≤ key b ∧ (key a = key b → earlier log a b).

(** Equal keys come in [l] in the order of [log]. *)
Definition tied (key : nat → Z) (log l : list nat) : Prop :=
  ∀ a b, earlier l a b → key a = key b → earlier log a b.

Lemma insert_by_elem key x l y : y ∈ insert_by key x l ↔ y = x ∨ y ∈ l.
Proof. by rewrite insert_by_perm, elem_of_cons. Qed.

Lemma insert_by_ordered key log x l :
  ordered key log l →
  (∀ b, b ∈ l → key x = key b → earlier log x b) →
  ordered key log (insert_by key x l).
Proof.
  induction l as [|y l IH]; intros Ho Hx; cbn [insert_by].
  - intros a b [[_ H]|H]%earlier_cons; [by apply elem_of_nil in H|].
    by apply earlier_nil in H.
  - destruct (Z.leb_spec (key x) (key y)) as [Hle|Hlt].
    + intros a b [[<- Hb]|H]%earlier_cons; [|by apply Ho].
      split; [|by apply Hx].
      apply elem_of_cons in Hb as [->|Hb]; [done|].
      destruct (Ho y b) as [? _]; [|lia]. apply earlier_cons. by left.
    + intros a b [[<- Hb]|H]%earlier_cons.
      * apply insert_by_elem in Hb as [->|Hb]; [split; lia|].
        apply Ho. apply earlier_cons. by left.
      * revert a b H. apply IH.
        -- intros a b H. apply Ho. apply earlier_cons. by right.
        -- intros b Hb. apply Hx. by right.
Qed.

Lemma sort_by_ordered key log l : tied key log l → ordered key log (sort_by key l).
Proof.
  induction l as [|x l IH]; intros Ht; cbn [sort_by].
  - intros a b H. by apply earlier_nil in H.
  - apply insert_by_ordered.
    + apply IH. intros a b H. apply Ht. apply earlier_cons. by right.
    + intros b Hb. rewrite sort_by_perm in Hb. apply Ht.
      apply earlier_cons. by left.
Qed.

(** [sort_by] is a stable sort: its result is sorted by key, and elements
    with equal keys keep the order they had in the argument. *)
Lemma sort_by_stable key l a b :
  earlier (sort_by key l) a b →
  key a ≤ key b ∧ (key a = key b → earlier l a b).
Proof. apply sort_by_ordered. by intros ???. Qed.

Lemma enqueue_appends st t done rq :
  ∃ new, enqueue st t done rq = rq ++ new
         ∧ NoDup new ∧ ∀ i, i ∈ new → (i ∉ rq) ∧ (i ∉ done).
Proof.
  unfold enqueue. generalize (seq 0 (length st)). intros l. revert rq.
  induction l as [|i l IH]; intros rq; cbn [foldl].
  - exists []. rewrite app_nil_r. split_and!; [done|constructor|].
    by intros i ?%elem_of_nil.
  - destruct (_ && _ && _) eqn:Hc; [|apply IH].
    apply andb_true_iff in Hc as [[_ Hd%negb_true_iff]%andb_true_iff
                                  Hq%negb_true_iff].
    destruct (IH (rq ++ [i])) as (new & -> & Hnd & Hnew).
    exists (i :: new). rewrite <- app_assoc. split_and!; [done| |].
    + apply NoDup_cons. split; [|done]. intros Hi.
      destruct (Hnew i Hi) as [Hn _]. apply Hn, elem_of_app. right. by left.
    + intros j [->|Hj]%elem_of_cons.
      * split; intros Hin; apply py_in_self with (st := st) in Hin; congruence.
      * destruct (Hnew j Hj) as [Hn ?]. split; [|done].
        intros ?. apply Hn, elem_of_app. by left.
Qed.

Lemma enqueued_appends s :
  enqueued s = ready_queue s ++ newly_enqueued s
  ∧ NoDup (newly_enqueued s)
  ∧ ∀ i, i ∈ newly_enqueued s →
         (i ∉ ready_queue s) ∧ (i ∉ completed_processes s).
Proof.
  unfold newly_enqueued, enqueued.
  destruct (enqueue_appends (procs s) (current_time s) (completed_processes s)
              (ready_queue s)) as (new & -> & Hnd & Hnew).
  by rewrite drop_app_length.
Qed.

(** How an iteration that selects [i], leaving [rq] behind it, changes the
    state: only record [i] is written, and [i] either leaves the queue,
    completed, or stays at its head with a key that has not grown. *)
Definition dispatches (key : Process → Z) (s s' : State) (i : nat)
    (rq : list nat) : Prop :=
  ∃ x, procs s' = <[i := x]> (procs s)
       ∧ ((ready_queue s' = rq
           ∧ completed_processes s' = completed_processes s ++ [i])
          ∨ (ready_queue s' = i :: rq
             ∧ completed_processes s' = completed_processes s
             ∧ key x ≤ key (procs s !!! i))).

Lemma sorting_step_cases P key step s :
  sorting P = Some (key, step) →
  (enqueued s = [] ∧ step s = idle s)
  ∨ ∃ i rq, sort_by (λ j, key (procs s !!! j)) (enqueued s) = i :: rq
            ∧ dispatches key s (step s) i rq.
Proof.
  intros HP.
  destruct (enqueued s) as [|j0 rq0] eqn:E.
  { left. split; [done|].
    destruct P; try done; injection HP as <- <-;
      unfold sjf_nonpreemptive_step, sjf_preemptive_step,
        priority_nonpreemptive_step, priority_preemptive_step; by rewrite E. }
  right.
  destruct (sort_by (λ j, key (procs s !!! j)) (j0 :: rq0)) as [|i rq] eqn:Hs.
  { pose proof (sort_by_length (λ j, key (procs s !!! j)) (j0 :: rq0)) as Hl.
    by rewrite Hs in Hl. }
  exists i, rq. split; [done|].
  destruct P; try done; injection HP as <- <-;
    unfold sjf_nonpreemptive_step, sjf_preemptive_step,
      priority_nonpreemptive_step, priority_preemptive_step, dispatches;
    rewrite E, Hs.
  - eexists. split; [reflexivity|]. left. done.
  - destruct (_ =? 0); eexists; (split; [reflexivity|]); [by left|right].
    split_and!; [done..|]. rewrite set_start_remaining. fields. lia.
  - eexists. split; [reflexivity|]. left. done.
  - destruct (_ =? 0); eexists; (split; [reflexivity|]); [by left|right].
    split_and!; [done..|]. unfold set_start. destruct (start_time _); by fields.
Qed.

Record LInv (key : Process → Z) (s : State) (log : list nat) : Prop := mkLInv {
  l_nodup : NoDup (ready_queue s);
  l_logged : ∀ i, i ∈ ready_queue s → i ∈ log;
  l_log_nodup : NoDup log;
  l_known : ∀ i, i ∈ log → i ∈ ready_queue s ∨ i ∈ completed_processes s;
  l_ordered : ordered (λ j, key (procs s !!! j)) log (ready_queue s)
}.

(** After the admission loop and the sort of the iteration. *)
Lemma linv_sorted key s log :
  LInv key s log →
  let log' := log ++ newly_enqueued s in
  let sorted := sort_by (λ j, key (procs s !!! j)) (enqueued s) in
  NoDup sorted ∧ NoDup log'
  ∧ (∀ i, i ∈ sorted → i ∈ log')
  ∧ (∀ i, i ∈ log' → i ∈ sorted ∨ i ∈ completed_processes s)
  ∧ ordered (λ j, key (procs s !!! j)) log' sorted.
Proof.
  intros [L1 L2 L3 L4 L5]. cbn zeta.
  destruct (enqueued_appends s) as (He & Hnd & Hnew).
  assert (Hperm : ∀ i, i ∈ sort_by (λ j, key (procs s !!! j)) (enqueued s)
                       ↔ i ∈ ready_queue s ∨ i ∈ newly_enqueued s).
  { intros i. by rewrite sort_by_perm, He, elem_of_app. }
  split_and!.
  - rewrite sort_by_perm, He. apply NoDup_app. split_and!; [done| |done].
    intros i Hi Hn. by destruct (Hnew i Hn).
  - apply NoDup_app. split_and!; [done| |done].
    intros i Hi Hn. destruct (Hnew i Hn) as [H1 H2].
    destruct (L4 i Hi); done.
  - intros i [Hi|Hi]%Hperm; apply elem_of_app; [left; by apply L2|by right].
  - intros i [Hi|Hi]%elem_of_app.
    + destruct (L4 i Hi) as [?|?]; [left|by right]. apply Hperm. by left.
    + left. apply Hperm. by right.
  - apply sort_by_ordered. rewrite He. intros a b Hab Hk.
    apply earlier_app in Hab as [Hab|[[Ha Hb]|Hab]]; apply earlier_app.
    + left. by apply L5.
    + right. left. split; [by apply L2|done].
    + by right; right.
Qed.

Lemma linv_step P key step s log :
  sorting P = Some (key, step) →
  LInv key s log → LInv key (step s) (log ++ newly_enqueued s).
Proof.
  intros HP HL. pose proof (linv_sorted key s log HL) as (S1 & S2 & S3 & S4 & S5).
  destruct (sorting_step_cases P key step s HP)
    as [[He ->]|(i & rq & Hs & x & Hx & Hcase)].
  - unfold newly_enqueued. rewrite He, drop_nil, app_nil_r.
    destruct HL as [L1 L2 L3 L4 L5].
    destruct (enqueued_appends s) as (He' & _). rewrite He in He'.
    symmetry in He'. apply app_eq_nil in He' as [Hq _].
    split; cbn; [constructor| by intros i ?%elem_of_nil|done| |].
    + intros i Hi. destruct (L4 i Hi) as [H|?]; [|by right].
      rewrite Hq in H. by apply elem_of_nil in H.
    + intros a b H. by apply earlier_nil in H.
  - rewrite Hs in S1, S3, S4, S5.
    apply NoDup_cons in S1 as [Hni Hrq].
    assert (Hkey : ∀ j, j ≠ i → procs (step s) !!! j = procs s !!! j).
    { intros j Hj. rewrite Hx. by apply list_lookup_total_insert_ne. }
    assert (Htail : ordered (λ j, key (procs (step s) !!! j))
                            (log ++ newly_enqueued s) rq).
    { intros a b Hab. destruct (earlier_elem _ _ _ Hab) as [Ha Hb].
      rewrite !Hkey by (intros ->; done). apply S5.
      apply earlier_cons. by right. }
    destruct Hcase as [[Hq Hc]|(Hq & Hc & Hle)]; split;
      rewrite ?Hq, ?Hc; try done.
    + intros j Hj. apply S3. by right.
    + intros j Hj. destruct (S4 j Hj) as [[->|?]%elem_of_cons|?].
      * right. apply elem_of_app. right. by left.
      * by left.
      * right. apply elem_of_app. by left.
    + by apply NoDup_cons.
    + intros a b [[<- Hb]|Hab]%earlier_cons; [|by apply Htail].
      assert (Hi : key (procs (step s) !!! i) ≤ key (procs s !!! i)).
      { rewrite Hx, list_lookup_total_insert. case_decide; [done|lia]. }
      rewrite (Hkey b) by (intros ->; done).
      destruct (S5 i b) as [Hib Htie]; [apply earlier_cons; by left|].
      split; [lia|]. intros E. apply Htie. lia.
Qed.

Lemma reach_log_linv P key step sch s log :
  sorting P = Some (key, step) →
  reach_log step (initial (reset_processes sch)) s log → LInv key s log.
Proof.
  intros HP. induction 1 as [|s log _ IH _].
  - split; cbn; [constructor|done|constructor|by intros i ?%elem_of_nil|].
    intros a b H. by apply earlier_nil in H.
  - by eapply linv_step.
Qed.

Lemma set_start_completion t p :
  completion_time (set_start t p) = completion_time p.
Proof. unfold set_start. by destruct (start_time p). Qed.

(** What an iteration does to the record at the head of the sorted
    queue. *)
Lemma sorting_step_writes P key step s :
  sorting P = Some (key, step) →
  (enqueued s = [] ∧ step s = idle s)
  ∨ ∃ i rq x,
      sort_by (λ j, key (procs s !!! j)) (enqueued s) = i :: rq
      ∧ procs (step s) = <[i := x]> (procs s)
      ∧ ((completion_time x ≠ None
          ∧ ready_queue (step s) = rq
          ∧ completed_processes (step s) = completed_processes s ++ [i])
         ∨ (completion_time x = completion_time (procs s !!! i)
            ∧ remaining_time x = remaining_time (procs s !!! i) - 1
            ∧ ready_queue (step s) = i :: rq
            ∧ completed_processes (step s) = completed_processes s)).
Proof.
  intros HP.
  destruct (enqueued s) as [|j0 rq0] eqn:E.
  { left. split; [done|].
    destruct P; try done; injection HP as <- <-;
      unfold sjf_nonpreemptive_step, sjf_preemptive_step,
        priority_nonpreemptive_step, priority_preemptive_step; by rewrite E. }
  right.
  destruct (sort_by (λ j, key (procs s !!! j)) (j0 :: rq0)) as [|i rq] eqn:Hs.
  { pose proof (sort_by_length (λ j, key (procs s !!! j)) (j0 :: rq0)) as Hl.
    by rewrite Hs in Hl. }
  exists i, rq.
  destruct P; try done; injection HP as <- <-;
    unfold sjf_nonpreemptive_step, sjf_preemptive_step,
      priority_nonpreemptive_step, priority_preemptive_step;
    rewrite E, Hs.
  - eexists. split_and!; [done|reflexivity|]. left. done.
  - destruct (_ =? 0); eexists; (split_and!; [done|reflexivity|]);
      [by left|right].
    split_and!; [|by rewrite set_start_remaining|done..].
    fields. apply set_start_completion.
  - eexists. split_and!; [done|reflexivity|]. left. done.
  - destruct (_ =? 0); eexists; (split_and!; [done|reflexivity|]);
      [by left|right].
    split_and!; [|by rewrite set_start_remaining|done..].
    fields. apply set_start_completion.
Qed.

(** The references in the ready queue are valid and point to records that
    are not completed; the completed records are those referenced from
    [completed_processes]. *)
Record QInv (s : State) : Prop := mkQInv {
  q_range : ∀ i, i ∈ ready_queue s → (i < length (procs s))%nat;
  q_apart : ∀ i, i ∈ ready_queue s → i ∉ completed_processes s;
  q_done : ∀ i, (i < length (procs s))%nat →
    completion_time (procs s !!! i) ≠ None → i ∈ completed_processes s
}.

Lemma qinv_enqueued s i :
  QInv s → i ∈ enqueued s →
  (i < length (procs s))%nat ∧ (i ∉ completed_processes s)
  ∧ completion_time (procs s !!! i) = None.
Proof.
  intros [Q1 Q2 Q3] Hi.
  destruct (enqueued_appends s) as (He & _ & Hnew).
  assert (Hlt : (i < length (procs s))%nat).
  { apply enqueue_bound in Hi as [Hi|Hi]; [by apply Q1|done]. }
  assert (Hnd : i ∉ completed_processes s).
  { rewrite He in Hi. apply elem_of_app in Hi as [Hi|Hi]; [by apply Q2|].
    by destruct (Hnew i Hi). }
  split_and!; [done..|].
  destruct (completion_time (procs s !!! i)) eqn:E; [|done].
  exfalso. apply Hnd, Q3; [done|]. by rewrite E.
Qed.

Lemma qinv_step P key step s log :
  sorting P = Some (key, step) →
  LInv key s log → QInv s → QInv (step s).
Proof.
  intros HP HL HQ.
  pose proof (linv_sorted key s log HL) as (S1 & _).
  assert (Hin : ∀ j, j ∈ sort_by (λ j, key (procs s !!! j)) (enqueued s) →
                     (j < length (procs s))%nat ∧ (j ∉ completed_processes s)
                     ∧ completion_time (procs s !!! j) = None).
  { intros j Hj. rewrite sort_by_perm in Hj. by apply qinv_enqueued. }
  destruct (sorting_step_writes P key step s HP)
    as [[_ ->]|(i & rq & x & Hs & Hx & Hcase)].
  { destruct HQ as [Q1 Q2 Q3]. split; cbn; [|  |done];
      by intros i ?%elem_of_nil. }
  rewrite Hs in S1, Hin. apply NoDup_cons in S1 as [Hni _].
  destruct (Hin i ltac:(by left)) as (Hi & Hid & Hic).
  destruct HQ as [Q1 Q2 Q3].
  destruct Hcase as [(Hc & Hq & Hd)|(Hc & _ & Hq & Hd)]; split;
    rewrite ?Hx, ?Hq, ?Hd, ?length_insert.
  - intros j Hj. apply Hin. by right.
  - intros j Hj [?|Hji%list_elem_of_singleton]%elem_of_app; [|by subst j].
    by destruct (Hin j ltac:(by right)) as (_ & ? & _).
  - intros j Hj. rewrite store_lookup_insert by done. case_decide as E.
    + intros _. subst j. apply elem_of_app. right. by left.
    + intros Hcj. apply elem_of_app. left. by apply Q3.
  - intros j Hj. by apply Hin.
  - intros j Hj. by destruct (Hin j Hj) as (_ & ? & _).
  - intros j Hj. rewrite store_lookup_insert by done. case_decide as E.
    + subst j. by rewrite Hc, Hic.
    + by apply Q3.
Qed.

Lemma reach_log_qinv P key step sch s log :
  sorting P = Some (key, step) →
  reach_log step (initial (reset_processes sch)) s log → QInv s.
Proof.
  intros HP. induction 1 as [|s log Hr IH _].
  - split; cbn; [by intros i ?%elem_of_nil..|].
    intros i (p & _ & ->)%fresh_lookup. by cbn.
  - eapply qinv_step; [done| |done]. by eapply reach_log_linv.
Qed.

(** An iteration of a sorting policy runs the head of the sorted queue
    and nothing else. *)
Lemma sorting_step_written P key step sch s log :
  sorting P = Some (key, step) →
  reach_log step (initial (reset_processes sch)) s log →
  (enqueued s = [] ∧ ∀ i, ¬ written (procs s) (procs (step s)) i)
  ∨ ∃ i rq,
      sort_by (λ j, key (procs s !!! j)) (enqueued s) = i :: rq
      ∧ written (procs s) (procs (step s)) i
      ∧ ∀ j, j ≠ i → procs (step s) !!! j = procs s !!! j.
Proof.
  intros HP Hr. pose proof (reach_log_qinv P key step sch s log HP Hr) as HQ.
  destruct (sorting_step_writes P key step s HP)
    as [[He ->]|(i & rq & x & Hs & Hx & Hcase)].
  { left. split; [done|]. intros i Hi. by apply Hi. }
  right. exists i, rq.
  destruct (qinv_enqueued s i HQ) as (Hi & _ & Hc).
  { rewrite <- (sort_by_perm (λ j, key (procs s !!! j))), Hs. by left. }
  split_and!; [done| |].
  - unfold written. rewrite Hx, store_lookup_insert, decide_True by done.
    intros E. destruct Hcase as [(Hcx & _)|(_ & Hrx & _)].
    + apply Hcx. by rewrite E.
    + rewrite E in Hrx. lia.
  - intros j Hj. rewrite Hx. by apply list_lookup_total_insert_ne.
Qed.

(** C3. In the four policies that sort the ready queue (SJF and priority,
    non-preemptive and preemptive), on every workload and at every
    iteration of the loop that finds a process ready, the iteration runs
    exactly one process (it writes its record and no other); the key of
    that process (remaining time, or priority) is minimal among the ready
    processes, and every other ready process with the same key was
    appended to the ready queue after it, in the order of all appends
    since the run started (within one admission loop, the order of the
    original list). *)
Theorem ties_go_to_the_earlier_admitted (P : Policy) (key : Process → Z)
    (step : State → State) (sch : Scheduler) (s : State) (log : list nat) :
  sorting P = Some (key, step) →
  reach_log step (initial (reset_processes sch)) s log →
  (enqueued s ≠ [] → ∃ i, written (procs s) (procs (step s)) i)
  ∧ ∀ i, written (procs s) (procs (step s)) i →
      i ∈ enqueued s
      ∧ NoDup (log ++ newly_enqueued s)
      ∧ ∀ j, j ∈ enqueued s → j ≠ i →
          procs (step s) !!! j = procs s !!! j
          ∧ key (procs s !!! i) ≤ key (procs s !!! j)
          ∧ (key (procs s !!! j) = key (procs s !!! i) →
             earlier (log ++ newly_enqueued s) i j).
Proof.
  intros HP Hr.
  pose proof (reach_log_linv P key step sch s log HP Hr) as HL.
  pose proof (linv_sorted key s log HL) as (S1 & S2 & S3 & S4 & S5).
  destruct (sorting_step_written P key step sch s log HP Hr)
    as [[He Hno]|(i0 & rq & Hs & Hw & Hframe)].
  { split; [done|]. intros i Hi. by destruct (Hno i). }
  split; [intros _; by exists i0|].
  intros i Hi.
  assert (i = i0) as ->.
  { destruct (decide (i = i0)) as [|Hne]; [done|]. by destruct (Hi (Hframe i Hne)). }
  rewrite Hs in S5.
  split_and!; [|done|].
  - rewrite <- (sort_by_perm (λ j, key (procs s !!! j))), Hs. by left.
  - intros j Hj Hne.
    assert (Hin : j ∈ rq).
    { rewrite <- (sort_by_perm (λ j, key (procs s !!! j))), Hs in Hj.
      apply elem_of_cons in Hj as [?|?]; done. }
    destruct (S5 i0 j) as [Hle Htie]; [apply earlier_cons; by left|].
    split_and!; [by apply Hframe|done|]. intros E. by apply Htie.
Qed.

Lemma tie_example_reach :
  reach_log priority_preemptive_step
            (initial (reset_processes (Scheduler_init tie_example)))
            tie_example_state [1%nat].
Proof.
  exact (reach_log_next priority_preemptive_step _
           (initial (reset_processes (Scheduler_init tie_example))) []
           (reach_log_start _ _) eq_refl).
Defined.

Lemma ties_go_to_the_earlier_admitted_witness :
  sorting Priority_preemptive = Some (priority, priority_preemptive_step)
  ∧ reach_log priority_preemptive_step
              (initial (reset_processes (Scheduler_init tie_example)))
              tie_example_state [1%nat]
  ∧ enqueued tie_example_state = [1%nat; 0%nat]
  ∧ written (procs tie_example_state)
            (procs (priority_preemptive_step tie_example_state)) 1
  ∧ (priority (procs tie_example_state !!! 0%nat)
     = priority (procs tie_example_state !!! 1%nat) →
     earlier [1%nat; 0%nat] 1 0).
Proof.
  assert (Hw : written (procs tie_example_state)
                 (procs (priority_preemptive_step tie_example_state)) 1)
    by discriminate.
  split_and!; [reflexivity|exact tie_example_reach|reflexivity|exact Hw|].
  destruct (proj2 (ties_go_to_the_earlier_admitted Priority_preemptive priority
                     priority_preemptive_step (Scheduler_init tie_example)
                     tie_example_state [1%nat] eq_refl tie_example_reach)
              1%nat Hw) as (_ & _ & H).
  exact (proj2 (proj2 (H 0%nat ltac:(right; by left) ltac:(discriminate)))).
Defined.

(** * Further properties of the scheduler *)

(** ** The descriptor fields are read-only *)

Lemma reach_drive_static D s0 s j :
  reach m_guard (drive D) s0 s →
  length (m_procs s) = length (m_procs s0)
  ∧ fresh (m_procs s !!! j) = fresh (m_procs s0 !!! j).
Proof.
  induction 1 as [|s s' _ [IH1 IH2] _ Hs]; [done|].
  destruct (drive_static _ _ _ j Hs) as [-> ->]. done.
Qed.

Lemma visits_fresh P sch st :
  visits P sch st → map fresh st = map fresh (original_processes sch).
Proof.
  intros (s & Hr & <-)%visits_drive.
  apply list_eq_same_length with (length (m_procs s)).
  - rewrite length_map.
    destruct (reach_drive_static _ _ _ O Hr) as [-> _]. cbn.
    by rewrite length_map.
  - by rewrite length_map.
  - intros j x y Hj. rewrite !list_lookup_fmap.
    destruct (reach_drive_static _ _ _ j Hr) as [Hl Hf].
    pose proof Hj as Hj0. rewrite Hl in Hj0. cbn [start m_procs] in Hj0, Hf.
    rewrite length_map in Hj0.
    rewrite (list_lookup_lookup_total_lt (m_procs s) j Hj).
    rewrite (list_lookup_lookup_total_lt (original_processes sch) j Hj0).
    cbn. intros [= <-] [= <-]. rewrite Hf.
    erewrite list_lookup_total_correct;
      [|rewrite list_lookup_fmap,
          (list_lookup_lookup_total_lt (original_processes sch) j Hj0); done].
    by destruct (original_processes sch !!! j).
Qed.

Lemma map_fresh_fields st st' :
  map fresh st = map fresh st' →
  map pid st = map pid st' ∧ map arrival_time st = map arrival_time st'
  ∧ map burst_time st = map burst_time st' ∧ map priority st = map priority st'.
Proof.
  intros H.
  split_and!;
    [apply (f_equal (map pid)) in H|apply (f_equal (map arrival_time)) in H
    |apply (f_equal (map burst_time)) in H|apply (f_equal (map priority)) in H];
    rewrite !map_map in H; exact H.
Qed.

Lemma visits_fields P sch st :
  visits P sch st →
  length st = length (original_processes sch)
  ∧ map pid st = map pid (original_processes sch)
  ∧ map arrival_time st = map arrival_time (original_processes sch)
  ∧ map burst_time st = map burst_time (original_processes sch)
  ∧ map priority st = map priority (original_processes sch).
Proof.
  intros Hv. pose proof (visits_fresh P sch st Hv) as Hf.
  split; [|by apply map_fresh_fields].
  apply (f_equal length) in Hf. by rewrite !length_map in Hf.
Qed.

(** X1. Whatever the policy, the quantum and the workload, a run never
    changes a descriptor field: at every iteration and in the records the
    method leaves, the pids, arrival times, burst times and priorities are
    those of the original list, record by record, and the original list
    itself is kept. *)
Theorem descriptors_are_kept (P : Policy) (sch : Scheduler) :
  (∀ st, visits P sch st →
     length st = length (original_processes sch)
     ∧ map pid st = map pid (original_processes sch)
     ∧ map arrival_time st = map arrival_time (original_processes sch)
     ∧ map burst_time st = map burst_time (original_processes sch)
     ∧ map priority st = map priority (original_processes sch))
  ∧ (∀ fuel sch' r, run P fuel sch = Some (sch', r) →
       original_processes sch' = original_processes sch
       ∧ map pid (processes sch') = map pid (original_processes sch)
       ∧ map arrival_time (processes sch')
         = map arrival_time (original_processes sch)
       ∧ map burst_time (processes sch')
         = map burst_time (original_processes sch)
       ∧ map priority (processes sch') = map priority (original_processes sch)).
Proof.
  split.
  - apply visits_fields.
  - intros fuel sch' r [Hv Ho]%run_visits. split; [done|].
    by apply map_fresh_fields, (visits_fresh P).
Qed.

(** ** Rounding to a double *)

(** [round_double] and [float_mul] against the IEEE 754 division and
    multiplication of the library ([SFdiv], [SFmul] at precision 53 and
    maximal exponent 1024), on quotients that are exact, inexact, tied,
    subnormal, rounded to zero and beyond the largest double. *)

Definition int_float (z : Z) : spec_float :=
  match z with
  | Z0 => S754_zero false
  | Zpos p => S754_finite false p 0
  | Zneg p => S754_finite true p 0
  end.

Definition division_cases : list (Z * Z) :=
  [ (1, 3); (2, 8); (8, 8); (1, 4); (7, 3); (-7, 3); (7, -3); (0, -5);
    (28, 100); (1, 10 ^ 400); (10 ^ 400, 1); (3 * 10 ^ 400 + 1, 2);
    (10 ^ 400, 3 * 10 ^ 400 + 1);
    (2 ^ 1024, 1); (2 ^ 1024 - 2 ^ 970, 1); (2 ^ 1024 - 2 ^ 970 - 1, 1);
    (1, 2 ^ 1074); (1, 2 ^ 1075); (3, 2 ^ 1075); (1, 2 ^ 1076);
    (2 ^ 53 + 1, 1); (2 ^ 53 + 3, 1); (2 ^ 54 + 2, 1); (2 ^ 54 + 6, 1);
    (123456789012345678901234567890, 7); (1, 3 * 2 ^ 1070);
    (5, 3 * 2 ^ 1073); (2 ^ 53 - 1, 2 ^ 1127); (2 ^ 54 - 1, 2 ^ 1128);
    (9007199254740993, 2 ^ 1075) ].

Lemma round_double_agrees_with_SFdiv :
  Forall (λ ab : Z * Z,
            round_double (xorb (ab.1 <? 0) (ab.2 <? 0))
                         (Z.abs ab.1) (Z.abs ab.2)
            = SFdiv 53 1024 (int_float ab.1) (int_float ab.2))
         division_cases.
Proof.
  repeat (apply Forall_cons_2; [by vm_compute|]). apply Forall_nil_2.
Qed.

Lemma float_mul_agrees_with_SFmul :
  Forall (λ ab : Z * Z,
            let f := round_double (xorb (ab.1 <? 0) (ab.2 <? 0))
                                  (Z.abs ab.1) (Z.abs ab.2) in
            float_mul f hundred = SFmul 53 1024 f hundred)
         division_cases.
Proof.
  repeat (apply Forall_cons_2; [by vm_compute|]). apply Forall_nil_2.
Qed.

(** Some values, as Python prints them: [1 / 3] is
    [0x1.5555555555555p-2], [28 / 100 * 100] is [28.000000000000004],
    [1 / 10 ** 400] is [0.0], and [statistics.mean] returns an [int]
    when the mean is one. *)
Lemma number_examples :
  truediv 1 3 = inr (S754_finite false 6004799503160661 (-54))
  ∧ truediv (-7) 3 = inr (S754_finite true 5254199565265579 (-51))
  ∧ truediv 28 100 = inr (S754_finite false 5044031582654956 (-54))
  ∧ float_mul (S754_finite false 5044031582654956 (-54)) hundred
    = S754_finite false 7881299347898369 (-48)
  ∧ truediv 1 (10 ^ 400) = inr (S754_zero false)
  ∧ truediv 3 (2 ^ 1075) = inr (S754_finite false 2 (-1074))
  ∧ truediv (2 ^ 1024 - 2 ^ 970 - 1) 1
    = inr (S754_finite false 9007199254740991 971)
  ∧ truediv (2 ^ 1024 - 2 ^ 970) 1 = inl OverflowError
  ∧ truediv 1 0 = inl ZeroDivisionError
  ∧ mean [1; 3] = inr (Int 2)
  ∧ mean [1; 2] = inr (Float (S754_finite false 6755399441055744 (-52)))
  ∧ mean [10 ^ 400; 10 ^ 400 + 2] = inr (Int (10 ^ 400 + 1))
  ∧ mean [10 ^ 400; 10 ^ 400 + 1] = inl OverflowError
  ∧ mean [] = inl StatisticsError.
Proof. split_and!; by vm_compute. Qed.

Lemma round_half_even_le n d M :
  0 < d → 0 ≤ n → n ≤ M * d → round_half_even n d ≤ M.
Proof.
  intros Hd Hn Hle. unfold round_half_even.
  pose proof (Z.div_mod n d ltac:(lia)) as Hdm.
  pose proof (Z.mod_pos_bound n d Hd) as Hr.
  assert (Hq : n `div` d ≤ M) by (apply Z.div_le_upper_bound; lia).
  destruct (Z.compare_spec (2 * (n `mod` d)) d) as [E|E|E]; [|lia|nia].
  destruct (Z.even _); [lia|nia].
Qed.

Lemma round_half_even_nonneg n d : 0 < d → 0 ≤ n → 0 ≤ round_half_even n d.
Proof.
  intros Hd Hn. unfold round_half_even.
  assert (0 ≤ n `div` d) by (apply Z.div_pos; lia).
  destruct (_ ?= _); [destruct (Z.even _)| |]; lia.
Qed.

Lemma round_double_sign neg n d : float_sign (round_double neg n d) neg.
Proof.
  unfold round_double. destruct (scaled _ _ _) as [n' d'].
  destruct (_ =? 0); [done|].
  destruct (_ =? 2 ^ 53); by destruct (_ <=? 971).
Qed.

Lemma round_double_zero neg d : 0 < d → round_double neg 0 d = S754_zero neg.
Proof.
  intros Hd. unfold round_double, scaled. cbn [Z.mul].
  unfold round_half_even. rewrite Z.div_0_l, Zmod_0_l by
    (pose proof (Z.pow_pos_nonneg 2 (Z.max 0 (binade 0 d))); lia).
  assert (0 < d * 2 ^ Z.max 0 (binade 0 d)).
  { apply Z.mul_pos_pos; [done|]. apply Z.pow_pos_nonneg; lia. }
  destruct (Z.compare_spec (2 * 0) (d * 2 ^ Z.max 0 (binade 0 d))); try lia.
  done.
Qed.

Lemma binade_bounds n d :
  0 < n → 0 < d →
  -1074 ≤ binade n d ≤ Z.max (-1074) (Z.log2 n - Z.log2 d - 52).
Proof.
  intros Hn Hd. unfold binade. destruct (scaled _ _ _) as [n' d'].
  destruct (_ <? _); lia.
Qed.

Lemma log2_bound n d b :
  0 < n → 0 < d → 0 ≤ b → n < 2 ^ b * d → Z.log2 n - Z.log2 d ≤ b.
Proof.
  intros Hn Hd Hb Hlt.
  pose proof (Z.log2_spec d Hd) as [_ Hd2].
  pose proof (Z.log2_nonneg d).
  assert (n < 2 ^ (b + Z.succ (Z.log2 d))).
  { rewrite Z.pow_add_r by lia.
    assert (0 < 2 ^ b) by (apply Z.pow_pos_nonneg; lia). nia. }
  apply Z.log2_lt_pow2 in H0; lia.
Qed.

(** Nothing below [2 ^ 1000] overflows. *)
Lemma round_double_finite neg n d s :
  0 ≤ n → 0 < d → n < 2 ^ 1000 * d → round_double neg n d ≠ S754_infinity s.
Proof.
  intros Hn Hd Hlt.
  destruct (decide (n = 0)) as [->|Hn0]; [by rewrite round_double_zero|].
  pose proof (binade_bounds n d ltac:(lia) Hd) as Hb.
  pose proof (log2_bound n d 1000 ltac:(lia) Hd ltac:(lia) Hlt).
  unfold round_double. destruct (scaled _ _ _) as [n' d'].
  destruct (_ =? 0); [done|].
  destruct (_ =? 2 ^ 53).
  - destruct (Z.leb_spec (binade n d + 1) 971); [done|lia].
  - destruct (Z.leb_spec (binade n d) 971); [done|lia].
Qed.

(** Rounding does not cross an integer below [2 ^ 53]. *)
Lemma round_double_le n d K :
  0 ≤ n → 0 < d → 0 ≤ K < 2 ^ 53 → n ≤ K * d →
  float_le_Z (round_double false n d) K.
Proof.
  intros Hn Hd HK Hle.
  destruct (decide (n = 0)) as [->|Hn0].
  { rewrite round_double_zero by done. cbn. lia. }
  assert (Hlog : Z.log2 n - Z.log2 d ≤ 53).
  { apply log2_bound; [lia..|]. nia. }
  assert (He : -1074 ≤ binade n d ≤ 0).
  { split; [apply binade_bounds; lia|]. unfold binade, scaled.
    match goal with
    | |- context [?a <? ?b] => destruct (Z.ltb_spec a b) as [_|Hge]; [lia|]
    end.
    destruct (decide (Z.log2 n - Z.log2 d = 53)) as [E|]; [|lia].
    exfalso. rewrite E in Hge. change (Z.max 0 (- (53 - 53))) with 0 in Hge.
    change (Z.max 0 (53 - 53)) with 0 in Hge. rewrite !Z.pow_0_r, !Z.mul_1_r in Hge.
    assert (n `div` d < 2 ^ 53); [|lia].
    apply Z.div_lt_upper_bound; [done|]. nia. }
  unfold round_double, scaled.
  rewrite (Z.max_l 0 (binade n d)), (Z.max_r 0 (- binade n d)) by lia.
  rewrite Z.pow_0_r, Z.mul_1_r.
  set (e := binade n d) in *. set (m := round_half_even (n * 2 ^ (- e)) d).
  assert (Hp : 0 < 2 ^ (- e)) by (apply Z.pow_pos_nonneg; lia).
  assert (Hm : m ≤ K * 2 ^ (- e)).
  { apply round_half_even_le; [done|nia|nia]. }
  assert (Hm0 : 0 ≤ m) by (apply round_half_even_nonneg; [done|nia]).
  destruct (Z.eqb_spec m 0) as [|Hne]; [cbn; lia|].
  destruct (Z.eqb_spec m (2 ^ 53)) as [E|_].
  - assert (e < 0) by (destruct (decide (e = 0)) as [E0|]; [|lia];
                        rewrite E0 in Hm; cbn in Hm; lia).
    destruct (Z.leb_spec (e + 1) 971); [|lia].
    unfold float_le_Z, numerator, denominator.
    rewrite (Z.max_l 0 (e + 1)), (Z.max_r 0 (- (e + 1))) by lia.
    rewrite Z.pow_0_r, Z.mul_1_r.
    replace (2 ^ (- e)) with (2 * 2 ^ (- (e + 1))) in Hm.
    2:{ rewrite <- Z.pow_succ_r by lia. f_equal. lia. }
    change (Z.pos (Z.to_pos (2 ^ 52))) with (2 ^ 52). rewrite E in Hm. lia.
  - destruct (Z.leb_spec e 971); [|lia].
    unfold float_le_Z, numerator, denominator.
    rewrite (Z.max_l 0 e), (Z.max_r 0 (- e)) by lia.
    rewrite Z.pow_0_r, Z.mul_1_r, Z2Pos.id by lia. done.
Qed.

(** What [/] returns on two [int]s that are not negative. *)
Lemma truediv_le a b K f :
  0 ≤ a → 0 < b → 0 ≤ K < 2 ^ 53 → a ≤ K * b →
  truediv a b = inr f → float_le_Z f K ∧ float_sign f false.
Proof.
  intros Ha Hb HK Hle. unfold truediv.
  destruct (Z.eqb_spec b 0); [lia|].
  destruct (Z.ltb_spec a 0), (Z.ltb_spec b 0); try lia. cbn [xorb].
  rewrite !Z.abs_eq by lia.
  pose proof (round_double_le a b K Ha Hb HK Hle) as H1.
  pose proof (round_double_sign false a b) as H2.
  destruct (round_double false a b); try done; by intros [= <-].
Qed.

Lemma truediv_small a b :
  b ≠ 0 → Z.abs a < 2 ^ 1000 → ∃ f, truediv a b = inr f.
Proof.
  intros Hb Ha. unfold truediv. destruct (Z.eqb_spec b 0); [done|].
  pose proof (round_double_finite (xorb (a <? 0) (b <? 0)) (Z.abs a) (Z.abs b)).
  destruct (round_double _ _ _) as [| s | |] eqn:E; eauto.
  exfalso. apply (H s); [lia..| |done].
  assert (0 < 2 ^ 1000) by done. nia.
Qed.

Lemma float_mul_hundred_le f :
  float_le_Z f 1 → float_sign f false → float_le_Z (float_mul f hundred) 100
  ∧ float_sign (float_mul f hundred) false.
Proof.
  destruct f as [s|s| |s m e]; cbn [float_sign float_le_Z]; try done.
  - intros _ ->. cbn. split; [lia|done].
  - intros ? ->. done.
  - intros Hle ->. cbn [float_mul hundred xorb].
    split; [|apply round_double_sign].
    assert (Hd : 0 < denominator e) by (apply Z.pow_pos_nonneg; lia).
    assert (Hn : 0 < numerator m e).
    { apply Z.mul_pos_pos; [done|]. apply Z.pow_pos_nonneg; lia. }
    apply round_double_le.
    + change (numerator 7036874417766400 (-46)) with 7036874417766400. lia.
    + change (denominator (-46)) with 70368744177664. lia.
    + done.
    + change (numerator 7036874417766400 (-46)) with 7036874417766400.
      change (denominator (-46)) with 70368744177664. lia.
Qed.

(** ** When [get_metrics] raises *)

Lemma py_max_foldl x xs y : y ∈ xs → y ≤ py_max x xs.
Proof.
  unfold py_max. revert x. induction xs as [|z xs IH]; intros x.
  - by intros ?%elem_of_nil.
  - intros [->|Hy]%elem_of_cons; cbn.
    + etrans; [|apply py_max_ge]. lia.
    + by apply IH.
Qed.

Lemma mean_small xs :
  xs ≠ [] → Z.abs (sumZ xs) < 2 ^ 1000 → ∃ x, mean xs = inr x.
Proof.
  destruct xs as [|x xs]; [done|]. intros _ Hs. unfold mean.
  destruct (_ =? 0); [eauto|].
  destruct (truediv_small (sumZ (x :: xs)) (Z.of_nat (length (x :: xs))))
    as [f ->]; [cbn [length]; lia|done|eauto].
Qed.

Lemma get_metrics_small sch c cs :
  in_float_range sch →
  completion_times (completed_records (processes sch)) = c :: cs →
  py_max c cs ≠ 0 →
  ∃ m, get_metrics sch = inr m.
Proof.
  intros (H1 & H2 & H3 & H4) Hc Hz. unfold get_metrics. cbn zeta in *.
  destruct (completed_records (processes sch)) as [|p l] eqn:E; [done|].
  rewrite Hc.
  assert (Hp : is_completed p = true).
  { assert (Hin : In p (completed_records (processes sch)))
      by (rewrite E; by left).
    by apply filter_In in Hin as [_ ?]. }
  destruct (is_completed_Some p Hp) as [c0 Hc0].
  destruct (mean_small (omap turnaround_time (p :: l))) as [att ->]; [|done|].
  { by rewrite (omap_turnaround_cons p l c0 Hc0). }
  destruct (mean_small (omap waiting_time (p :: l))) as [awt ->]; [|done|].
  { by rewrite (omap_waiting_cons p l c0 Hc0). }
  destruct (truediv_small (Z.of_nat (length (p :: l))) (py_max c cs))
    as [thr ->]; [done|lia|].
  destruct (truediv_small (sumZ (map burst_time (p :: l))) (py_max c cs))
    as [u ->]; [done..|]. eauto.
Qed.

Lemma get_metrics_small_zero sch c cs :
  in_float_range sch →
  completion_times (completed_records (processes sch)) = c :: cs →
  py_max c cs = 0 →
  get_metrics sch = inl ZeroDivisionError.
Proof.
  intros (H1 & H2 & H3 & H4) Hc Hz. unfold get_metrics. cbn zeta in *.
  destruct (completed_records (processes sch)) as [|p l] eqn:E; [done|].
  rewrite Hc, Hz.
  assert (Hp : is_completed p = true).
  { assert (Hin : In p (completed_records (processes sch)))
      by (rewrite E; by left).
    by apply filter_In in Hin as [_ ?]. }
  destruct (is_completed_Some p Hp) as [c0 Hc0].
  destruct (mean_small (omap turnaround_time (p :: l))) as [att ->]; [|done|].
  { by rewrite (omap_turnaround_cons p l c0 Hc0). }
  destruct (mean_small (omap waiting_time (p :: l))) as [awt ->]; [|done|].
  { by rewrite (omap_waiting_cons p l c0 Hc0). }
  done.
Qed.

Lemma get_metrics_zero_divisor sch c cs :
  completion_times (completed_records (processes sch)) = c :: cs →
  py_max c cs = 0 →
  ∃ e, get_metrics sch = inl e.
Proof.
  intros Hc Hz. unfold get_metrics.
  destruct (completed_records (processes sch)) as [|p l] eqn:E; [done|].
  rewrite Hc, Hz.
  destruct (mean _); [eauto|].
  destruct (mean (omap waiting_time _)); [eauto|].
  unfold truediv at 1. cbn [Z.eqb]. eauto.
Qed.

(** X2. [get_metrics] raises nothing but [ZeroDivisionError] and
    [OverflowError], and only when some record is completed;
    [ZeroDivisionError] means that the largest [completion_time] is 0,
    and with that divisor the call always raises.  When the sums and the
    count that are divided are below [2 ^ 1000] in absolute value, the
    call raises exactly when the largest [completion_time] is 0, and then
    it raises [ZeroDivisionError].  Completion times [10 ^ 400] and
    [2 * 10 ^ 400 + 1] give [OverflowError]. *)
Theorem get_metrics_raises_iff (sch : Scheduler) :
  (∀ e, get_metrics sch = inl e →
     ∃ c cs,
       completion_times (completed_records (processes sch)) = c :: cs
       ∧ ((e = ZeroDivisionError ∧ py_max c cs = 0) ∨ e = OverflowError))
  ∧ (∀ c cs,
       completion_times (completed_records (processes sch)) = c :: cs →
       py_max c cs = 0 → ∃ e, get_metrics sch = inl e)
  ∧ (in_float_range sch →
     ∀ e, get_metrics sch = inl e
          ↔ e = ZeroDivisionError
            ∧ ∃ c cs,
                completion_times (completed_records (processes sch)) = c :: cs
                ∧ py_max c cs = 0)
  ∧ get_metrics (mkScheduler [] overflow_example) = inl OverflowError.
Proof.
  split_and!.
  - apply get_metrics_raises.
  - apply get_metrics_zero_divisor.
  - intros Hsmall e. split.
    + intros He. destruct (get_metrics_raises _ _ He) as (c & cs & Hc & _).
      destruct (decide (py_max c cs = 0)) as [Hz|Hz].
      * rewrite (get_metrics_small_zero sch c cs Hsmall Hc Hz) in He.
        injection He as <-. eauto.
      * destruct (get_metrics_small sch c cs Hsmall Hc Hz) as [m Hm].
        by rewrite Hm in He.
    + intros (-> & c & cs & Hc & Hz). by eapply get_metrics_small_zero.
  - by vm_compute.
Qed.

(** ** Membership tests and unique pids *)

Lemma unique_pid_index (st : list Process) i j :
  NoDup (map pid st) → (i < length st)%nat → (j < length st)%nat →
  st !!! i = st !!! j → i = j.
Proof.
  intros Hnd Hi Hj E.
  eapply (NoDup_lookup (map pid st)); [done|..].
  - rewrite list_lookup_fmap, (list_lookup_lookup_total_lt st i Hi). done.
  - rewrite list_lookup_fmap, (list_lookup_lookup_total_lt st j Hj).
    cbn. by rewrite E.
Qed.

(** X3. When the pids of the workload are pairwise distinct, the
    membership tests of the loops, which compare records field by field,
    are identity tests: at every iteration of every policy, a record is
    found in a list of references to records exactly when a reference to
    that very record is in the list. *)
Theorem membership_is_identity (P : Policy) (sch : Scheduler)
    (st : list Process) (i : nat) (l : list nat) :
  NoDup (map pid (original_processes sch)) →
  visits P sch st →
  (i < length st)%nat → (∀ j, j ∈ l → (j < length st)%nat) →
  py_in st i l = true ↔ i ∈ l.
Proof.
  intros Hnd Hv Hi Hl.
  destruct (visits_fields P sch st Hv) as (_ & Hp & _).
  rewrite <- Hp in Hnd. rewrite py_in_spec. split.
  - intros (j & Hj & E). by rewrite (unique_pid_index st i j Hnd Hi (Hl j Hj) E).
  - intros Hin. by exists i.
Qed.

(** The example workload after the first tick of preemptive SJF. *)
Definition sjf_example_state : State :=
  mkState [ mkProcess 0 0 5 1 4 (Some 0) None; mkProcess 1 1 3 2 3 None None ]
          1 [0%nat] [].

Lemma sjf_example_reach :
  reach guard (total sjf_preemptive_step)
        (initial (reset_processes (Scheduler_init spec_example)))
        sjf_example_state.
Proof.
  eapply reach_next; [apply reach_start|reflexivity|reflexivity].
Defined.

Lemma membership_is_identity_witness :
  NoDup (map pid (original_processes (Scheduler_init spec_example)))
  ∧ visits SJF_preemptive (Scheduler_init spec_example) (procs sjf_example_state)
  ∧ (py_in (procs sjf_example_state) 1 [0%nat] = true ↔ 1%nat ∈ [0%nat]).
Proof.
  assert (H1 : NoDup (map pid (original_processes (Scheduler_init spec_example))))
    by compute_done.
  assert (H2 : visits SJF_preemptive (Scheduler_init spec_example)
                 (procs sjf_example_state)).
  { exists sjf_example_state. split; [exact sjf_example_reach|reflexivity]. }
  split_and!; [exact H1|exact H2|].
  apply (membership_is_identity SJF_preemptive (Scheduler_init spec_example)
           _ 1%nat [0%nat] H1 H2).
  - cbn. lia.
  - intros j Hj. apply list_elem_of_singleton in Hj. subst j. cbn. lia.
Defined.

(** ** First come, first served *)

(** X4. In FCFS the processes are completed in the order in which they
    were appended to the ready queue: at every iteration, the completed
    processes followed by the ready queue are exactly the admission order
    since the start of the run. *)
Theorem fcfs_serves_in_admission_order (sch : Scheduler) (s : State)
    (log : list nat) :
  reach_log fcfs_step (initial (reset_processes sch)) s log →
  log = completed_processes s ++ ready_queue s.
Proof.
  induction 1 as [|s log _ IH Hg]; [done|].
  destruct (enqueued_appends s) as (He & _). rewrite IH, <- app_assoc, <- He.
  unfold fcfs_step. destruct (enqueued s) as [|i rq]; cbn.
  - by rewrite app_nil_r.
  - by rewrite <- app_assoc.
Qed.

Lemma fcfs_serves_in_admission_order_witness :
  reach_log fcfs_step (initial (reset_processes (Scheduler_init tie_example)))
    (mkState [ mkProcess 0 1 2 1 2 None None; mkProcess 1 0 2 1 0 (Some 0) (Some 2) ]
             2 [] [1%nat])
    [1%nat]
  ∧ [1%nat] = [1%nat] ++ [].
Proof.
  assert (H : reach_log fcfs_step
                (initial (reset_processes (Scheduler_init tie_example)))
                (mkState [ mkProcess 0 1 2 1 2 None None;
                           mkProcess 1 0 2 1 0 (Some 0) (Some 2) ]
                         2 [] [1%nat])
                [1%nat]).
  { exact (reach_log_next fcfs_step _
             (initial (reset_processes (Scheduler_init tie_example))) []
             (reach_log_start _ _) eq_refl). }
  split; [exact H|].
  exact (fcfs_serves_in_admission_order _ _ _ H).
Defined.

(** ** What is dispatched is the best of all that has arrived *)

(** The single-queue policies with their loop body. *)
Definition single_step (P : Policy) : option (State → State) :=
  match P with
  | FCFS => Some fcfs_step
  | SJF_nonpreemptive => Some sjf_nonpreemptive_step
  | SJF_preemptive => Some sjf_preemptive_step
  | Round_robin quantum => Some (round_robin_step quantum)
  | Priority_nonpreemptive => Some priority_nonpreemptive_step
  | Priority_preemptive => Some priority_preemptive_step
  | Multilevel_queue _ => None
  end.

Lemma single_step_drive P step :
  single_step P = Some step →
  (∀ s, drive (discipline P) (lift s) = inr (lift (step s)))
  ∧ d_tier (discipline P) = one_queue ∧ tiers P = 1%nat.
Proof.
  destruct P; intros [= <-]; (split; [|done]).
  - apply fcfs_step_drive.
  - apply sjf_nonpreemptive_step_drive.
  - apply sjf_preemptive_step_drive.
  - apply round_robin_step_drive.
  - apply priority_nonpreemptive_step_drive.
  - apply priority_preemptive_step_drive.
Qed.

Lemma sorting_single P key step :
  sorting P = Some (key, step) →
  single_step P = Some step ∧ d_key (discipline P) = Some key.
Proof. destruct P; intros [= <- <-]; done. Qed.

Lemma single_reach_inv P step sch s :
  single_step P = Some step →
  Forall (λ p, 0 < burst_time p) (original_processes sch) →
  reach guard (total step) (initial (reset_processes sch)) s →
  PInv P (lift s).
Proof.
  intros HP Hb Hr. destruct (single_step_drive P step HP) as (Hd & _ & Ht).
  apply (reach_lift _ _ _ _ Hd) in Hr.
  assert (H0 : PInv P (lift (initial (reset_processes sch)))).
  { pose proof (policy_start_inv P sch) as H. unfold start in H. rewrite Ht in H.
    apply H. intros p Hp. rewrite Forall_forall in Hb. specialize (Hb p Hp). lia. }
  induction Hr; [done|]. eapply policy_drive_inv; eauto.
Qed.

(** After the admission loop, whatever has arrived and is not completed is
    in the ready queue, or equal to a record that is. *)
Lemma single_all_enqueued P step sch s j :
  single_step P = Some step →
  Forall (λ p, 0 < burst_time p) (original_processes sch) →
  reach guard (total step) (initial (reset_processes sch)) s →
  (j < length (procs s))%nat →
  arrival_time (procs s !!! j) ≤ current_time s →
  completion_time (procs s !!! j) = None →
  ∃ j', j' ∈ enqueued s ∧ procs s !!! j = procs s !!! j'.
Proof.
  intros HP Hb Hr Hj Ha Hc.
  pose proof (single_reach_inv P step sch s HP Hb Hr) as HI.
  destruct (single_step_drive P step HP) as (_ & Ht & Hn).
  pose proof (d_enqueue_one_queue (discipline P) (procs s) (current_time s)
                (completed_processes s) (ready_queue s) Ht) as He.
  unfold PInv in HI. rewrite Hn in HI.
  destruct (enqueue_inv (discipline P) 1 (progresses P)) with (s := lift s)
    (qs := [enqueued s]) as [_ Hall]; [|exact HI|exact He|].
  { rewrite <- Hn. apply discipline_tier_lt. }
  destruct (Hall j Hj Ha Hc) as (k & j' & (q & Hq & Hj') & E).
  exists j'. split; [|done]. cbn in Hq.
  destruct k; cbn in Hq; [by injection Hq as <-|done].
Qed.

Lemma sorted_head_least key l i rq j :
  sort_by key l = i :: rq → j ∈ l → key i ≤ key j.
Proof.
  intros Hs Hj. rewrite <- (sort_by_perm key), Hs in Hj.
  apply elem_of_cons in Hj as [->|Hj]; [done|].
  destruct (sort_by_stable key l i j) as [H _]; [|done].
  rewrite Hs. apply earlier_cons. by left.
Qed.

Lemma reach_has_log step s0 s :
  reach guard (total step) s0 s → ∃ log, reach_log step s0 s log.
Proof.
  induction 1 as [|s s' _ [log IH] Hg Hs].
  - exists []. constructor.
  - injection Hs as <-. eexists. by apply reach_log_next.
Qed.

(** X5. In the four sorting policies, on a workload with positive burst
    times, an iteration that finds a process that has arrived and is not
    completed runs a process, and the process it runs (the one record it
    writes) has the least key (remaining time for SJF, priority for the
    priority policies) among all the processes that have arrived and are
    not completed, whether the admission loop has put them in the ready
    queue or has passed them over for being equal to a queued record. *)
Theorem dispatch_is_least_of_arrived (P : Policy) (key : Process → Z)
    (step : State → State) (sch : Scheduler) (s : State) (j : nat) :
  sorting P = Some (key, step) →
  Forall (λ p, 0 < burst_time p) (original_processes sch) →
  reach guard (total step) (initial (reset_processes sch)) s →
  (j < length (procs s))%nat →
  arrival_time (procs s !!! j) ≤ current_time s →
  completion_time (procs s !!! j) = None →
  (∃ i, written (procs s) (procs (step s)) i)
  ∧ ∀ i, written (procs s) (procs (step s)) i →
         key (procs s !!! i) ≤ key (procs s !!! j).
Proof.
  intros HP Hb Hr Hj Ha Hc.
  destruct (sorting_single P key step HP) as [Hs _].
  destruct (single_all_enqueued P step sch s j Hs Hb Hr Hj Ha Hc)
    as (j' & Hj' & E).
  destruct (reach_has_log _ _ _ Hr) as [log Hlog].
  destruct (sorting_step_written P key step sch s log HP Hlog)
    as [[He _]|(i0 & rq & Hsort & Hw & Hframe)].
  { rewrite He in Hj'. by apply elem_of_nil in Hj'. }
  split; [by exists i0|]. intros i Hi.
  destruct (decide (i = i0)) as [->|Hne]; [|by destruct Hi; apply Hframe].
  rewrite E.
  by apply (sorted_head_least (λ j, key (procs s !!! j)) (enqueued s) i0 rq j').
Qed.

Lemma dispatch_is_least_of_arrived_witness :
  sorting SJF_preemptive = Some (remaining_time, sjf_preemptive_step)
  ∧ Forall (λ p, 0 < burst_time p)
           (original_processes (Scheduler_init spec_example))
  ∧ reach guard (total sjf_preemptive_step)
          (initial (reset_processes (Scheduler_init spec_example)))
          sjf_example_state
  ∧ written (procs sjf_example_state)
            (procs (sjf_preemptive_step sjf_example_state)) 1
  ∧ remaining_time (procs sjf_example_state !!! 1%nat)
    ≤ remaining_time (procs sjf_example_state !!! 0%nat).
Proof.
  assert (Hb : Forall (λ p, 0 < burst_time p)
                 (original_processes (Scheduler_init spec_example)))
    by compute_done.
  assert (Hw : written (procs sjf_example_state)
                 (procs (sjf_preemptive_step sjf_example_state)) 1)
    by discriminate.
  split_and!; [reflexivity|exact Hb|exact sjf_example_reach|exact Hw|].
  exact (proj2 (dispatch_is_least_of_arrived SJF_preemptive remaining_time
                  sjf_preemptive_step (Scheduler_init spec_example) _ 0%nat
                  eq_refl Hb sjf_example_reach
                  ltac:(cbn; lia) ltac:(cbn; lia) eq_refl) 1%nat Hw).
Defined.

Lemma multilevel_reach_inv quantum sch s :
  Forall (λ p, 0 < burst_time p) (original_processes sch) →
  reach m_guard (multilevel_queue_step quantum)
        (m_initial (reset_processes sch)) s →
  PInv (Multilevel_queue quantum) s.
Proof.
  intros Hb Hr.
  apply (reach_ext _ _ _ _ _ (multilevel_queue_step_drive quantum)) in Hr.
  assert (H0 : PInv (Multilevel_queue quantum)
                 (m_initial (reset_processes sch))).
  { apply (policy_start_inv (Multilevel_queue quantum) sch).
    intros p Hp. rewrite Forall_forall in Hb. specialize (Hb p Hp). lia. }
  induction Hr; [done|]. eapply policy_drive_inv; eauto.
Qed.

(** X6. In the multilevel queue, on a workload with positive burst times,
    an iteration that finds a process [j] that has arrived and is not
    completed runs a process when the quantum is at least 1, and the
    process it runs (the one record it writes) belongs to the queue of
    [j] or to a queue of smaller index: no process of a queue runs while
    a process of a queue of smaller index is waiting. *)
Theorem lower_queues_wait (quantum : Z) (sch : Scheduler) (s s' : MState)
    (j k' : nat) :
  Forall (λ p, 0 < burst_time p) (original_processes sch) →
  reach m_guard (multilevel_queue_step quantum)
        (m_initial (reset_processes sch)) s →
  multilevel_queue_step quantum s = inr s' →
  (j < length (m_procs s))%nat →
  arrival_time (m_procs s !!! j) ≤ m_time s →
  completion_time (m_procs s !!! j) = None →
  py_index 3 (queue_index_of (m_procs s !!! j)) = inr k' →
  (1 ≤ quantum → ∃ i, written (m_procs s) (m_procs s') i)
  ∧ ∀ i, written (m_procs s) (m_procs s') i →
         ∃ k, py_index 3 (queue_index_of (m_procs s !!! i)) = inr k
              ∧ (k ≤ k')%nat.
Proof.
  intros Hb Hr Hs Hj Ha Hc Hk'.
  pose proof (reach_tiered _ _ _ Hr) as HT.
  pose proof (multilevel_reach_inv quantum sch s Hb Hr) as HI.
  apply multilevel_queue_step_cases in Hs as (qs & Hqs & Hcase).
  destruct (enqueue_inv (multilevel_queue_d quantum) 3
              (progresses (Multilevel_queue quantum))
              (discipline_tier_lt (Multilevel_queue quantum)) s qs HI Hqs)
    as [HQ Hall].
  destruct (Hall j Hj Ha Hc) as (k0 & j' & Hq0 & E).
  destruct (inv_queued _ _ _ _ HQ _ _ Hq0) as (_ & _ & Ht). cbn in Ht, E.
  rewrite <- E in Ht. cbn in Hk'. rewrite Hk' in Ht. injection Ht as Hkeq.
  subst k0. destruct Hq0 as (q0 & Hq0 & Hj'). cbn in Hq0.
  destruct Hcase as [(Hnone & _ & _)|(k & i & q' & Hf & Hd & Hs')].
  { exfalso. rewrite (first_nonempty_None _ _ _ Hnone Hq0) in Hj'.
    by apply elem_of_nil in Hj'. }
  destruct (mlq_dispatch_queued s k i HT Hd) as (_ & _ & _ & _ & _ & Hi & Htier).
  apply first_nonempty_Some in Hf as (Hk & _ & Hfirst).
  assert (Hkk : (k ≤ k')%nat).
  { destruct (decide (k ≤ k')%nat) as [|Hlt]; [done|].
    rewrite (Hfirst k') in Hq0 by lia. injection Hq0 as <-.
    by apply elem_of_nil in Hj'. }
  destruct (inv_queued _ _ _ _ HQ k i) as (_ & Hci & _).
  { exists (i :: q'). split; [done|by left]. }
  cbn in Hci. pose proof (inv_record _ _ _ _ HI i Hi) as Hrec.
  rewrite Hci in Hrec. cbn zeta in Hs'. split.
  - intros Hq. exists i. unfold written.
    destruct Hs' as [[_ ->]|[Hne ->]]; cbn [m_procs];
      rewrite store_lookup_insert, decide_True by done; intros E'.
    + apply (f_equal completion_time) in E'. cbn in E'. congruence.
    + apply (f_equal remaining_time) in E'. cbn in E'.
      rewrite ?set_start_remaining in E'. destruct (k =? 0)%nat; lia.
  - intros i' Hw. destruct (decide (i' = i)) as [->|Hne]; [by exists k|].
    exfalso. apply Hw.
    destruct Hs' as [[_ ->]|[_ ->]]; cbn [m_procs];
      by rewrite list_lookup_total_insert_ne.
Qed.

Lemma lower_queues_wait_witness :
  Forall (λ p, 0 < burst_time p)
         (original_processes (Scheduler_init zero_priority_example))
  ∧ reach m_guard (multilevel_queue_step 2)
          (m_initial (reset_processes (Scheduler_init zero_priority_example)))
          zero_priority_state
  ∧ (∃ s', multilevel_queue_step 2 zero_priority_state = inr s'
       ∧ (1 ≤ 2 → ∃ i, written (m_procs zero_priority_state) (m_procs s') i)
       ∧ ∀ i, written (m_procs zero_priority_state) (m_procs s') i →
              ∃ k, py_index 3 (queue_index_of
                                 (m_procs zero_priority_state !!! i)) = inr k
                   ∧ (k ≤ 0)%nat).
Proof.
  assert (Hb : Forall (λ p, 0 < burst_time p)
                 (original_processes (Scheduler_init zero_priority_example)))
    by compute_done.
  split_and!; [exact Hb|exact zero_priority_reach|].
  eexists. split; [reflexivity|].
  exact (lower_queues_wait 2 (Scheduler_init zero_priority_example)
           zero_priority_state _ 1%nat 0%nat Hb zero_priority_reach
           eq_refl ltac:(cbn; lia) ltac:(cbn; lia) eq_refl eq_refl).
Defined.

(** ** The queue of a process *)

Lemma mlq_enqueue_ok s :
  length (queues s) = 3%nat →
  (∀ i, (i < length (m_procs s))%nat → 0 ≤ priority (m_procs s !!! i)) →
  ∃ qs, mlq_enqueue (m_procs s) (m_time s) (m_completed s) (queues s) = inr qs.
Proof.
  intros Hlen Hpr.
  change (∃ qs, foldl (enqueue1 (multilevel_queue_d 0) (m_procs s) (m_time s)
                         (m_completed s)) (inr (queues s))
                      (seq 0 (length (m_procs s))) = inr qs).
  apply enqueue_fold_ok. intros i [_ Hi]%elem_of_seq. rewrite Hlen.
  specialize (Hpr i Hi). cbn. unfold py_index, queue_index_of.
  assert (0 ≤ priority (m_procs s !!! i) `div` 4) by (apply Z.div_pos; lia).
  change (Z.of_nat 3) with 3.
  destruct (Z.leb_spec 0 (Z.min (priority (m_procs s !!! i) `div` 4) 2)),
           (Z.ltb_spec (Z.min (priority (m_procs s !!! i) `div` 4) 2) 3);
    cbn; eauto; lia.
Qed.

(** X19. In the multilevel queue, on a workload whose priorities are not
    negative, at every iteration: a process found in queue [k] has
    [k = min(priority div 4, 2)], with the priority of its descriptor;
    the iteration does not raise; the process it runs (the one record it
    writes), also when it has been admitted in this very iteration, is
    run by the rule of its queue [k = min(priority div 4, 2)] (to
    completion in queue 0, for at most a quantum otherwise) and, when
    that does not complete it, it is appended to the back of queue [k];
    and a process is never found in two different queues in the course
    of a run. *)
Theorem tier_is_fixed (quantum : Z) (sch : Scheduler) (s : MState) :
  Forall (λ p, 0 ≤ priority p) (original_processes sch) →
  reach m_guard (multilevel_queue_step quantum)
        (m_initial (reset_processes sch)) s →
  (∀ k i, queued (queues s) k i →
     ∃ p, original_processes sch !! i = Some p
          ∧ Z.of_nat k = Z.min (priority p `div` 4) 2)
  ∧ (∃ s', multilevel_queue_step quantum s = inr s')
  ∧ (∀ s' i, multilevel_queue_step quantum s = inr s' →
       written (m_procs s) (m_procs s') i →
       ∃ p k, original_processes sch !! i = Some p
              ∧ Z.of_nat k = Z.min (priority p `div` 4) 2
              ∧ remaining_time (m_procs s' !!! i)
                = remaining_time (m_procs s !!! i)
                  - (if (k =? 0)%nat then remaining_time (m_procs s !!! i)
                     else Z.min quantum (remaining_time (m_procs s !!! i)))
              ∧ (completion_time (m_procs s' !!! i) = None →
                 ∃ q', queues s' !! k = Some (q' ++ [i])))
  ∧ (∀ s2 k k2 i,
       reach m_guard (multilevel_queue_step quantum)
             (m_initial (reset_processes sch)) s2 →
       queued (queues s) k i → queued (queues s2) k2 i → k2 = k).
Proof.
  intros Hpr Hr. pose proof (reach_tiered _ _ _ Hr) as HT.
  assert (Htier : ∀ i p k, original_processes sch !! i = Some p →
            py_index 3 (queue_index_of p) = inr k →
            Z.of_nat k = Z.min (priority p `div` 4) 2).
  { intros i p k Hp Hk. apply (py_index_nonneg _ _ Hk). unfold queue_index_of.
    rewrite Forall_forall in Hpr.
    pose proof (Hpr p (list_elem_of_lookup_2 _ _ _ Hp)).
    assert (0 ≤ priority p `div` 4) by (apply Z.div_pos; lia). lia. }
  split_and!.
  - intros k i Hq.
    destruct (reach_queued_tier _ _ _ _ _ Hr Hq) as (p & Hp & _ & Hk).
    exists p. split; [done|]. by apply (Htier i).
  - destruct (mlq_enqueue_ok s) as [qs Hqs]; [apply (tiered_length _ HT)| |].
    { intros i Hi. rewrite (reach_length _ _ _ Hr) in Hi.
      apply lookup_lt_is_Some_2 in Hi as [p Hp].
      pose proof (reach_static _ _ _ _ _ Hr Hp) as Hf.
      apply (f_equal priority) in Hf. cbn in Hf. rewrite Hf.
      rewrite Forall_forall in Hpr. apply Hpr.
      by eapply list_elem_of_lookup_2. }
    unfold multilevel_queue_step. rewrite Hqs.
    destruct (first_nonempty qs) as [[k [|i q']]|]; [eauto..| |eauto].
    cbn zeta. destruct (_ =? 0); eauto.
  - intros s' i Hs' Hw.
    apply multilevel_queue_step_cases in Hs' as (qs & Hqs & Hcase).
    destruct Hcase as [(_ & _ & ->)|(k & i0 & q' & Hf & Hd & Hs')].
    { by destruct Hw. }
    destruct (mlq_dispatch_queued s k i0 HT Hd)
      as (_ & _ & _ & _ & _ & Hi & Hk).
    apply first_nonempty_Some in Hf as (Hqk & _ & _).
    cbn zeta in Hs'.
    assert (i = i0) as ->.
    { destruct (decide (i = i0)) as [|Hne]; [done|]. exfalso. apply Hw.
      destruct Hs' as [[_ ->]|[_ ->]]; cbn [m_procs];
        by rewrite list_lookup_total_insert_ne. }
    pose proof Hi as Hi'. rewrite (reach_length _ _ _ Hr) in Hi'.
    apply lookup_lt_is_Some_2 in Hi' as [p Hp].
    pose proof (reach_static _ _ _ _ _ Hr Hp) as Hfp.
    apply (f_equal priority) in Hfp. cbn in Hfp.
    exists p, k. split_and!; [done| | |].
    + apply (Htier i0); [done|]. unfold queue_index_of in *. by rewrite <- Hfp.
    + destruct Hs' as [[_ ->]|[_ ->]]; cbn [m_procs];
        rewrite store_lookup_insert, decide_True by done; cbn;
        by rewrite ?set_start_remaining.
    + intros Hc. destruct Hs' as [[_ ->]|[_ ->]]; cbn [m_procs queues] in *.
      * rewrite list_lookup_total_insert_eq in Hc by done. done.
      * exists q'. apply list_lookup_insert_eq. by eapply lookup_lt_Some.
  - intros s2 k k2 i Hr2 Hq Hq2.
    destruct (reach_queued_tier _ _ _ _ _ Hr Hq) as (p & Hp & _ & Hk).
    destruct (reach_queued_tier _ _ _ _ _ Hr2 Hq2) as (p2 & Hp2 & _ & Hk2).
    congruence.
Qed.

Lemma tier_is_fixed_witness :
  Forall (λ p, 0 ≤ priority p)
         (original_processes (Scheduler_init tier_example))
  ∧ reach m_guard (multilevel_queue_step 2)
          (m_initial (reset_processes (Scheduler_init tier_example)))
          tier_example_state
  ∧ (∃ p, tier_example !! 1%nat = Some p
          ∧ Z.of_nat 2 = Z.min (priority p `div` 4) 2)
  ∧ (∃ s', multilevel_queue_step 2 tier_example_state = inr s')
  ∧ (∀ s', multilevel_queue_step 2 tier_example_state = inr s' →
       written (m_procs tier_example_state) (m_procs s') 0 →
       ∃ p k, tier_example !! 0%nat = Some p
              ∧ Z.of_nat k = Z.min (priority p `div` 4) 2
              ∧ remaining_time (m_procs s' !!! 0%nat)
                = 3 - (if (k =? 0)%nat then 3 else Z.min 2 3)
              ∧ (completion_time (m_procs s' !!! 0%nat) = None →
                 ∃ q', queues s' !! k = Some (q' ++ [0%nat]))).
Proof.
  assert (Hpr : Forall (λ p, 0 ≤ priority p)
                  (original_processes (Scheduler_init tier_example))).
  { repeat (apply Forall_cons_2; [cbn; lia|]); apply Forall_nil_2. }
  pose proof (tier_is_fixed 2 (Scheduler_init tier_example) tier_example_state
                Hpr tier_example_reach) as (H1 & H2 & H3 & _).
  split_and!; [exact Hpr|exact tier_example_reach| |exact H2|].
  - apply (H1 2%nat 1%nat). exists [1%nat]. split; [reflexivity|by left].
  - intros s' Hs' Hw. exact (H3 s' 0%nat Hs' Hw).
Defined.

(** ** Start times *)

(** What one iteration of the driver does, case by case. *)
Lemma drive_cases D s s' :
  drive D s = inr s' →
  ∃ qs, d_enqueue D (m_procs s) (m_time s) (m_completed s) (queues s) = inr qs
  ∧ ((first_nonempty qs = None ∧ s' = m_idle s qs)
     ∨ ∃ k q i q',
         first_nonempty qs = Some (k, q)
         ∧ d_order D (m_procs s) q = i :: q'
         ∧ let p := d_run D k (m_time s) (m_procs s !!! i) in
           let t := m_time s + d_slice D k (remaining_time (m_procs s !!! i)) in
           (remaining_time p = 0
            ∧ s' = mkMState (<[i := with_completion p (Some t)]> (m_procs s))
                            t (<[k := q']> qs) (m_completed s ++ [i]))
           ∨ (remaining_time p ≠ 0
              ∧ s' = mkMState (<[i := p]> (m_procs s)) t
                              (<[k := if d_stay D then i :: q' else q' ++ [i]]> qs)
                              (m_completed s))).
Proof.
  unfold drive. destruct (d_enqueue D _ _ _ _) as [?|qs]; [done|].
  intros H. exists qs. split; [done|].
  destruct (first_nonempty qs) as [[k q]|] eqn:Hf.
  - destruct (d_order D (m_procs s) q) as [|i q'] eqn:Ho.
    { pose proof (d_order_length D (m_procs s) q) as Hl. rewrite Ho in Hl.
      apply first_nonempty_Some in Hf as (_ & Hne & _). by destruct q. }
    right. exists k, q, i, q'. split_and!; [done..|]. cbn zeta.
    destruct (_ =? 0) eqn:Hz; injection H as <-.
    + left. split; [by apply Z.eqb_eq|done].
    + right. split; [by apply Z.eqb_neq|done].
  - left. injection H as <-. done.
Qed.

Lemma d_run_start D k t p :
  start_time (d_run D k t p)
  = match start_time p with None => Some t | Some t0 => Some t0 end.
Proof. unfold d_run, set_start. by destruct p as [a b c d e [t0|] f]. Qed.

(** A record that has not run is untouched; one that has run started no
    earlier than it arrived, and the clock accounts for what it has
    run. *)
Definition started_ok (t : Z) (p : Process) : Prop :=
  match start_time p with
  | None => remaining_time p = burst_time p ∧ completion_time p = None
  | Some t0 =>
      arrival_time p ≤ t0
      ∧ t0 + (burst_time p - remaining_time p) ≤ t
      ∧ ∀ c, completion_time p = Some c → t0 + burst_time p ≤ c
  end.

Lemma started_ok_mono t t' p : t ≤ t' → started_ok t p → started_ok t' p.
Proof.
  unfold started_ok. destruct (start_time p); [|done].
  intros Ht (H1 & H2 & H3). split_and!; [done|lia|done].
Qed.

Lemma productive_on_time P s : productive P → PInv P s → on_time s.
Proof.
  intros Hp HI. destruct (inv_phase _ _ _ _ HI) as [?|(F1 & (k & i & Hq) & _)];
    [done|].
  specialize (F1 k i Hq). by rewrite (productive_progresses P k Hp) in F1.
Qed.

Section Started.
Variable P : Policy.
Hypothesis Hprod : productive P.

Definition SInv (s : MState) : Prop :=
  ∀ i, (i < length (m_procs s))%nat → started_ok (m_time s) (m_procs s !!! i).

Lemma drive_sinv s s' :
  PInv P s → SInv s → drive (discipline P) s = inr s' → SInv s'.
Proof.
  intros HI HS (qs & Hqs & Hcase)%drive_cases.
  destruct (enqueue_inv _ _ _ (discipline_tier_lt P) _ _ HI Hqs) as [HQ Hall].
  destruct Hcase as [[_ ->]|(k & q & i & q' & Hf & Ho & Hs')].
  { intros i Hi. eapply started_ok_mono; [|by apply HS]. cbn. lia. }
  apply first_nonempty_Some in Hf as (Hk & _ & _).
  destruct (dispatch_facts _ _ _ _ _ _ _ _ HQ Hk Ho)
    as (Hi & Hc & _ & Hr & _).
  cbn [with_queues m_procs] in Hi, Hc, Hr.
  pose proof (discipline_good_slice P k _ (productive_progresses P k Hprod) Hr)
    as He.
  destruct (productive_on_time P _ Hprod HQ) as [_ Hot].
  pose proof (dispatch_queued (discipline P) (with_queues s qs) k i q q' Hk Ho)
    as Hqi.
  specialize (Hot i Hi Hc (or_introl (ex_intro _ k Hqi))).
  cbn [with_queues m_procs m_time] in Hot.
  destruct (d_run_fields (discipline P) k (m_time s) (m_procs s !!! i))
    as (_ & Ea & Eb & _ & Ec & Er).
  pose proof (d_run_start (discipline P) k (m_time s) (m_procs s !!! i)) as Es.
  pose proof (HS i Hi) as Hold. unfold started_ok in Hold.
  cbn zeta in Hs'.
  assert (Hnew : ∀ c,
            (c = completion_time (m_procs s !!! i)
             ∨ (c = Some (m_time s + d_slice (discipline P) k
                                       (remaining_time (m_procs s !!! i)))
                ∧ remaining_time (d_run (discipline P) k (m_time s)
                                        (m_procs s !!! i)) = 0)) →
            started_ok (m_time s + d_slice (discipline P) k
                                     (remaining_time (m_procs s !!! i)))
              (with_completion (d_run (discipline P) k (m_time s)
                                      (m_procs s !!! i)) c)).
  { intros c Hcc. unfold started_ok. fields. rewrite Es, Ea, Eb, Er.
    destruct (start_time (m_procs s !!! i)) as [t0|].
    - destruct Hold as (H1 & H2 & _). split_and!; [done|lia|].
      intros c' ->. destruct Hcc as [Hcc|[[= ->] Hz]]; [congruence|].
      rewrite Er in Hz. lia.
    - destruct Hold as [H1 _]. split_and!; [lia|lia|].
      intros c' ->. destruct Hcc as [Hcc|[[= ->] Hz]]; [congruence|].
      rewrite Er in Hz. lia. }
  destruct Hs' as [[Hz ->]|[Hz ->]]; intros j Hj;
    cbn [m_procs m_time] in *; rewrite length_insert in Hj;
    rewrite store_lookup_insert by done; case_decide as E.
  - apply Hnew. by right.
  - eapply started_ok_mono; [|by apply HS]. lia.
  - replace (d_run (discipline P) k (m_time s) (m_procs s !!! i))
      with (with_completion (d_run (discipline P) k (m_time s) (m_procs s !!! i))
              (completion_time (m_procs s !!! i))).
    + apply Hnew. by left.
    + rewrite <- Ec. by destruct (d_run _ _ _ _).
  - eapply started_ok_mono; [|by apply HS]. lia.
Qed.

Lemma reach_sinv sch s :
  Forall (λ p, 0 < burst_time p) (original_processes sch) →
  reach m_guard (drive (discipline P)) (start P sch) s →
  PInv P s ∧ SInv s.
Proof.
  intros Hb. induction 1 as [|s s' _ [IH1 IH2] _ Hs].
  - split.
    + apply policy_start_inv. intros p Hp. rewrite Forall_forall in Hb.
      specialize (Hb p Hp). lia.
    + intros i (p & _ & E)%fresh_lookup. cbn [start m_procs]. rewrite E. done.
  - split; [by eapply policy_drive_inv|by eapply drive_sinv].
Qed.
End Started.

Lemma visits_started_ok P sch st p :
  productive P →
  Forall (λ p, 0 < burst_time p) (original_processes sch) →
  visits P sch st → p ∈ st → ∃ t, started_ok t p.
Proof.
  intros Hp Hb (s & Hr & <-)%visits_drive Hin.
  destruct (reach_sinv P Hp sch s Hb Hr) as [_ HS].
  apply list_elem_of_lookup in Hin as [i Hi].
  pose proof (lookup_lt_Some _ _ _ Hi) as Hlt.
  apply list_lookup_total_correct in Hi as <-.
  exists (m_time s). by apply HS.
Qed.

(** X7. With positive burst times and a quantum of at least 1, under every
    policy and at every iteration: a record whose [start_time] is unset
    has not been touched ([remaining_time = burst_time], not completed),
    so every completed record has a [start_time]; a set [start_time] is
    not before the arrival, and a completed record finished no earlier
    than its start plus its burst: the time from arrival to first
    dispatch is at most the [waiting_time]. *)
Theorem start_time_is_sound (P : Policy) (sch : Scheduler)
    (st : list Process) (p : Process) :
  productive P →
  Forall (λ p, 0 < burst_time p) (original_processes sch) →
  visits P sch st → p ∈ st →
  (start_time p = None →
   remaining_time p = burst_time p ∧ completion_time p = None)
  ∧ (∀ t0, start_time p = Some t0 →
       arrival_time p ≤ t0
       ∧ ∀ c, completion_time p = Some c →
              t0 + burst_time p ≤ c
              ∧ ∃ w, waiting_time p = Some w ∧ t0 - arrival_time p ≤ w).
Proof.
  intros Hp Hb Hv Hin.
  destruct (visits_started_ok P sch st p Hp Hb Hv Hin) as [t H].
  unfold started_ok in H. split.
  - intros E. by rewrite E in H.
  - intros t0 E. rewrite E in H. destruct H as (H1 & _ & H3).
    split; [done|]. intros c Hc. split; [by apply H3|].
    unfold waiting_time, turnaround_time. rewrite Hc. eexists. split; [done|].
    specialize (H3 c Hc). lia.
Qed.

Lemma start_time_is_sound_witness :
  productive SJF_preemptive
  ∧ Forall (λ p, 0 < burst_time p)
           (original_processes (Scheduler_init spec_example))
  ∧ visits SJF_preemptive (Scheduler_init spec_example)
      [ mkProcess 0 0 5 1 0 (Some 0) (Some 8);
        mkProcess 1 1 3 2 0 (Some 1) (Some 4) ]
  ∧ (∀ t0, Some 0 = Some t0 →
       0 ≤ t0 ∧ ∀ c, Some 8 = Some c →
                     t0 + 5 ≤ c
                     ∧ ∃ w, waiting_time (mkProcess 0 0 5 1 0 (Some 0) (Some 8))
                            = Some w ∧ t0 - 0 ≤ w).
Proof.
  assert (Hb : Forall (λ p, 0 < burst_time p)
                 (original_processes (Scheduler_init spec_example)))
    by compute_done.
  assert (Hv : visits SJF_preemptive (Scheduler_init spec_example)
      [ mkProcess 0 0 5 1 0 (Some 0) (Some 8);
        mkProcess 1 1 3 2 0 (Some 1) (Some 4) ]).
  { assert (Hrun : run SJF_preemptive 10 (Scheduler_init spec_example)
      = Some (mkScheduler spec_example
                [ mkProcess 0 0 5 1 0 (Some 0) (Some 8);
                  mkProcess 1 1 3 2 0 (Some 1) (Some 4) ],
              inr (mkMetrics (Float (S754_finite false 6192449487634432 (-50)))
                   (Float (S754_finite false 6755399441055744 (-52)))
                   (Float (S754_finite false 4503599627370496 (-54)))
                   (Float (S754_finite false 7036874417766400 (-46))))))
      by reflexivity.
    exact (proj1 (run_visits _ _ _ _ _ Hrun)). }
  split_and!; [exact I|exact Hb|exact Hv|].
  exact (proj2 (start_time_is_sound SJF_preemptive (Scheduler_init spec_example)
                  _ (mkProcess 0 0 5 1 0 (Some 0) (Some 8)) I Hb Hv
                  ltac:(by left))).
Defined.

(** ** Policies that run a process to completion *)

Definition nonpreemptive (P : Policy) : Prop :=
  match P with
  | FCFS | SJF_nonpreemptive | Priority_nonpreemptive => True
  | _ => False
  end.

Lemma nonpreemptive_slice P k r : nonpreemptive P → d_slice (discipline P) k r = r.
Proof. by destruct P. Qed.

Lemma nonpreemptive_productive P : nonpreemptive P → productive P.
Proof. by destruct P. Qed.

Section RunToCompletion.
Variable P : Policy.
Hypothesis Hnp : nonpreemptive P.

(** A record that has started is completed, one burst after its start. *)
Definition NInv (s : MState) : Prop :=
  ∀ i t0, (i < length (m_procs s))%nat →
          start_time (m_procs s !!! i) = Some t0 →
          completion_time (m_procs s !!! i)
          = Some (t0 + burst_time (m_procs s !!! i)).

Lemma drive_ninv s s' :
  PInv P s → SInv s → NInv s → drive (discipline P) s = inr s' → NInv s'.
Proof.
  intros HI HS HN (qs & Hqs & Hcase)%drive_cases.
  destruct (enqueue_inv _ _ _ (discipline_tier_lt P) _ _ HI Hqs) as [HQ _].
  destruct Hcase as [[_ ->]|(k & q & i & q' & Hf & Ho & Hs')]; [done|].
  apply first_nonempty_Some in Hf as (Hk & _ & _).
  destruct (dispatch_facts _ _ _ _ _ _ _ _ HQ Hk Ho) as (Hi & Hc & _).
  cbn [with_queues m_procs] in Hi, Hc.
  assert (Hs0 : start_time (m_procs s !!! i) = None).
  { destruct (start_time _) as [t0|] eqn:E; [|done].
    rewrite (HN i t0 Hi E) in Hc. done. }
  pose proof (HS i Hi) as Hold. unfold started_ok in Hold. rewrite Hs0 in Hold.
  destruct Hold as [Hrem _].
  destruct (d_run_fields (discipline P) k (m_time s) (m_procs s !!! i))
    as (_ & _ & Eb & _ & _ & Er).
  pose proof (d_run_start (discipline P) k (m_time s) (m_procs s !!! i)) as Es.
  rewrite Hs0 in Es. rewrite nonpreemptive_slice in Er by done.
  cbn zeta in Hs'. rewrite nonpreemptive_slice in Hs' by done.
  destruct Hs' as [[_ ->]|[Hz _]]; [|lia].
  intros j t0 Hj. cbn [m_procs] in *. rewrite length_insert in Hj.
  rewrite store_lookup_insert by done. case_decide as E; [|by apply HN].
  fields. rewrite Es, Eb, Hrem. by intros [= <-].
Qed.

Lemma reach_ninv sch s :
  Forall (λ p, 0 < burst_time p) (original_processes sch) →
  reach m_guard (drive (discipline P)) (start P sch) s →
  PInv P s ∧ SInv s ∧ NInv s.
Proof.
  intros Hb. induction 1 as [|s s' _ (IH1 & IH2 & IH3) _ Hs].
  - destruct (reach_sinv P (nonpreemptive_productive P Hnp) sch _ Hb
                (reach_start _ _ _)) as [H1 H2].
    split_and!; [done..|].
    intros i t0 (p & _ & E)%fresh_lookup. cbn [start m_procs]. by rewrite E.
  - split_and!; [by eapply policy_drive_inv
                |by eapply (drive_sinv P (nonpreemptive_productive P Hnp))
                |by eapply drive_ninv].
Qed.
End RunToCompletion.

Lemma visits_run_to_completion P sch st p t0 :
  nonpreemptive P →
  Forall (λ p, 0 < burst_time p) (original_processes sch) →
  visits P sch st → p ∈ st → start_time p = Some t0 →
  completion_time p = Some (t0 + burst_time p) ∧ remaining_time p = 0.
Proof.
  intros Hnp Hb (s & Hr & <-)%visits_drive Hin Hs.
  destruct (reach_ninv P Hnp sch s Hb Hr) as (HI & _ & HN).
  apply list_elem_of_lookup in Hin as [i Hi].
  pose proof (lookup_lt_Some _ _ _ Hi) as Hlt.
  apply list_lookup_total_correct in Hi as <-.
  pose proof (HN i t0 Hlt Hs) as Hc. split; [done|].
  pose proof (inv_record _ _ _ _ HI i Hlt) as Hr'. rewrite Hc in Hr'.
  by destruct Hr'.
Qed.

(** X8. In the three non-preemptive policies (FCFS, SJF and priority), on
    a workload with positive burst times, a process that has been
    dispatched is completed by that very slice: at every iteration a
    record with a [start_time] has
    [completion_time = start_time + burst_time], nothing left to run, and
    [waiting_time = start_time - arrival_time]. *)
Theorem nonpreemptive_runs_to_completion (P : Policy) (sch : Scheduler)
    (st : list Process) (p : Process) (t0 : Z) :
  nonpreemptive P →
  Forall (λ p, 0 < burst_time p) (original_processes sch) →
  visits P sch st → p ∈ st → start_time p = Some t0 →
  completion_time p = Some (t0 + burst_time p)
  ∧ remaining_time p = 0
  ∧ waiting_time p = Some (t0 - arrival_time p).
Proof.
  intros Hnp Hb Hv Hin Hs.
  destruct (visits_run_to_completion P sch st p t0 Hnp Hb Hv Hin Hs) as [Hc Hr].
  split_and!; [done..|]. unfold waiting_time, turnaround_time. rewrite Hc.
  f_equal. lia.
Qed.

Lemma nonpreemptive_runs_to_completion_witness :
  nonpreemptive SJF_nonpreemptive
  ∧ Forall (λ p, 0 < burst_time p)
           (original_processes (Scheduler_init spec_example))
  ∧ visits SJF_nonpreemptive (Scheduler_init spec_example)
      [ mkProcess 0 0 5 1 0 (Some 0) (Some 5);
        mkProcess 1 1 3 2 0 (Some 5) (Some 8) ]
  ∧ completion_time (mkProcess 1 1 3 2 0 (Some 5) (Some 8)) = Some (5 + 3)
  ∧ remaining_time (mkProcess 1 1 3 2 0 (Some 5) (Some 8)) = 0
  ∧ waiting_time (mkProcess 1 1 3 2 0 (Some 5) (Some 8)) = Some (5 - 1).
Proof.
  assert (Hb : Forall (λ p, 0 < burst_time p)
                 (original_processes (Scheduler_init spec_example)))
    by compute_done.
  assert (Hv : visits SJF_nonpreemptive (Scheduler_init spec_example)
      [ mkProcess 0 0 5 1 0 (Some 0) (Some 5);
        mkProcess 1 1 3 2 0 (Some 5) (Some 8) ]).
  { assert (Hrun : run SJF_nonpreemptive 10 (Scheduler_init spec_example)
      = Some (mkScheduler spec_example
                [ mkProcess 0 0 5 1 0 (Some 0) (Some 5);
                  mkProcess 1 1 3 2 0 (Some 5) (Some 8) ],
              inr (mkMetrics (Int 6) (Int 2)
                   (Float (S754_finite false 4503599627370496 (-54)))
                   (Float (S754_finite false 7036874417766400 (-46))))))
      by reflexivity.
    exact (proj1 (run_visits _ _ _ _ _ Hrun)). }
  split_and!; [exact I|exact Hb|exact Hv|..];
    apply (nonpreemptive_runs_to_completion SJF_nonpreemptive
             (Scheduler_init spec_example) _
             (mkProcess 1 1 3 2 0 (Some 5) (Some 8)) 5 I Hb Hv
             ltac:(right; by left) eq_refl).
Defined.

(** ** What one iteration may change *)

Definition iteration_single (step : State → State) (sch : Scheduler)
    (st st' : list Process) : Prop :=
  ∃ s, reach guard (total step) (initial (reset_processes sch)) s
       ∧ guard s = true ∧ procs s = st ∧ procs (step s) = st'.

Definition iteration_multilevel (quantum : Z) (sch : Scheduler)
    (st st' : list Process) : Prop :=
  ∃ s s', reach m_guard (multilevel_queue_step quantum)
                (m_initial (reset_processes sch)) s
          ∧ m_guard s = true ∧ multilevel_queue_step quantum s = inr s'
          ∧ m_procs s = st ∧ m_procs s' = st'.

(** [iteration P sch st st']: some iteration of the loop of method [P],
    called on [sch], finds the records in state [st] and leaves them in
    state [st']. *)
Definition iteration (P : Policy)
    : Scheduler → list Process → list Process → Prop :=
  match P with
  | FCFS => iteration_single fcfs_step
  | SJF_nonpreemptive => iteration_single sjf_nonpreemptive_step
  | SJF_preemptive => iteration_single sjf_preemptive_step
  | Round_robin quantum => iteration_single (round_robin_step quantum)
  | Priority_nonpreemptive => iteration_single priority_nonpreemptive_step
  | Priority_preemptive => iteration_single priority_preemptive_step
  | Multilevel_queue quantum => iteration_multilevel quantum
  end.

Lemma iteration_single_drive P step sch st st' :
  single_step P = Some step →
  iteration_single step sch st st' →
  ∃ s s', reach m_guard (drive (discipline P)) (start P sch) s
          ∧ drive (discipline P) s = inr s'
          ∧ m_procs s = st ∧ m_procs s' = st'.
Proof.
  intros HP (s & Hr & _ & <- & <-).
  destruct (single_step_drive P step HP) as (Hd & _ & Ht).
  exists (lift s), (lift (step s)).
  split_and!; [|apply Hd|done..].
  unfold start. rewrite Ht. exact (reach_lift _ _ _ _ Hd Hr).
Qed.

Lemma iteration_drive P sch st st' :
  iteration P sch st st' →
  ∃ s s', reach m_guard (drive (discipline P)) (start P sch) s
          ∧ drive (discipline P) s = inr s'
          ∧ m_procs s = st ∧ m_procs s' = st'.
Proof.
  destruct P; cbn [iteration];
    try (apply iteration_single_drive; reflexivity).
  intros (s & s' & Hr & _ & Hs & <- & <-). exists s, s'.
  split_and!; [|cbn [discipline];
                 by rewrite <- multilevel_queue_step_drive|done..].
  eapply reach_ext; [apply multilevel_queue_step_drive|done].
Qed.

(** X9. On a workload with positive burst times, one iteration of any
    policy loop writes at most one record and keeps the number of
    records; it never changes a [start_time] that is set, it does not
    touch a completed record at all, and, when the quantum is at least 1,
    it does not increase a [remaining_time], which stays non-negative. *)
Theorem iteration_is_conservative (P : Policy) (sch : Scheduler)
    (st st' : list Process) :
  Forall (λ p, 0 < burst_time p) (original_processes sch) →
  iteration P sch st st' →
  length st' = length st
  ∧ (∃ i, ∀ j, j ≠ i → st' !!! j = st !!! j)
  ∧ ∀ i, (i < length st)%nat →
      (∀ t0, start_time (st !!! i) = Some t0 → start_time (st' !!! i) = Some t0)
      ∧ (∀ c, completion_time (st !!! i) = Some c → st' !!! i = st !!! i)
      ∧ (productive P →
         0 ≤ remaining_time (st' !!! i) ≤ remaining_time (st !!! i)).
Proof.
  intros Hb (s & s' & Hr & Hs & <- & <-)%iteration_drive.
  assert (HI : PInv P s).
  { assert (H0 : PInv P (start P sch)).
    { apply policy_start_inv. intros p Hp. rewrite Forall_forall in Hb.
      specialize (Hb p Hp). lia. }
    clear Hs. induction Hr; [done|]. eapply policy_drive_inv; eauto. }
  assert (Hrem : ∀ i, (i < length (m_procs s))%nat →
                      0 ≤ remaining_time (m_procs s !!! i)).
  { intros i Hi. pose proof (inv_record _ _ _ _ HI i Hi) as H.
    destruct (completion_time _); lia. }
  destruct (drive_cases _ _ _ Hs) as (qs & Hqs & Hcase).
  destruct (enqueue_inv _ _ _ (discipline_tier_lt P) _ _ HI Hqs) as [HQ _].
  destruct Hcase as [[_ ->]|(k & q & i & q' & Hf & Ho & Hs')].
  { cbn. split_and!; [done|by exists O|]. intros i Hi.
    split_and!; [done..|]. intros _. specialize (Hrem i Hi). lia. }
  apply first_nonempty_Some in Hf as (Hk & _ & _).
  destruct (dispatch_facts _ _ _ _ _ _ _ _ HQ Hk Ho) as (Hi & Hc & _ & Hr0 & _).
  cbn [with_queues m_procs] in Hi, Hc, Hr0.
  destruct (d_run_fields (discipline P) k (m_time s) (m_procs s !!! i))
    as (_ & _ & _ & _ & _ & Er).
  pose proof (d_run_start (discipline P) k (m_time s) (m_procs s !!! i)) as Es.
  cbn zeta in Hs'.
  assert (Hgoal : ∀ x,
    start_time x = start_time (d_run (discipline P) k (m_time s)
                                     (m_procs s !!! i)) →
    remaining_time x = remaining_time (d_run (discipline P) k (m_time s)
                                             (m_procs s !!! i)) →
    length (<[i := x]> (m_procs s)) = length (m_procs s)
    ∧ (∃ i0, ∀ j, j ≠ i0 → <[i := x]> (m_procs s) !!! j = m_procs s !!! j)
    ∧ ∀ j, (j < length (m_procs s))%nat →
        (∀ t0, start_time (m_procs s !!! j) = Some t0 →
               start_time (<[i := x]> (m_procs s) !!! j) = Some t0)
        ∧ (∀ c, completion_time (m_procs s !!! j) = Some c →
                <[i := x]> (m_procs s) !!! j = m_procs s !!! j)
        ∧ (productive P →
           0 ≤ remaining_time (<[i := x]> (m_procs s) !!! j)
           ≤ remaining_time (m_procs s !!! j))).
  { intros x Hxs Hxr. split_and!.
    - apply length_insert.
    - exists i. intros j Hj. by apply list_lookup_total_insert_ne.
    - intros j Hj. rewrite store_lookup_insert by done.
      case_decide as E; [subst j|].
      + split_and!.
        * intros t0 Ht0. by rewrite Hxs, Es, Ht0.
        * intros c Hcc. congruence.
        * intros Hp. rewrite Hxr, Er.
          pose proof (discipline_good_slice P k _
                        (productive_progresses P k Hp) Hr0). lia.
      + split_and!; [done..|]. intros _. specialize (Hrem j Hj). lia. }
  destruct Hs' as [[_ ->]|[_ ->]]; cbn [m_procs]; by apply Hgoal.
Qed.

Lemma iteration_is_conservative_witness :
  Forall (λ p, 0 < burst_time p)
         (original_processes (Scheduler_init spec_example))
  ∧ iteration SJF_preemptive (Scheduler_init spec_example)
      (procs sjf_example_state)
      [ mkProcess 0 0 5 1 4 (Some 0) None; mkProcess 1 1 3 2 2 (Some 1) None ]
  ∧ length [ mkProcess 0 0 5 1 4 (Some 0) None;
             mkProcess 1 1 3 2 2 (Some 1) None ]
    = length (procs sjf_example_state).
Proof.
  assert (Hb : Forall (λ p, 0 < burst_time p)
                 (original_processes (Scheduler_init spec_example)))
    by compute_done.
  assert (Hi : iteration SJF_preemptive (Scheduler_init spec_example)
      (procs sjf_example_state)
      [ mkProcess 0 0 5 1 4 (Some 0) None; mkProcess 1 1 3 2 2 (Some 1) None ]).
  { exists sjf_example_state.
    split_and!; [exact sjf_example_reach|reflexivity..]. }
  split_and!; [exact Hb|exact Hi|].
  exact (proj1 (iteration_is_conservative SJF_preemptive
                  (Scheduler_init spec_example) _ _ Hb Hi)).
Defined.

(** ** The range of the metrics *)

Lemma truediv_sign a b f :
  0 ≤ a → 0 < b → truediv a b = inr f → float_sign f false.
Proof.
  intros Ha Hb. unfold truediv.
  destruct (Z.eqb_spec b 0); [lia|].
  destruct (Z.ltb_spec a 0), (Z.ltb_spec b 0); try lia. cbn [xorb].
  pose proof (round_double_sign false (Z.abs a) (Z.abs b)) as Hs.
  destruct (round_double _ _ _); try done; by intros [= <-].
Qed.

Lemma float_mul_hundred_sign f :
  float_sign f false → float_sign (float_mul f hundred) false.
Proof.
  destruct f as [s|s| |s m e]; cbn [float_sign]; try done.
  - by intros ->.
  - by intros ->.
  - intros ->. apply round_double_sign.
Qed.

Lemma mean_not_negative xs x :
  0 ≤ sumZ xs → mean xs = inr x → not_negative x.
Proof.
  intros Hs. destruct xs as [|y xs]; [done|]. unfold mean.
  assert (Hn : 0 < Z.of_nat (length (y :: xs))) by (cbn [length]; lia).
  destruct (_ =? 0).
  - intros [= <-]. cbn. by apply Z.div_pos.
  - destruct (truediv _ _) as [|f] eqn:E; [done|]. intros [= <-]. cbn.
    by eapply truediv_sign.
Qed.

Lemma round_half_even_ge n d : 0 < d → d ≤ n → 1 ≤ round_half_even n d.
Proof.
  intros Hd Hn. unfold round_half_even.
  assert (1 ≤ n `div` d) by (apply Z.div_le_lower_bound; lia).
  destruct (_ ?= _); [destruct (Z.even _)| |]; lia.
Qed.

Lemma scaled_ge n d e :
  0 < n → 0 < d → e ≤ Z.log2 n - Z.log2 d - 52 →
  d * 2 ^ Z.max 0 e ≤ n * 2 ^ Z.max 0 (- e).
Proof.
  intros Hn Hd He.
  pose proof (Z.log2_spec n Hn) as [Hn1 _].
  pose proof (Z.log2_spec d Hd) as [_ Hd2].
  pose proof (Z.log2_nonneg n). pose proof (Z.log2_nonneg d).
  destruct (Z.le_gt_cases 0 e) as [He0|He0].
  - rewrite (Z.max_r 0 e), (Z.max_l 0 (- e)) by lia.
    rewrite Z.pow_0_r, Z.mul_1_r.
    assert (2 ^ Z.succ (Z.log2 d) * 2 ^ e ≤ 2 ^ Z.log2 n).
    { rewrite <- Z.pow_add_r by lia. apply Z.pow_le_mono_r; lia. }
    assert (0 < 2 ^ e) by (apply Z.pow_pos_nonneg; lia). nia.
  - rewrite (Z.max_l 0 e), (Z.max_r 0 (- e)) by lia.
    rewrite Z.pow_0_r, Z.mul_1_r.
    assert (2 ^ Z.succ (Z.log2 d) ≤ 2 ^ Z.log2 n * 2 ^ (- e)).
    { rewrite <- Z.pow_add_r by lia. apply Z.pow_le_mono_r; lia. }
    assert (0 < 2 ^ (- e)) by (apply Z.pow_pos_nonneg; lia). nia.
Qed.

(** No quotient from [2 ^ -1074] on is rounded to zero. *)
Lemma round_double_positive n d :
  0 < n → 0 < d → d ≤ n * 2 ^ 1074 →
  above_least (round_double false n d).
Proof.
  intros Hn Hd Hle.
  pose proof (binade_bounds n d Hn Hd) as Hb.
  assert (Hs : d * 2 ^ Z.max 0 (binade n d)
               ≤ n * 2 ^ Z.max 0 (- binade n d)).
  { destruct (decide (binade n d ≤ Z.log2 n - Z.log2 d - 52)) as [H|H].
    - by apply scaled_ge.
    - replace (binade n d) with (-1074) by lia.
      change (Z.max 0 (-1074)) with 0. change (Z.max 0 (- -1074)) with 1074.
      lia. }
  unfold round_double, scaled.
  set (e := binade n d) in *.
  assert (Hd' : 0 < d * 2 ^ Z.max 0 e).
  { apply Z.mul_pos_pos; [done|]. apply Z.pow_pos_nonneg; lia. }
  pose proof (round_half_even_ge _ _ Hd' Hs) as Hm.
  set (m := round_half_even _ _) in *.
  destruct (Z.eqb_spec m 0); [lia|].
  assert (Hgen : ∀ m' e', 0 < m' → -1074 ≤ e' →
            above_least (if e' <=? 971 then S754_finite false (Z.to_pos m') e'
                         else S754_infinity false)).
  { intros m' e' Hm' He'. destruct (e' <=? 971); [|done].
    unfold above_least, numerator, denominator. rewrite Z2Pos.id by done.
    assert (0 < 2 ^ Z.max 0 e') by (apply Z.pow_pos_nonneg; lia).
    assert (2 ^ Z.max 0 (- e') ≤ 2 ^ 1074) by (apply Z.pow_le_mono_r; lia).
    nia. }
  destruct (Z.eqb_spec m (2 ^ 53)); apply Hgen; lia.
Qed.

Lemma truediv_positive a b f :
  0 < a → 0 < b → b ≤ a * 2 ^ 1074 → truediv a b = inr f → above_least f.
Proof.
  intros Ha Hb Hle. unfold truediv.
  destruct (Z.eqb_spec b 0); [lia|].
  destruct (Z.ltb_spec a 0), (Z.ltb_spec b 0); try lia. cbn [xorb].
  rewrite !Z.abs_eq by lia.
  pose proof (round_double_positive a b Ha Hb Hle) as H1.
  destruct (round_double false a b); try done; by intros [= <-].
Qed.

Lemma above_least_positive f : above_least f → float_positive f.
Proof. by destruct f as [| | |[]]. Qed.

Lemma float_mul_hundred_positive f :
  above_least f → above_least (float_mul f hundred).
Proof.
  destruct f as [s|[]| |[] m e]; try done.
  intros Hf. cbn [float_mul hundred xorb]. cbn [above_least] in Hf.
  assert (Hd : 0 < denominator e) by (apply Z.pow_pos_nonneg; lia).
  assert (Hn : 0 < numerator m e).
  { apply Z.mul_pos_pos; [done|]. apply Z.pow_pos_nonneg; lia. }
  change (numerator 7036874417766400 (-46)) with 7036874417766400.
  change (denominator (-46)) with 70368744177664.
  apply round_double_positive; [lia|lia|].
  assert (0 < 2 ^ 1074) by done. nia.
Qed.

Lemma mean_positive xs x :
  Z.of_nat (length xs) ≤ sumZ xs → mean xs = inr x → positive x.
Proof.
  intros Hs. destruct xs as [|y xs]; [done|]. unfold mean.
  assert (Hn : 0 < Z.of_nat (length (y :: xs))) by (cbn [length]; lia).
  destruct (_ =? 0).
  - intros [= <-].
    change (0 < sumZ (y :: xs) `div` Z.of_nat (length (y :: xs))).
    assert (1 ≤ sumZ (y :: xs) `div` Z.of_nat (length (y :: xs))); [|lia].
    apply Z.div_le_lower_bound; lia.
  - destruct (truediv _ _) as [|f] eqn:E; [done|]. intros [= <-].
    cbn [positive].
    eapply above_least_positive, truediv_positive; [| |
      |exact E]; [lia|lia|].
    assert (0 < 2 ^ 1074) by done. nia.
Qed.

(** What [get_metrics] returns when some record is completed. *)
Lemma get_metrics_value sch m :
  get_metrics sch = inr m →
  completed_records (processes sch) ≠ [] →
  ∃ c cs att awt thr u,
    completion_times (completed_records (processes sch)) = c :: cs
    ∧ mean (omap turnaround_time (completed_records (processes sch)))
      = inr att
    ∧ mean (omap waiting_time (completed_records (processes sch))) = inr awt
    ∧ truediv (Z.of_nat (length (completed_records (processes sch))))
              (py_max c cs) = inr thr
    ∧ truediv (sumZ (map burst_time (completed_records (processes sch))))
              (py_max c cs) = inr u
    ∧ m = mkMetrics att awt (Float thr) (Float (float_mul u hundred)).
Proof.
  unfold get_metrics.
  destruct (completed_records (processes sch)) as [|p l] eqn:E; [done|].
  intros H _. destruct (completion_times_cons _ _ _ E) as (c & _ & Hc).
  rewrite E in Hc. rewrite Hc in H |- *. exists c, (completion_times l).
  destruct (mean _) as [|att]; [done|].
  destruct (mean (omap waiting_time _)) as [|awt]; [done|].
  destruct (truediv (Z.of_nat _) _) as [|thr]; [done|].
  destruct (truediv (sumZ _) _) as [|u]; [done|].
  injection H as <-. by exists att, awt, thr, u.
Qed.

(** A completed record of a run. *)
Definition finished (p : Process) : Prop :=
  ∃ c, completion_time p = Some c
       ∧ arrival_time p + burst_time p ≤ c ∧ 1 ≤ burst_time p.

Lemma finished_sums l :
  Forall finished l →
  length (omap waiting_time l) = length l
  ∧ length (omap turnaround_time l) = length l
  ∧ 0 ≤ sumZ (omap waiting_time l)
  ∧ sumZ (omap waiting_time l) ≤ sumZ (omap turnaround_time l)
  ∧ Z.of_nat (length l) ≤ sumZ (map burst_time l).
Proof.
  induction 1 as [|p l (c & Hc & Hle & Hb) _ IH]; [done|].
  destruct IH as (I1 & I2 & I3 & I4 & I5).
  rewrite (omap_waiting_cons p l c Hc), (omap_turnaround_cons p l c Hc).
  cbn [length map]. unfold sumZ in *. cbn [foldr].
  split_and!; lia.
Qed.

Lemma finished_burst_sum l :
  Forall finished l →
  sumZ (map burst_time l) ≤ sumZ (omap turnaround_time l).
Proof.
  induction 1 as [|p l (c & Hc & Hle & Hb) _ IH]; [done|].
  rewrite (omap_turnaround_cons p l c Hc).
  cbn [map]. unfold sumZ in *. cbn [foldr]. lia.
Qed.

Lemma visits_finished P sch st :
  Forall (λ p, 0 < burst_time p) (original_processes sch) →
  visits P sch st → Forall finished (completed_records st).
Proof.
  intros Hb Hv. apply Forall_forall. intros p Hp.
  apply list_elem_of_In, filter_In in Hp as [Hp [c Hc]%is_completed_Some].
  apply list_elem_of_In in Hp.
  destruct (visits_record P sch st p) as [Hr Hbp]; [|done..|].
  { intros q Hq. rewrite Forall_forall in Hb. specialize (Hb q Hq). lia. }
  rewrite Hc in Hr. exists c. split_and!; [done|lia|done].
Qed.

Lemma run_metrics P fuel sch sch' m :
  run P fuel sch = Some (sch', inr m) → get_metrics sch' = inr m.
Proof.
  rewrite run_drive. unfold conclude.
  destruct (outcome _) as [[st [e|]]|]; [done| |done].
  by intros [= <- ->].
Qed.

(** X10. Whenever a policy method returns metrics for a workload with
    positive burst times (whatever the quantum), none of the four numbers
    is negative: each is an [int] from 0 on or a [float] with a clear
    sign bit that is not a NaN.  When some record is completed, the
    average turnaround time is above zero, and so are the throughput and
    the CPU utilization as long as the largest completion time is at
    most [2 ^ 1074]; beyond that the quotients can be rounded to 0.0. *)
Theorem metrics_are_not_negative (P : Policy) (fuel : nat)
    (sch sch' : Scheduler) (m : Metrics) :
  Forall (λ p, 0 < burst_time p) (original_processes sch) →
  run P fuel sch = Some (sch', inr m) →
  (not_negative (avg_turnaround_time m)
   ∧ not_negative (avg_waiting_time m)
   ∧ not_negative (throughput m)
   ∧ not_negative (cpu_utilization m))
  ∧ (completed_records (processes sch') ≠ [] →
     positive (avg_turnaround_time m)
     ∧ ∀ c cs,
         completion_times (completed_records (processes sch')) = c :: cs →
         py_max c cs ≤ 2 ^ 1074 →
         positive (throughput m) ∧ positive (cpu_utilization m)).
Proof.
  intros Hb Hrun.
  destruct (run_visits _ _ _ _ _ Hrun) as [Hv Ho].
  pose proof (run_metrics _ _ _ _ _ Hrun) as Hm.
  destruct (decide (completed_records (processes sch') = [])) as [He|Hne].
  { unfold get_metrics in Hm. rewrite He in Hm. injection Hm as <-.
    split; [cbn; lia|done]. }
  pose proof (finished_sums _ (visits_finished P sch _ Hb Hv))
    as (L1 & L2 & S1 & S2 & S3).
  pose proof (finished_burst_sum _ (visits_finished P sch _ Hb Hv)) as S4.
  destruct (visits_divisor_positive P sch (processes sch')) as
    (c & cs & Hct & Hpos); [|done..|].
  { eapply Forall_impl; [exact Hb|]. cbn. intros; lia. }
  destruct (get_metrics_value sch' m Hm Hne)
    as (c' & cs' & att & awt & thr & u & Hct' & Hatt & Hawt & Hthr & Hu & ->).
  rewrite Hct in Hct'. injection Hct' as <- <-.
  assert (Hlen : (0 < length (completed_records (processes sch')))%nat).
  { destruct (completed_records (processes sch')); [done|cbn; lia]. }
  cbn [avg_waiting_time avg_turnaround_time throughput cpu_utilization].
  split; [split_and!|].
  - eapply mean_not_negative; [|exact Hatt]. lia.
  - eapply mean_not_negative; [|exact Hawt]. lia.
  - cbn. eapply truediv_sign; [|exact Hpos|exact Hthr]. lia.
  - cbn. apply float_mul_hundred_sign.
    eapply truediv_sign; [|exact Hpos|exact Hu]. lia.
  - intros _. split.
    { eapply mean_positive; [|exact Hatt]. rewrite L2. lia. }
    intros c' cs' Hc' Hmax. rewrite Hct in Hc'. injection Hc' as <- <-.
    assert (H1074 : 0 < 2 ^ 1074) by done. cbn [positive]. split.
    + eapply above_least_positive, truediv_positive;
        [| |
         |exact Hthr]; [lia|done|nia].
    + eapply above_least_positive, float_mul_hundred_positive,
        truediv_positive; [| |
         |exact Hu]; [lia|done|nia].
Qed.

Lemma metrics_are_not_negative_witness :
  Forall (λ p, 0 < burst_time p)
         (original_processes (Scheduler_init spec_example))
  ∧ run (Round_robin 2) 10 (Scheduler_init spec_example)
    = Some (mkScheduler spec_example
              [ mkProcess 0 0 5 1 0 (Some 0) (Some 7);
                mkProcess 1 1 3 2 0 (Some 4) (Some 8) ],
            inr (mkMetrics (Int 7) (Int 3)
                   (Float (S754_finite false 4503599627370496 (-54)))
                   (Float (S754_finite false 7036874417766400 (-46)))))
  ∧ not_negative (Int 7) ∧ not_negative (Int 3)
  ∧ not_negative (Float (S754_finite false 4503599627370496 (-54)))
  ∧ not_negative (Float (S754_finite false 7036874417766400 (-46))).
Proof.
  assert (Hb : Forall (λ p, 0 < burst_time p)
                 (original_processes (Scheduler_init spec_example)))
    by compute_done.
  assert (Hr : run (Round_robin 2) 10 (Scheduler_init spec_example)
    = Some (mkScheduler spec_example
              [ mkProcess 0 0 5 1 0 (Some 0) (Some 7);
                mkProcess 1 1 3 2 0 (Some 4) (Some 8) ],
            inr (mkMetrics (Int 7) (Int 3)
                   (Float (S754_finite false 4503599627370496 (-54)))
                   (Float (S754_finite false 7036874417766400 (-46))))))
    by reflexivity.
  split; [exact Hb|]. split; [exact Hr|].
  exact (proj1 (metrics_are_not_negative (Round_robin 2) 10 _ _ _ Hb Hr)).
Defined.

(** One process with a burst of [10 ^ 400] ticks: the throughput is
    rounded to 0.0. *)
Lemma throughput_underflow :
  fcfs 2 (Scheduler_init [ mkProcess 0 0 (10 ^ 400) 0 0 None None ])
  = Some (mkScheduler [ mkProcess 0 0 (10 ^ 400) 0 0 None None ]
            [ mkProcess 0 0 (10 ^ 400) 0 0 (Some 0) (Some (10 ^ 400)) ],
          inr (mkMetrics (Int (10 ^ 400)) (Int 0) (Float (S754_zero false))
                         (Float hundred))).
Proof. by vm_compute. Qed.

(** ** The processor does one tick of work per tick *)

Definition work_done (st : list Process) : Z :=
  sumZ (map (λ p, burst_time p - remaining_time p) st).

Definition completed_burst (st : list Process) : Z :=
  sumZ (map burst_time (completed_records st)).

Definition finish_of (p : Process) : Z := default 0 (completion_time p).

(** The latest completion so far, 0 when there is none. *)
Definition latest (st : list Process) : Z := foldr Z.max 0 (map finish_of st).

Lemma completed_burst_alt st :
  completed_burst st
  = sumZ (map (λ p, if is_completed p then burst_time p else 0) st).
Proof.
  unfold completed_burst, completed_records, sumZ.
  induction st as [|p st IH]; [done|]. cbn.
  destruct (is_completed p); cbn; lia.
Qed.

Lemma sumZ_le (f g : Process → Z) st :
  (∀ i, (i < length st)%nat → f (st !!! i) ≤ g (st !!! i)) →
  sumZ (map f st) ≤ sumZ (map g st).
Proof.
  unfold sumZ. induction st as [|p st IH]; intros H; cbn; [done|].
  pose proof (H O ltac:(cbn; lia)) as H0. cbn in H0.
  assert (foldr Z.add 0 (map f st) ≤ foldr Z.add 0 (map g st)); [|lia].
  apply IH. intros i Hi. apply (H (S i)). cbn. lia.
Qed.

Lemma latest_nonneg st : 0 ≤ latest st.
Proof. unfold latest. induction st; cbn; lia. Qed.

Lemma latest_insert st i x :
  (i < length st)%nat → finish_of (st !!! i) ≤ finish_of x →
  latest st ≤ latest (<[i := x]> st) ∧ finish_of x ≤ latest (<[i := x]> st).
Proof.
  unfold latest. revert i. induction st as [|p st IH]; intros i Hi Hx.
  { cbn in Hi. lia. }
  destruct i as [|i]; cbn [length] in Hi.
  - change (finish_of p ≤ finish_of x) in Hx.
    change (<[0%nat := x]> (p :: st)) with (x :: st).
    cbn [map foldr]. lia.
  - change (finish_of (st !!! i) ≤ finish_of x) in Hx.
    change (<[S i := x]> (p :: st)) with (p :: <[i := x]> st).
    cbn [map foldr]. destruct (IH i ltac:(lia) Hx). lia.
Qed.

Lemma latest_bound st B :
  0 ≤ B → (∀ p, p ∈ st → finish_of p ≤ B) → latest st ≤ B.
Proof.
  unfold latest. intros HB. induction st as [|p st IH]; intros H; cbn; [done|].
  pose proof (H p ltac:(by left)).
  assert (foldr Z.max 0 (map finish_of st) ≤ B); [|lia].
  apply IH. intros q Hq. apply H. by right.
Qed.

Lemma work_done_fresh ps : work_done (map fresh ps) = 0.
Proof.
  unfold work_done, sumZ. induction ps as [|p ps IH]; [done|].
  cbn [map foldr]. rewrite IH. cbn [fresh burst_time remaining_time]. lia.
Qed.

Section Utilization.
Variable P : Policy.
Hypothesis Hprod : productive P.

(** No record has more left than its burst, the work done fits in the
    time elapsed, and the bursts of the completed records fit before the
    latest completion. *)
Definition UInv (s : MState) : Prop :=
  (∀ i, (i < length (m_procs s))%nat →
        remaining_time (m_procs s !!! i) ≤ burst_time (m_procs s !!! i))
  ∧ work_done (m_procs s) ≤ m_time s
  ∧ completed_burst (m_procs s) ≤ latest (m_procs s).

Lemma completed_within_work s :
  PInv P s →
  (∀ i, (i < length (m_procs s))%nat →
        remaining_time (m_procs s !!! i) ≤ burst_time (m_procs s !!! i)) →
  completed_burst (m_procs s) ≤ work_done (m_procs s).
Proof.
  intros HI Hle. rewrite completed_burst_alt. apply sumZ_le. intros i Hi.
  pose proof (inv_record _ _ _ _ HI i Hi) as Hr. specialize (Hle i Hi).
  unfold is_completed. destruct (completion_time _); lia.
Qed.

Lemma drive_uinv s s' :
  PInv P s → UInv s → drive (discipline P) s = inr s' → UInv s'.
Proof.
  intros HI (U1 & U2 & U3) Hs.
  pose proof (policy_drive_inv P s s' HI Hs) as HI'.
  destruct (drive_cases _ _ _ Hs) as (qs & Hqs & Hcase).
  destruct (enqueue_inv _ _ _ (discipline_tier_lt P) _ _ HI Hqs) as [HQ _].
  destruct Hcase as [[_ ->]|(k & q & i & q' & Hf & Ho & Hs')].
  { unfold UInv, m_idle. cbn [m_procs m_time]. split_and!; [done|lia|done]. }
  apply first_nonempty_Some in Hf as (Hk & _ & _).
  destruct (dispatch_facts _ _ _ _ _ _ _ _ HQ Hk Ho) as (Hi & Hc & _ & Hr0 & _).
  cbn [with_queues m_procs] in Hi, Hc, Hr0.
  pose proof (discipline_good_slice P k _ (productive_progresses P k Hprod) Hr0)
    as He.
  destruct (d_run_fields (discipline P) k (m_time s) (m_procs s !!! i))
    as (_ & _ & Eb & _ & Ec & Er).
  cbn zeta in Hs'.
  assert (Hcommon : ∀ x,
    burst_time x = burst_time (m_procs s !!! i) →
    remaining_time x = remaining_time (m_procs s !!! i)
                       - d_slice (discipline P) k
                           (remaining_time (m_procs s !!! i)) →
    (∀ j, (j < length (<[i := x]> (m_procs s)))%nat →
          remaining_time (<[i := x]> (m_procs s) !!! j)
          ≤ burst_time (<[i := x]> (m_procs s) !!! j))
    ∧ work_done (<[i := x]> (m_procs s))
      ≤ m_time s + d_slice (discipline P) k (remaining_time (m_procs s !!! i))).
  { intros x Hxb Hxr. split.
    - intros j Hj. rewrite length_insert in Hj.
      rewrite store_lookup_insert by done. case_decide; [|by apply U1].
      specialize (U1 i Hi). lia.
    - unfold work_done in *. rewrite sumZ_insert by done. lia. }
  destruct Hs' as [[Hz ->]|[Hz ->]].
  - destruct (Hcommon (with_completion (d_run (discipline P) k (m_time s)
                                              (m_procs s !!! i))
                         (Some (m_time s + d_slice (discipline P) k
                                  (remaining_time (m_procs s !!! i))))))
      as [C1 C2]; [by fields..|].
    pose proof (completed_within_work _ HI' C1) as W.
    split_and!; cbn [m_procs m_time] in *; [done..|].
    etrans; [exact W|]. etrans; [exact C2|].
    match goal with |- _ ≤ latest (<[i := ?x]> _) =>
      destruct (latest_insert (m_procs s) i x Hi) as [_ L] end.
    { assert (0 ≤ work_done (m_procs s)).
      { apply sumZ_nonneg. intros j Hj. specialize (U1 j Hj). lia. }
      unfold finish_of. rewrite Hc. cbn. lia. }
    exact L.
  - destruct (Hcommon (d_run (discipline P) k (m_time s) (m_procs s !!! i)))
      as [C1 C2]; [done..|].
    split_and!; cbn [m_procs m_time] in *; [done..|].
    match goal with |- _ ≤ latest (<[i := ?x]> _) =>
      destruct (latest_insert (m_procs s) i x Hi) as [L _] end.
    { unfold finish_of. by rewrite Ec. }
    etrans; [|exact L]. etrans; [|exact U3]. rewrite !completed_burst_alt.
    rewrite sumZ_insert by done. unfold is_completed. rewrite Ec, Hc. lia.
Qed.

Lemma reach_uinv sch s :
  Forall (λ p, 0 < burst_time p) (original_processes sch) →
  reach m_guard (drive (discipline P)) (start P sch) s →
  PInv P s ∧ UInv s.
Proof.
  intros Hb. induction 1 as [|s s' _ [IH1 IH2] _ Hs].
  - assert (H0 : PInv P (start P sch)).
    { apply policy_start_inv. intros p Hp. rewrite Forall_forall in Hb.
      specialize (Hb p Hp). lia. }
    split; [done|]. split_and!.
    + intros i (p & _ & E)%fresh_lookup. cbn [start m_procs]. rewrite E. done.
    + cbn [start m_procs m_time]. by rewrite work_done_fresh.
    + etrans; [|apply latest_nonneg]. cbn [start m_procs].
      unfold completed_burst.
      rewrite completed_records_none; [done|].
      intros p (q & -> & _)%list_elem_of_fmap. done.
  - split; [by eapply policy_drive_inv|by eapply drive_uinv].
Qed.
End Utilization.

Lemma visits_busy P sch st c cs :
  productive P →
  Forall (λ p, 0 < burst_time p) (original_processes sch) →
  visits P sch st →
  completion_times (completed_records st) = c :: cs →
  completed_burst st ≤ py_max c cs.
Proof.
  intros Hp Hb Hv Hct.
  destruct (visits_divisor_positive P sch st) as (c' & cs' & Hct' & Hpos).
  { eapply Forall_impl; [exact Hb|]. cbn. intros; lia. }
  { done. }
  { intros E. by rewrite E in Hct. }
  rewrite Hct in Hct'. injection Hct' as <- <-.
  apply visits_drive in Hv as (s & Hr & <-).
  destruct (reach_uinv P Hp sch s Hb Hr) as (_ & _ & _ & U3).
  etrans; [exact U3|]. apply latest_bound; [lia|].
  intros p Hin. unfold finish_of.
  destruct (completion_time p) as [c0|] eqn:E; cbn; [|lia].
  assert (Hc0 : c0 ∈ completion_times (completed_records (m_procs s))).
  { unfold completion_times. apply list_elem_of_omap. exists p.
    split; [|done]. apply list_elem_of_In, filter_In.
    split; [by apply list_elem_of_In|]. unfold is_completed. by rewrite E. }
  rewrite Hct in Hc0. apply elem_of_cons in Hc0 as [->|Hc0].
  - apply py_max_ge.
  - by apply py_max_foldl.
Qed.

(** X11. With positive burst times and a quantum of at least 1, under
    every policy, the burst times of the completed records add up to at
    most the largest completion time: the simulated processor never does
    more than one tick of work per tick.  So the metrics a method returns
    have a throughput of at most 1 process per tick and a CPU utilization
    of at most 100. *)
Theorem utilization_is_at_most_100 (P : Policy) (fuel : nat)
    (sch sch' : Scheduler) (m : Metrics) :
  productive P →
  Forall (λ p, 0 < burst_time p) (original_processes sch) →
  run P fuel sch = Some (sch', inr m) →
  completed_records (processes sch') ≠ [] →
  (∃ c cs, completion_times (completed_records (processes sch')) = c :: cs
           ∧ sumZ (map burst_time (completed_records (processes sch')))
             ≤ py_max c cs)
  ∧ number_le_Z (throughput m) 1
  ∧ number_le_Z (cpu_utilization m) 100.
Proof.
  intros Hp Hb Hrun Hne.
  destruct (run_visits _ _ _ _ _ Hrun) as [Hv Ho].
  destruct (get_metrics_value sch' m (run_metrics _ _ _ _ _ Hrun) Hne)
    as (c & cs & att & awt & thr & u & Hct & _ & _ & Hthr & Hu & ->).
  pose proof (visits_busy P sch _ c cs Hp Hb Hv Hct) as Hbusy.
  unfold completed_burst in Hbusy.
  pose proof (finished_sums _ (visits_finished P sch _ Hb Hv))
    as (_ & _ & _ & _ & S3).
  assert (Hlen : (0 < length (completed_records (processes sch')))%nat).
  { destruct (completed_records (processes sch')); [done|cbn; lia]. }
  split_and!; [by exists c, cs|..];
    cbn [throughput cpu_utilization number_le_Z].
  - pose proof (λ H1 H2 H3 H4, truediv_le _ _ 1 thr H1 H2 H3 H4 Hthr) as H.
    apply H; lia.
  - pose proof (λ H1 H2 H3 H4, truediv_le _ _ 1 u H1 H2 H3 H4 Hu) as H.
    apply float_mul_hundred_le; apply H; lia.
Qed.

Lemma utilization_is_at_most_100_witness :
  productive (Round_robin 2)
  ∧ Forall (λ p, 0 < burst_time p)
           (original_processes (Scheduler_init spec_example))
  ∧ run (Round_robin 2) 10 (Scheduler_init spec_example)
    = Some (mkScheduler spec_example
              [ mkProcess 0 0 5 1 0 (Some 0) (Some 7);
                mkProcess 1 1 3 2 0 (Some 4) (Some 8) ],
            inr (mkMetrics (Int 7) (Int 3)
                   (Float (S754_finite false 4503599627370496 (-54)))
                   (Float (S754_finite false 7036874417766400 (-46)))))
  ∧ number_le_Z (Float (S754_finite false 4503599627370496 (-54))) 1
  ∧ number_le_Z (Float (S754_finite false 7036874417766400 (-46))) 100.
Proof.
  assert (Hp : productive (Round_robin 2)) by (cbn; lia).
  assert (Hb : Forall (λ p, 0 < burst_time p)
                 (original_processes (Scheduler_init spec_example)))
    by compute_done.
  assert (Hr : run (Round_robin 2) 10 (Scheduler_init spec_example)
    = Some (mkScheduler spec_example
              [ mkProcess 0 0 5 1 0 (Some 0) (Some 7);
                mkProcess 1 1 3 2 0 (Some 4) (Some 8) ],
            inr (mkMetrics (Int 7) (Int 3)
                   (Float (S754_finite false 4503599627370496 (-54)))
                   (Float (S754_finite false 7036874417766400 (-46))))))
    by reflexivity.
  split_and!; [exact Hp|exact Hb|exact Hr|..];
    apply (utilization_is_at_most_100 (Round_robin 2) 10 _ _ _ Hp Hb Hr
             ltac:(discriminate)).
Defined.

(** ** The clock and the work *)

Definition tick_single (step : State → State) (sch : Scheduler)
    (t : Z) (st : list Process) (t' : Z) (st' : list Process) : Prop :=
  ∃ s, reach guard (total step) (initial (reset_processes sch)) s
       ∧ guard s = true
       ∧ current_time s = t ∧ procs s = st
       ∧ current_time (step s) = t' ∧ procs (step s) = st'.

Definition tick_multilevel (quantum : Z) (sch : Scheduler)
    (t : Z) (st : list Process) (t' : Z) (st' : list Process) : Prop :=
  ∃ s s', reach m_guard (multilevel_queue_step quantum)
                (m_initial (reset_processes sch)) s
          ∧ m_guard s = true ∧ multilevel_queue_step quantum s = inr s'
          ∧ m_time s = t ∧ m_procs s = st
          ∧ m_time s' = t' ∧ m_procs s' = st'.

(** [tick P sch t st t' st']: some iteration of the loop of method [P],
    called on [sch], starts at [current_time = t] with the records in
    state [st] and ends at [current_time = t'] with the records in state
    [st']. *)
Definition tick (P : Policy)
    : Scheduler → Z → list Process → Z → list Process → Prop :=
  match P with
  | FCFS => tick_single fcfs_step
  | SJF_nonpreemptive => tick_single sjf_nonpreemptive_step
  | SJF_preemptive => tick_single sjf_preemptive_step
  | Round_robin quantum => tick_single (round_robin_step quantum)
  | Priority_nonpreemptive => tick_single priority_nonpreemptive_step
  | Priority_preemptive => tick_single priority_preemptive_step
  | Multilevel_queue quantum => tick_multilevel quantum
  end.

Lemma tick_single_drive P step sch t st t' st' :
  single_step P = Some step →
  tick_single step sch t st t' st' →
  ∃ s s', reach m_guard (drive (discipline P)) (start P sch) s
          ∧ drive (discipline P) s = inr s'
          ∧ m_time s = t ∧ m_procs s = st ∧ m_time s' = t' ∧ m_procs s' = st'.
Proof.
  intros HP (s & Hr & _ & <- & <- & <- & <-).
  destruct (single_step_drive P step HP) as (Hd & _ & Ht).
  exists (lift s), (lift (step s)).
  split_and!; [|apply Hd|done..].
  unfold start. rewrite Ht. exact (reach_lift _ _ _ _ Hd Hr).
Qed.

Lemma tick_drive P sch t st t' st' :
  tick P sch t st t' st' →
  ∃ s s', reach m_guard (drive (discipline P)) (start P sch) s
          ∧ drive (discipline P) s = inr s'
          ∧ m_time s = t ∧ m_procs s = st ∧ m_time s' = t' ∧ m_procs s' = st'.
Proof.
  destruct P; cbn [tick];
    try (apply tick_single_drive; reflexivity).
  intros (s & s' & Hr & _ & Hs & <- & <- & <- & <-). exists s, s'.
  split_and!; [|cbn [discipline];
                 by rewrite <- multilevel_queue_step_drive|done..].
  eapply reach_ext; [apply multilevel_queue_step_drive|done].
Qed.

(** X14. With positive burst times and a quantum of at least 1, an
    iteration of any policy loop is of one of two kinds.  Either it is
    idle: the clock advances by 1, no record changes, and every process
    that has arrived is completed.  Or it runs one process, which has
    arrived and is not completed: the clock advances by a positive amount,
    which is exactly what is taken off the [remaining_time] of that
    process, and the records of the others are left as they are. *)
Theorem processor_is_work_conserving (P : Policy) (sch : Scheduler)
    (t : Z) (st : list Process) (t' : Z) (st' : list Process) :
  productive P →
  Forall (λ p, 0 < burst_time p) (original_processes sch) →
  tick P sch t st t' st' →
  (t' = t + 1 ∧ st' = st
   ∧ ∀ i, (i < length st)%nat → arrival_time (st !!! i) ≤ t →
          completion_time (st !!! i) ≠ None)
  ∨ (∃ i, (i < length st)%nat
          ∧ arrival_time (st !!! i) ≤ t
          ∧ completion_time (st !!! i) = None
          ∧ t < t'
          ∧ t' - t = remaining_time (st !!! i) - remaining_time (st' !!! i)
          ∧ ∀ j, j ≠ i → st' !!! j = st !!! j).
Proof.
  intros Hp Hb (s & s' & Hr & Hs & <- & <- & <- & <-)%tick_drive.
  destruct (reach_uinv P Hp sch s Hb Hr) as (HI & U1 & _).
  destruct (drive_cases _ _ _ Hs) as (qs & Hqs & Hcase).
  destruct (enqueue_inv _ _ _ (discipline_tier_lt P) _ _ HI Hqs) as [HQ Hall].
  destruct Hcase as [[Hn ->]|(k & q & i & q' & Hf & Ho & Hs')].
  { left. cbn [m_idle m_time m_procs]. split_and!; [done..|].
    intros i Hi Ha Hc.
    destruct (Hall i Hi Ha Hc) as (k & j & (q & Hq & Hj) & _).
    cbn [with_queues queues] in Hq.
    rewrite (first_nonempty_None _ _ _ Hn Hq) in Hj. by apply elem_of_nil in Hj. }
  right. exists i.
  apply first_nonempty_Some in Hf as (Hk & _ & _).
  destruct (dispatch_facts _ _ _ _ _ _ _ _ HQ Hk Ho) as (Hi & Hc & _ & Hr0 & _).
  cbn [with_queues m_procs] in Hi, Hc, Hr0.
  pose proof (discipline_good_slice P k _ (productive_progresses P k Hp) Hr0)
    as He.
  destruct (productive_on_time P _ Hp HQ) as [_ Hot].
  pose proof (dispatch_queued (discipline P) (with_queues s qs) k i q q' Hk Ho)
    as Hqi.
  specialize (Hot i Hi Hc (or_introl (ex_intro _ k Hqi))).
  cbn [with_queues m_procs m_time] in Hot.
  specialize (U1 i Hi).
  destruct (d_run_fields (discipline P) k (m_time s) (m_procs s !!! i))
    as (_ & _ & _ & _ & _ & Er).
  cbn zeta in Hs'.
  destruct Hs' as [[_ ->]|[_ ->]]; cbn [m_procs m_time];
    (split_and!; [done|lia|done|lia| |
       by intros j Hj; apply list_lookup_total_insert_ne]);
    rewrite store_lookup_insert by done; rewrite decide_True by done;
    fields; rewrite ?Er; lia.
Qed.

Lemma processor_is_work_conserving_witness :
  productive SJF_preemptive
  ∧ Forall (λ p, 0 < burst_time p)
           (original_processes (Scheduler_init spec_example))
  ∧ tick SJF_preemptive (Scheduler_init spec_example)
      1 (procs sjf_example_state)
      2 [ mkProcess 0 0 5 1 4 (Some 0) None; mkProcess 1 1 3 2 2 (Some 1) None ]
  ∧ ((2 = 1 + 1
      ∧ [ mkProcess 0 0 5 1 4 (Some 0) None; mkProcess 1 1 3 2 2 (Some 1) None ]
        = procs sjf_example_state
      ∧ ∀ i, (i < length (procs sjf_example_state))%nat →
             arrival_time (procs sjf_example_state !!! i) ≤ 1 →
             completion_time (procs sjf_example_state !!! i) ≠ None)
     ∨ (∃ i, (i < length (procs sjf_example_state))%nat
          ∧ arrival_time (procs sjf_example_state !!! i) ≤ 1
          ∧ completion_time (procs sjf_example_state !!! i) = None
          ∧ 1 < 2
          ∧ 2 - 1
            = remaining_time (procs sjf_example_state !!! i)
              - remaining_time
                  ([ mkProcess 0 0 5 1 4 (Some 0) None;
                     mkProcess 1 1 3 2 2 (Some 1) None ] !!! i)
          ∧ ∀ j, j ≠ i →
                 [ mkProcess 0 0 5 1 4 (Some 0) None;
                   mkProcess 1 1 3 2 2 (Some 1) None ] !!! j
                 = procs sjf_example_state !!! j)).
Proof.
  assert (Hp : productive SJF_preemptive) by exact I.
  assert (Hb : Forall (λ p, 0 < burst_time p)
                 (original_processes (Scheduler_init spec_example)))
    by compute_done.
  assert (Ht : tick SJF_preemptive (Scheduler_init spec_example)
      1 (procs sjf_example_state)
      2 [ mkProcess 0 0 5 1 4 (Some 0) None; mkProcess 1 1 3 2 2 (Some 1) None ]).
  { exists sjf_example_state.
    split_and!; [exact sjf_example_reach|reflexivity..]. }
  split_and!; [exact Hp|exact Hb|exact Ht|].
  exact (processor_is_work_conserving SJF_preemptive
           (Scheduler_init spec_example) _ _ _ _ Hp Hb Ht).
Defined.

(** ** Sorting a queue whose keys are all equal *)

Lemma sort_by_level key l :
  (∀ a b, a ∈ l → b ∈ l → key a = key b) → sort_by key l = l.
Proof.
  induction l as [|x l IH]; intros H; [done|]. cbn [sort_by].
  rewrite IH by (intros a b Ha Hb; apply H; by right).
  destruct l as [|y l]; [done|]. cbn [insert_by].
  rewrite (H x y ltac:(by left) ltac:(right; by left)).
  by rewrite Z.leb_refl.
Qed.

Section EqualKeys.
Variables (key : Process → Z) (c : Z).

(** The queue holds valid references to records that are not completed,
    each once, and the key of every record that is not completed is [c]. *)
Definition level (s : State) : Prop :=
  NoDup (ready_queue s)
  ∧ (∀ i, i ∈ ready_queue s →
          (i < length (procs s))%nat ∧ (i ∉ completed_processes s))
  ∧ ∀ i, (i < length (procs s))%nat → i ∉ completed_processes s →
         key (procs s !!! i) = c.

Lemma level_enqueued s :
  level s →
  NoDup (enqueued s)
  ∧ ∀ i, i ∈ enqueued s →
         (i < length (procs s))%nat ∧ (i ∉ completed_processes s)
         ∧ key (procs s !!! i) = c.
Proof.
  intros (Hnd & Hq & Hk).
  destruct (enqueue_appends (procs s) (current_time s) (completed_processes s)
              (ready_queue s)) as (new & E & Hnew & Hfresh).
  assert (Hin : ∀ i, i ∈ enqueued s →
            (i < length (procs s))%nat ∧ (i ∉ completed_processes s)).
  { intros i Hi. pose proof Hi as Hi'. unfold enqueued in Hi'.
    rewrite E in Hi'. apply elem_of_app in Hi' as [Hi'|Hi']; [by apply Hq|].
    split; [|by apply Hfresh].
    apply enqueue_bound in Hi as [Hi|Hi]; [by apply Hq|done]. }
  split.
  - unfold enqueued. rewrite E. apply NoDup_app. split_and!; [done| |done].
    intros i Hi Hi'. destruct (Hfresh i Hi') as [Hn _]. by apply Hn.
  - intros i Hi. destruct (Hin i Hi). split_and!; [done..|]. by apply Hk.
Qed.

Lemma level_sorted s :
  level s → sort_by (λ j, key (procs s !!! j)) (enqueued s) = enqueued s.
Proof.
  intros [_ H]%level_enqueued. apply sort_by_level. intros a b Ha Hb.
  destruct (H a Ha) as (_ & _ & ->). by destruct (H b Hb) as (_ & _ & ->).
Qed.

Lemma level_fcfs_step s : level s → level (fcfs_step s).
Proof.
  intros HL. destruct (level_enqueued s HL) as [Hnd Hin].
  destruct HL as (_ & _ & Hk). unfold fcfs_step.
  destruct (enqueued s) as [|i rq] eqn:E.
  { split_and!; cbn; [constructor|by intros i ?%elem_of_nil|done]. }
  apply NoDup_cons in Hnd as [Hi Hnd].
  destruct (Hin i ltac:(by left)) as (Hlt & _).
  split_and!; cbn [ready_queue procs completed_processes]; [done|..].
  - intros j Hj. destruct (Hin j ltac:(by right)) as (? & ? & _).
    rewrite length_insert. split; [done|].
    intros [?|Hx%list_elem_of_singleton]%elem_of_app; [done|]. by subst j.
  - intros j Hj Hd. rewrite length_insert in Hj.
    rewrite store_lookup_insert by done.
    rewrite decide_False.
    + apply Hk; [done|]. intros ?. apply Hd, elem_of_app. by left.
    + intros ->. apply Hd, elem_of_app. right. by apply list_elem_of_singleton.
Qed.

Lemma level_loop step fuel s :
  (∀ s, level s → step s = fcfs_step s) →
  level s →
  loop guard (total step) fuel s = loop guard (total fcfs_step) fuel s.
Proof.
  intros He. revert s. induction fuel as [|fuel IH]; intros s Hs; cbn [loop];
    [done|].
  destruct (guard s); [|done]. unfold total. rewrite (He s Hs).
  by apply IH, level_fcfs_step.
Qed.

Lemma level_initial sch :
  Forall (λ p, key (fresh p) = c) (original_processes sch) →
  level (initial (reset_processes sch)).
Proof.
  intros Hb. rewrite Forall_forall in Hb.
  split_and!; cbn; [constructor|by intros i ?%elem_of_nil|].
  intros i (p & Hp & ->)%fresh_lookup _. by apply Hb.
Qed.
End EqualKeys.

(** X15. When every process has the same priority, the non-preemptive
    priority policy does what FCFS does: with the same fuel the two
    methods return the same records and the same metrics (or both are
    still running).  Holds for every workload, whatever its burst and
    arrival times. *)
Theorem equal_priorities_degenerate_to_fcfs (sch : Scheduler) (c : Z)
    (fuel : nat) :
  Forall (λ p, priority p = c) (original_processes sch) →
  priority_nonpreemptive fuel sch = fcfs fuel sch.
Proof.
  intros Hc. unfold priority_nonpreemptive, fcfs, run_single.
  rewrite (level_loop priority c); [done| |by apply level_initial].
  intros s Hs. unfold priority_nonpreemptive_step, fcfs_step.
  pose proof (level_sorted priority c s Hs) as Hsort.
  destruct (enqueued s) as [|i rq]; [done|]. by rewrite Hsort.
Qed.

Lemma equal_priorities_degenerate_to_fcfs_witness :
  Forall (λ p, priority p = 1) (original_processes (Scheduler_init tie_example))
  ∧ priority_nonpreemptive 10 (Scheduler_init tie_example)
    = fcfs 10 (Scheduler_init tie_example).
Proof.
  assert (Hc : Forall (λ p, priority p = 1)
                 (original_processes (Scheduler_init tie_example)))
    by compute_done.
  split; [exact Hc|].
  exact (equal_priorities_degenerate_to_fcfs _ 1 10 Hc).
Defined.

(** X16. When every process has the same burst time, non-preemptive SJF
    does what FCFS does: with the same fuel the two methods return the
    same records and the same metrics (or both are still running). *)
Theorem equal_bursts_degenerate_to_fcfs (sch : Scheduler) (c : Z)
    (fuel : nat) :
  Forall (λ p, burst_time p = c) (original_processes sch) →
  sjf_nonpreemptive fuel sch = fcfs fuel sch.
Proof.
  intros Hc. unfold sjf_nonpreemptive, fcfs, run_single.
  rewrite (level_loop remaining_time c); [done| |by apply level_initial].
  intros s Hs. unfold sjf_nonpreemptive_step, fcfs_step.
  pose proof (level_sorted remaining_time c s Hs) as Hsort.
  destruct (enqueued s) as [|i rq]; [done|]. by rewrite Hsort.
Qed.

Lemma equal_bursts_degenerate_to_fcfs_witness :
  Forall (λ p, burst_time p = 2) (original_processes (Scheduler_init tie_example))
  ∧ sjf_nonpreemptive 10 (Scheduler_init tie_example)
    = fcfs 10 (Scheduler_init tie_example).
Proof.
  assert (Hc : Forall (λ p, burst_time p = 2)
                 (original_processes (Scheduler_init tie_example)))
    by compute_done.
  split; [exact Hc|].
  exact (equal_bursts_degenerate_to_fcfs _ 2 10 Hc).
Defined.

(** ** The multilevel queue with a single populated queue *)

(** [queues[min(priority // 4, 2)]] is queue [k]. *)
Definition in_tier (k : nat) (p : Process) : Prop :=
  py_index 3 (queue_index_of p) = inr k.

(** A single-queue state seen as a state of the multilevel queue whose
    queue [k] is the ready queue, the other two being empty. *)
Definition place (k : nat) (s : State) : MState :=
  mkMState (procs s) (current_time s) (<[k := ready_queue s]> [[]; []; []])
           (completed_processes s).

(** The single-queue loop body that queue [k] follows. *)
Definition tier_step (quantum : Z) (k : nat) : State → State :=
  match k with
  | O => fcfs_step
  | _ => round_robin_step quantum
  end.

Lemma Forall_total (P : Process → Prop) st i :
  Forall P st → (i < length st)%nat → P (st !!! i).
Proof.
  intros H Hi. rewrite Forall_forall in H. apply H.
  eapply list_elem_of_lookup_2. by apply list_lookup_lookup_total_lt.
Qed.

Lemma existsb_place st i k rq :
  (k < 3)%nat →
  existsb (py_in st i) (<[k := rq]> [[]; []; []]) = py_in st i rq.
Proof.
  intros Hk. destruct k as [|[|[|k]]]; [| | |lia]; cbn;
    by rewrite ?orb_false_r.
Qed.

Lemma alter_place (f : list nat → list nat) k rq :
  (k < 3)%nat →
  alter f k (<[k := rq]> [[]; []; []]) = <[k := f rq]> [[]; []; []].
Proof. intros Hk. by destruct k as [|[|[|k]]]; [| | |lia]. Qed.

Lemma insert_place k (q rq : list nat) :
  (k < 3)%nat →
  <[k := q]> (<[k := rq]> [[]; []; []]) = <[k := q]> [[]; []; []].
Proof. intros Hk. by destruct k as [|[|[|k]]]; [| | |lia]. Qed.

Lemma first_nonempty_place k q :
  (k < 3)%nat →
  first_nonempty (<[k := q]> [[]; []; []])
  = match q with [] => None | _ => Some (k, q) end.
Proof. intros Hk. by destruct k as [|[|[|k]]], q; [..|lia|lia]. Qed.

Lemma mlq_enqueue_place k st t done rq :
  (k < 3)%nat → Forall (in_tier k) st →
  mlq_enqueue st t done (<[k := rq]> [[]; []; []])
  = inr (<[k := enqueue st t done rq]> [[]; []; []]).
Proof.
  intros Hk Ht. unfold mlq_enqueue, enqueue.
  assert (Hl : ∀ i, i ∈ seq 0 (length st) → (i < length st)%nat).
  { intros i [_ ?]%elem_of_seq. lia. }
  revert Hl. generalize (seq 0 (length st)). intros l. revert rq.
  induction l as [|i l IH]; intros rq Hl; [done|]. cbn [foldl].
  rewrite existsb_place by done.
  destruct (_ && _ && _).
  - rewrite length_insert. cbn [length].
    pose proof (Forall_total _ _ i Ht (Hl i ltac:(by left))) as Hi.
    unfold in_tier in Hi. rewrite Hi, alter_place by done.
    apply IH. intros j Hj. apply Hl. by right.
  - apply IH. intros j Hj. apply Hl. by right.
Qed.

Lemma tier_step_place quantum k s :
  (k < 3)%nat → Forall (in_tier k) (procs s) →
  multilevel_queue_step quantum (place k s)
  = inr (place k (tier_step quantum k s)).
Proof.
  intros Hk Ht. unfold multilevel_queue_step, place.
  cbn [m_procs m_time queues m_completed].
  rewrite mlq_enqueue_place, first_nonempty_place by done.
  change (enqueue (procs s) (current_time s) (completed_processes s)
            (ready_queue s)) with (enqueued s).
  destruct k as [|k]; cbn [tier_step Nat.eqb];
    unfold fcfs_step, round_robin_step, m_idle, idle;
    (destruct (enqueued s) as [|i rq]; [done|]);
    cbn [m_procs m_time queues m_completed];
    rewrite !set_start_remaining, !insert_place by done.
  - rewrite Z.sub_diag. cbn [remaining_time with_remaining Z.eqb]. done.
  - cbn [remaining_time with_remaining]. by destruct (_ =? 0).
Qed.

Lemma tier_step_static quantum k s :
  Forall (in_tier k) (procs s) →
  Forall (in_tier k) (procs (tier_step quantum k s)).
Proof.
  intros Ht.
  assert (Hs : ∃ D, drive D (lift s) = inr (lift (tier_step quantum k s))).
  { destruct k as [|k]; cbn [tier_step];
      [exists fcfs_d; apply fcfs_step_drive
      |exists (round_robin_d quantum); apply round_robin_step_drive]. }
  destruct Hs as [D Hs].
  apply Forall_forall. intros p [j Hp]%list_elem_of_lookup.
  pose proof (lookup_lt_Some _ _ _ Hp) as Hj.
  apply list_lookup_total_correct in Hp as <-.
  destruct (drive_static D _ _ j Hs) as [Hl Hf]. cbn [lift m_procs] in Hl, Hf.
  rewrite Hl in Hj.
  pose proof (Forall_total _ _ j Ht Hj) as Hi.
  unfold in_tier, queue_index_of in *.
  apply (f_equal priority) in Hf. cbn in Hf. by rewrite Hf.
Qed.

Lemma place_loop quantum k fuel s :
  (k < 3)%nat → Forall (in_tier k) (procs s) →
  outcome (loop m_guard (multilevel_queue_step quantum) fuel (place k s))
  = match loop guard (total (tier_step quantum k)) fuel s with
    | None => None
    | Some (s', e) => Some (procs s', e)
    end.
Proof.
  intros Hk. revert s. induction fuel as [|fuel IH]; intros s Ht; cbn [loop];
    change (m_guard (place k s)) with (guard s);
    (destruct (guard s); [|done]); [done|].
  rewrite tier_step_place by done. unfold total.
  by apply IH, tier_step_static.
Qed.

(** X17. When every process of the workload belongs to the same queue [k]
    of the multilevel queue (priorities 0..3 give queue 0, 4..7 queue 1,
    8 and more queue 2), [multilevel_queue] does what a single-queue
    policy does: FCFS for queue 0, round robin with the same quantum for
    queues 1 and 2.  With the same fuel the two methods return the same
    records and the same metrics (or both are still running). *)
Theorem single_tier_multilevel_queue (sch : Scheduler) (quantum : Z)
    (k : nat) (fuel : nat) :
  (k < 3)%nat →
  Forall (in_tier k) (original_processes sch) →
  multilevel_queue quantum fuel sch
  = if (k =? 0)%nat then fcfs fuel sch else round_robin quantum fuel sch.
Proof.
  intros Hk Ht.
  assert (Hgoal : multilevel_queue quantum fuel sch
                  = run_single (tier_step quantum k) fuel sch).
  { unfold multilevel_queue, run_single. f_equal.
    replace (m_initial (reset_processes sch))
      with (place k (initial (reset_processes sch)))
      by (by destruct k as [|[|[|k]]]; [| | |lia]).
    apply (place_loop quantum k fuel _ Hk).
    cbn [initial procs reset_processes processes].
    apply Forall_fmap. eapply Forall_impl; [exact Ht|]. by intros p. }
  rewrite Hgoal. by destruct k.
Qed.

(** Two processes of the middle queue. *)
Definition middle_tier_example : list Process :=
  [ mkProcess 0 0 5 5 0 None None; mkProcess 1 1 3 6 0 None None ].

Lemma single_tier_multilevel_queue_witness :
  (1 < 3)%nat
  ∧ Forall (in_tier 1) (original_processes (Scheduler_init middle_tier_example))
  ∧ multilevel_queue 2 10 (Scheduler_init middle_tier_example)
    = round_robin 2 10 (Scheduler_init middle_tier_example).
Proof.
  assert (Hk : (1 < 3)%nat) by lia.
  assert (Ht : Forall (in_tier 1)
                 (original_processes (Scheduler_init middle_tier_example)))
    by (repeat (apply Forall_cons_2; [reflexivity|]); apply Forall_nil_2).
  split_and!; [exact Hk|exact Ht|].
  exact (single_tier_multilevel_queue _ 2 1 10 Hk Ht).
Defined.

(** ** The makespan *)

(** The [f]-work of the processes that arrive at [x] or later. *)
Definition tail_work (f : Process → Z) (st : list Process) (x : Z) : Z :=
  sumZ (map (λ q, if x <=? arrival_time q then f q else 0) st).

(** When a processor that is never idle while work is pending, at time
    [t] and with [f p] ticks left to run for each [p] of [whole], will
    have run everything: it is busy from [t] on, or from some later
    arrival on. *)
Definition horizon_of (f : Process → Z) (t : Z) (whole part : list Process)
    : Z :=
  foldr (λ p acc,
           if t <? arrival_time p
           then Z.max (arrival_time p + tail_work f whole (arrival_time p)) acc
           else acc)
        (t + sumZ (map f whole)) part.

Definition horizon (f : Process → Z) (t : Z) (st : list Process) : Z :=
  horizon_of f t st st.

(** The sum of all burst times, or, if larger, for some process arriving
    after time 0, its arrival time plus the burst times of the processes
    that arrive no earlier than it. *)
Definition makespan (ps : list Process) : Z := horizon burst_time 0 ps.

Lemma horizon_of_lub f t whole part B :
  horizon_of f t whole part ≤ B
  ↔ t + sumZ (map f whole) ≤ B
    ∧ ∀ p, p ∈ part → t < arrival_time p →
           arrival_time p + tail_work f whole (arrival_time p) ≤ B.
Proof.
  induction part as [|q part IH]; cbn [horizon_of foldr].
  - split; [|by intros [H _]].
    intros H. split; [done|]. by intros p ?%elem_of_nil.
  - fold (horizon_of f t whole part). destruct (t <? arrival_time q) eqn:E.
    + apply Z.ltb_lt in E. rewrite Z.max_lub_iff, IH. split.
      * intros (H1 & H2 & H3). split; [done|].
        intros p [->|Hp]%elem_of_cons Hlt; [done|by apply H3].
      * intros (H2 & H3). split_and!; [apply H3; [by left|done]|done|].
        intros p Hp. apply H3. by right.
    + apply Z.ltb_ge in E. rewrite IH.
      split; intros (H2 & H3); (split; [done|]).
      * intros p [->|Hp]%elem_of_cons Hlt; [lia|by apply H3].
      * intros p Hp. apply H3. by right.
Qed.

Lemma horizon_lub f t st B :
  horizon f t st ≤ B
  ↔ t + sumZ (map f st) ≤ B
    ∧ ∀ j, (j < length st)%nat → t < arrival_time (st !!! j) →
           arrival_time (st !!! j) + tail_work f st (arrival_time (st !!! j))
           ≤ B.
Proof.
  unfold horizon. rewrite horizon_of_lub.
  split; intros [H1 H2]; (split; [done|]).
  - intros j Hj. apply H2.
    eapply list_elem_of_lookup_2. by apply list_lookup_lookup_total_lt.
  - intros p [j Hp]%list_elem_of_lookup.
    pose proof (lookup_lt_Some _ _ _ Hp).
    apply list_lookup_total_correct in Hp as <-. by apply H2.
Qed.

Lemma horizon_same f g t t' st st' :
  (∀ B, horizon f t st ≤ B ↔ horizon g t' st' ≤ B) →
  horizon f t st = horizon g t' st'.
Proof. intros H. apply Z.le_antisymm; apply H; lia. Qed.

Lemma horizon_fresh t ps :
  horizon remaining_time t (map fresh ps) = horizon burst_time t ps.
Proof.
  unfold horizon. generalize ps at 2 4. intros part.
  induction part as [|q part IH]; cbn [map horizon_of foldr].
  - by rewrite map_map.
  - fold (horizon_of remaining_time t (map fresh ps) (map fresh part)).
    fold (horizon_of burst_time t ps part). rewrite IH.
    unfold tail_work. by rewrite map_map.
Qed.

Lemma sumZ_same (f g : Process → Z) st :
  (∀ j, (j < length st)%nat → f (st !!! j) = g (st !!! j)) →
  sumZ (map f st) = sumZ (map g st).
Proof.
  intros H. apply Z.le_antisymm; apply sumZ_le; intros j Hj;
    rewrite (H j Hj); lia.
Qed.

Lemma tail_work_le f st x :
  (∀ j, (j < length st)%nat → 0 ≤ f (st !!! j)) →
  tail_work f st x ≤ sumZ (map f st).
Proof.
  intros H. apply sumZ_le. intros j Hj. specialize (H j Hj).
  destruct (_ <=? _); lia.
Qed.

(** Among the processes with something left to run, one arrives first. *)
Lemma earliest_pending (st : list Process) :
  Exists (λ p, 1 ≤ remaining_time p) st →
  ∃ p, p ∈ st ∧ 1 ≤ remaining_time p
       ∧ ∀ q, q ∈ st → 1 ≤ remaining_time q →
              arrival_time p ≤ arrival_time q.
Proof.
  induction st as [|q st IH]; intros HEx; [by inversion HEx|].
  destruct (decide (Exists (λ p, 1 ≤ remaining_time p) st)) as [He|Hn].
  - destruct (IH He) as (p & Hp & Hpp & Hmin).
    destruct (decide (1 ≤ remaining_time q
                      ∧ arrival_time q < arrival_time p)) as [[? ?]|Hno].
    + exists q. split_and!; [by left|done|].
      intros r [->|Hr]%elem_of_cons Hr1; [lia|].
      specialize (Hmin r Hr Hr1). lia.
    + exists p. split_and!; [by right|done|].
      intros r [->|Hr]%elem_of_cons Hr1; [lia|by apply Hmin].
  - apply Exists_cons in HEx as [Hq|?]; [|done].
    exists q. split_and!; [by left|done|].
    intros r [->|Hr]%elem_of_cons Hr1; [lia|].
    exfalso. apply Hn, Exists_exists. by exists r.
Qed.

Lemma py_max_lub c cs B :
  c ≤ B → (∀ y, y ∈ cs → y ≤ B) → py_max c cs ≤ B.
Proof.
  unfold py_max. revert c. induction cs as [|y cs IH]; intros c Hc H; [done|].
  cbn [foldl]. apply IH.
  - pose proof (H y ltac:(by left)). lia.
  - intros z Hz. apply H. by right.
Qed.

Lemma filter_all (f : Process → bool) st :
  (∀ p, p ∈ st → f p = true) → List.filter f st = st.
Proof.
  induction st as [|p st IH]; intros H; [done|]. cbn.
  rewrite (H p) by by left. f_equal. apply IH. intros q Hq. apply H. by right.
Qed.

Lemma loop_final {S} (g : S → bool) step fuel (s0 s : S) :
  loop g step fuel s0 = Some (s, None) → g s = false.
Proof.
  revert s0. induction fuel as [|fuel IH]; intros s0; cbn [loop];
    destruct (g s0) eqn:Hg; try done; try by intros [= <-].
  destruct (step s0) as [e|s1]; [done|apply IH].
Qed.

Section Makespan.
Variable P : Policy.
Hypothesis Hprod : productive P.

(** The two kinds of iteration: an idle tick, or a slice [e] given to a
    process [i] that has arrived. *)
Lemma drive_tick s s' :
  PInv P s → UInv s → drive (discipline P) s = inr s' →
  (m_procs s' = m_procs s ∧ m_time s' = m_time s + 1
   ∧ m_completed s' = m_completed s
   ∧ ∀ i, (i < length (m_procs s))%nat →
          arrival_time (m_procs s !!! i) ≤ m_time s →
          completion_time (m_procs s !!! i) ≠ None)
  ∨ ∃ i x e,
      (i < length (m_procs s))%nat
      ∧ arrival_time (m_procs s !!! i) ≤ m_time s
      ∧ completion_time (m_procs s !!! i) = None
      ∧ 1 ≤ e ≤ remaining_time (m_procs s !!! i)
      ∧ m_procs s' = <[i := x]> (m_procs s)
      ∧ m_time s' = m_time s + e
      ∧ arrival_time x = arrival_time (m_procs s !!! i)
      ∧ remaining_time x = remaining_time (m_procs s !!! i) - e
      ∧ ((completion_time x = Some (m_time s + e)
          ∧ m_completed s' = m_completed s ++ [i])
         ∨ (completion_time x = None ∧ m_completed s' = m_completed s)).
Proof.
  intros HI (U1 & _) Hs.
  destruct (drive_cases _ _ _ Hs) as (qs & Hqs & Hcase).
  destruct (enqueue_inv _ _ _ (discipline_tier_lt P) _ _ HI Hqs) as [HQ Hall].
  destruct Hcase as [[Hn ->]|(k & q & i & q' & Hf & Ho & Hs')].
  { left. cbn [m_idle m_time m_procs m_completed]. split_and!; [done..|].
    intros i Hi Ha Hc.
    destruct (Hall i Hi Ha Hc) as (k & j & (q & Hq & Hj) & _).
    cbn [with_queues queues] in Hq.
    rewrite (first_nonempty_None _ _ _ Hn Hq) in Hj. by apply elem_of_nil in Hj. }
  right.
  apply first_nonempty_Some in Hf as (Hk & _ & _).
  destruct (dispatch_facts _ _ _ _ _ _ _ _ HQ Hk Ho) as (Hi & Hc & _ & Hr0 & _).
  cbn [with_queues m_procs] in Hi, Hc, Hr0.
  pose proof (discipline_good_slice P k _ (productive_progresses P k Hprod) Hr0)
    as He.
  destruct (productive_on_time P _ Hprod HQ) as [_ Hot].
  pose proof (dispatch_queued (discipline P) (with_queues s qs) k i q q' Hk Ho)
    as Hqi.
  specialize (Hot i Hi Hc (or_introl (ex_intro _ k Hqi))).
  cbn [with_queues m_procs m_time] in Hot.
  specialize (U1 i Hi).
  destruct (d_run_fields (discipline P) k (m_time s) (m_procs s !!! i))
    as (_ & Ea & _ & _ & Ec & Er).
  cbn zeta in Hs'.
  destruct Hs' as [[_ ->]|[_ ->]]; cbn [m_procs m_time m_completed].
  - exists i, (with_completion
                 (d_run (discipline P) k (m_time s) (m_procs s !!! i))
                 (Some (m_time s + d_slice (discipline P) k
                                     (remaining_time (m_procs s !!! i))))),
           (d_slice (discipline P) k (remaining_time (m_procs s !!! i))).
    split_and!; [done|lia|done|lia|lia|done|done|by fields|by fields|].
    left. by fields.
  - exists i, (d_run (discipline P) k (m_time s) (m_procs s !!! i)),
           (d_slice (discipline P) k (remaining_time (m_procs s !!! i))).
    split_and!; [done|lia|done|lia|lia|done|done|done|done|].
    right. split; [|done]. by rewrite Ec.
Qed.

(** No completion lies in the future, and the horizon is that of the
    workload. *)
Definition MInv (ps : list Process) (s : MState) : Prop :=
  (∀ j c, (j < length (m_procs s))%nat →
          completion_time (m_procs s !!! j) = Some c → c ≤ m_time s)
  ∧ horizon remaining_time (m_time s) (m_procs s) = makespan ps.

Lemma remaining_ge_0 s j :
  PInv P s → (j < length (m_procs s))%nat →
  0 ≤ remaining_time (m_procs s !!! j).
Proof.
  intros HI Hj. pose proof (inv_record _ _ _ _ HI j Hj) as H.
  destruct (completion_time _); lia.
Qed.

Lemma idle_horizon s :
  PInv P s → m_guard s = true →
  (∀ i, (i < length (m_procs s))%nat →
        arrival_time (m_procs s !!! i) ≤ m_time s →
        completion_time (m_procs s !!! i) ≠ None) →
  horizon remaining_time (m_time s + 1) (m_procs s)
  = horizon remaining_time (m_time s) (m_procs s).
Proof.
  intros HI Hg Hidle.
  assert (Hzero : ∀ j, (j < length (m_procs s))%nat →
            1 ≤ remaining_time (m_procs s !!! j) →
            m_time s < arrival_time (m_procs s !!! j)).
  { intros j Hj Hr.
    destruct (decide (arrival_time (m_procs s !!! j) ≤ m_time s)) as [Ha|];
      [|lia].
    pose proof (Hidle j Hj Ha) as Hc.
    pose proof (inv_record _ _ _ _ HI j Hj) as H.
    destruct (completion_time _); [lia|done]. }
  destruct (missing_index (m_completed s) (length (m_procs s)))
    as (i0 & Hi0 & Hni0).
  { apply (inv_done_nodup _ _ _ _ HI). }
  { unfold m_guard in Hg. by apply Nat.ltb_lt. }
  assert (Hr0 : 1 ≤ remaining_time (m_procs s !!! i0)).
  { pose proof (inv_record _ _ _ _ HI i0 Hi0) as H.
    destruct (completion_time _) eqn:E; [|done]. exfalso. apply Hni0.
    apply (inv_done _ _ _ _ HI). split; [done|congruence]. }
  destruct (earliest_pending (m_procs s)) as (p & Hp & Hp1 & Hmin).
  { apply Exists_exists. exists (m_procs s !!! i0). split; [|done].
    eapply list_elem_of_lookup_2. by apply list_lookup_lookup_total_lt. }
  apply list_elem_of_lookup in Hp as [jp Hjp].
  pose proof (lookup_lt_Some _ _ _ Hjp) as Hjp'.
  apply list_lookup_total_correct in Hjp as <-.
  assert (Hall : tail_work remaining_time (m_procs s)
                   (arrival_time (m_procs s !!! jp))
                 = sumZ (map remaining_time (m_procs s))).
  { apply sumZ_same. intros j Hj.
    pose proof (remaining_ge_0 s j HI Hj) as H0.
    destruct (_ <=? _) eqn:E; [done|]. apply Z.leb_gt in E.
    destruct (decide (1 ≤ remaining_time (m_procs s !!! j))) as [H1|]; [|lia].
    assert (m_procs s !!! j ∈ m_procs s) as Hin.
    { eapply list_elem_of_lookup_2. by apply list_lookup_lookup_total_lt. }
    specialize (Hmin _ Hin H1). lia. }
  pose proof (tail_work_le remaining_time (m_procs s)) as Hle.
  apply horizon_same. intros B. rewrite !horizon_lub. split.
  - intros [H1 H2]. split.
    + lia.
    + intros j Hj Hlt.
      destruct (decide (m_time s + 1 < arrival_time (m_procs s !!! j)))
        as [Hl|Hl]; [by apply H2|].
      specialize (Hle (arrival_time (m_procs s !!! j))
                    (λ j Hj, remaining_ge_0 s j HI Hj)). lia.
  - intros [H1 H2]. split.
    + pose proof (H2 jp Hjp' (Hzero jp Hjp' Hp1)) as H.
      rewrite Hall in H. pose proof (Hzero jp Hjp' Hp1). lia.
    + intros j Hj Hlt. apply H2; [done|lia].
Qed.

Lemma busy_horizon st i x e t :
  (i < length st)%nat → arrival_time (st !!! i) ≤ t →
  1 ≤ e →
  arrival_time x = arrival_time (st !!! i) →
  remaining_time x = remaining_time (st !!! i) - e →
  (∀ j, (j < length st)%nat → 0 ≤ remaining_time (<[i := x]> st !!! j)) →
  horizon remaining_time (t + e) (<[i := x]> st) = horizon remaining_time t st.
Proof.
  intros Hi Ha He Hxa Hxr Hpos.
  assert (Harr : ∀ j, arrival_time (<[i := x]> st !!! j)
                      = arrival_time (st !!! j)).
  { intros j. rewrite store_lookup_insert by done. by case_decide; subst. }
  assert (Htail : ∀ y, t < y →
            tail_work remaining_time (<[i := x]> st) y
            = tail_work remaining_time st y).
  { intros y Hy. unfold tail_work. rewrite sumZ_insert by done.
    rewrite Hxa. destruct (y <=? arrival_time (st !!! i)) eqn:E; [|lia].
    apply Z.leb_le in E. lia. }
  assert (Hsum : sumZ (map remaining_time (<[i := x]> st))
                 = sumZ (map remaining_time st) - e).
  { rewrite sumZ_insert by done. lia. }
  pose proof (tail_work_le remaining_time (<[i := x]> st)) as Hle.
  apply horizon_same. intros B. rewrite !horizon_lub, length_insert, Hsum.
  split.
  - intros [H1 H2]. split; [lia|]. intros j Hj Hlt.
    destruct (decide (t + e < arrival_time (st !!! j))) as [Hl|Hl].
    + specialize (H2 j Hj). rewrite Harr, Htail in H2 by lia. by apply H2.
    + rewrite <- Htail by done.
      specialize (Hle (arrival_time (st !!! j))).
      rewrite length_insert in Hle. specialize (Hle Hpos). lia.
  - intros [H1 H2]. split; [lia|]. intros j Hj Hlt.
    rewrite Harr in Hlt |- *. rewrite Htail by lia. apply H2; [done|lia].
Qed.

Lemma drive_minv ps s s' :
  PInv P s → UInv s → m_guard s = true → MInv ps s →
  drive (discipline P) s = inr s' → MInv ps s'.
Proof.
  intros HI HU Hg [HC HM] Hs.
  pose proof (policy_drive_inv P s s' HI Hs) as HI'.
  destruct (drive_tick s s' HI HU Hs)
    as [(Ep & Et & _ & Hidle)
       |(i & x & e & Hi & Ha & Hc & He & Ep & Et & Hxa & Hxr & Hx)].
  - split.
    + intros j c. rewrite Ep, Et. intros Hj Hcj.
      specialize (HC j c Hj Hcj). lia.
    + rewrite Ep, Et, <- HM. by apply idle_horizon.
  - split.
    + intros j c. rewrite Ep, Et, length_insert. intros Hj.
      rewrite store_lookup_insert by done. case_decide as E.
      * destruct Hx as [[-> _]|[-> _]]; [by intros [= <-]|done].
      * intros Hcj. specialize (HC j c Hj Hcj). lia.
    + rewrite Ep, Et, <- HM. apply busy_horizon; try done; [lia|].
      intros j Hj. rewrite <- Ep. apply remaining_ge_0; [done|].
      by rewrite Ep, length_insert.
Qed.

Lemma reach_minv sch s :
  Forall (λ p, 0 < burst_time p) (original_processes sch) →
  reach m_guard (drive (discipline P)) (start P sch) s →
  MInv (original_processes sch) s.
Proof.
  intros Hb. induction 1 as [|s s' Hr IH Hg Hs].
  - split.
    + intros j c (p & _ & E)%fresh_lookup. cbn [start m_procs]. by rewrite E.
    + cbn [start m_procs m_time]. apply horizon_fresh.
  - destruct (reach_uinv P Hprod sch s Hb Hr) as [HI HU].
    by eapply drive_minv.
Qed.

(** The loop is left at the makespan, by an iteration that completes a
    process. *)
Lemma final_clock sch s :
  Forall (λ p, 0 < burst_time p) (original_processes sch) →
  original_processes sch ≠ [] →
  reach m_guard (drive (discipline P)) (start P sch) s →
  m_guard s = false →
  m_time s = makespan (original_processes sch)
  ∧ (∀ j c, (j < length (m_procs s))%nat →
            completion_time (m_procs s !!! j) = Some c → c ≤ m_time s)
  ∧ ∃ i, (i < length (m_procs s))%nat
         ∧ completion_time (m_procs s !!! i) = Some (m_time s).
Proof.
  intros Hb Hne Hr Hg.
  destruct (reach_minv sch s Hb Hr) as [HC HM].
  destruct (reach_uinv P Hprod sch s Hb Hr) as [HI _].
  split_and!; [|done|].
  - rewrite <- HM. apply Z.le_antisymm.
    + pose proof (proj1 (horizon_lub remaining_time (m_time s) (m_procs s) _)
                    (Z.le_refl _)) as [H1 _].
      etrans; [|exact H1].
      assert (0 ≤ sumZ (map remaining_time (m_procs s))); [|lia].
      apply sumZ_nonneg. intros j Hj. by apply remaining_ge_0.
    + apply horizon_lub. split.
      * assert (sumZ (map remaining_time (m_procs s)) ≤ 0); [|lia].
        etrans; [apply (sumZ_le _ (λ _, 0))|].
        -- intros j Hj. pose proof (all_completed P s j HI Hg Hj) as Hc.
           pose proof (inv_record _ _ _ _ HI j Hj) as H.
           destruct (completion_time _); [lia|done].
        -- clear. induction (m_procs s) as [|p l IHl]; [done|].
           cbn in *. unfold sumZ in *. cbn. lia.
      * intros j Hj Hlt. exfalso.
        pose proof (all_completed P s j HI Hg Hj) as Hc.
        pose proof (inv_record _ _ _ _ HI j Hj) as H.
        pose proof (inv_burst _ _ _ _ HI j Hj) as Hbj.
        destruct (completion_time (m_procs s !!! j)) as [c|] eqn:E; [|done].
        specialize (HC j c Hj E). lia.
  - inversion Hr as [E|s1 s2 Hr1 Hg1 Hs1 E].
    + exfalso. subst s. unfold m_guard in Hg. cbn [start m_procs m_completed] in Hg.
      apply Nat.ltb_ge in Hg. rewrite length_map in Hg. cbn in Hg.
      destruct (original_processes sch); [done|cbn in Hg; lia].
    + subst s2. destruct (reach_uinv P Hprod sch s1 Hb Hr1) as [HI1 HU1].
      destruct (drive_tick s1 s HI1 HU1 Hs1)
        as [(Ep & _ & Ed & _)
           |(i & x & e & Hi & _ & _ & _ & Ep & Et & _ & _ & Hx)].
      * exfalso. unfold m_guard in Hg, Hg1. rewrite Ep, Ed in Hg. congruence.
      * destruct Hx as [[Hcx _]|[_ Ed]].
        -- exists i. rewrite Ep, Et, length_insert. split; [done|].
           rewrite store_lookup_insert by done. by rewrite decide_True.
        -- exfalso. unfold m_guard in Hg, Hg1.
           rewrite Ep, Ed, length_insert in Hg. congruence.
Qed.
End Makespan.

Lemma run_final P fuel sch sch' m :
  run P fuel sch = Some (sch', inr m) →
  ∃ s, reach m_guard (drive (discipline P)) (start P sch) s
       ∧ m_guard s = false
       ∧ processes sch' = m_procs s.
Proof.
  rewrite run_drive. unfold conclude.
  destruct (loop _ _ _ _) as [[s [e|]]|] eqn:Hl; cbn [outcome]; [done| |done].
  intros [= <- _]. exists s.
  split_and!; [by eapply loop_reach|by eapply loop_final|done].
Qed.

(** X18. With positive burst times and a quantum of at least 1, the
    largest completion time that a policy method leaves behind is the
    makespan of the workload, a number that depends on the arrival and
    burst times only: the sum of all burst times, or, if larger, for some
    process arriving after time 0, its arrival time plus the burst times
    of the processes arriving no earlier.  So the throughput and the CPU
    utilization that the method returns are the same for all seven
    policies and all such quanta; only the two averages tell the policies
    apart. *)
Theorem makespan_is_policy_independent (P : Policy) (fuel : nat)
    (sch sch' : Scheduler) (m : Metrics) :
  productive P →
  Forall (λ p, 0 < burst_time p) (original_processes sch) →
  original_processes sch ≠ [] →
  run P fuel sch = Some (sch', inr m) →
  (∃ c cs, completion_times (completed_records (processes sch')) = c :: cs
           ∧ py_max c cs = makespan (original_processes sch))
  ∧ ∃ q u,
      truediv (Z.of_nat (length (original_processes sch)))
              (makespan (original_processes sch)) = inr q
      ∧ throughput m = Float q
      ∧ truediv (sumZ (map burst_time (original_processes sch)))
                (makespan (original_processes sch)) = inr u
      ∧ cpu_utilization m = Float (float_mul u hundred).
Proof.
  intros Hp Hb Hne Hrun.
  destruct (run_final _ _ _ _ _ Hrun) as (s & Hr & Hg & Hst).
  destruct (run_visits _ _ _ _ _ Hrun) as [Hv _].
  destruct (visits_fields P sch _ Hv) as (Hlen & _ & _ & Hbt & _).
  destruct (reach_uinv P Hp sch s Hb Hr) as [HI _].
  destruct (final_clock P Hp sch s Hb Hne Hr Hg) as (Ht & HC & i & Hi & Hci).
  assert (Hall : completed_records (processes sch') = processes sch').
  { apply filter_all. intros p [j Hj]%list_elem_of_lookup. rewrite Hst in Hj.
    pose proof (lookup_lt_Some _ _ _ Hj) as Hlt.
    apply list_lookup_total_correct in Hj as <-.
    pose proof (all_completed P s j HI Hg Hlt) as Hc.
    unfold is_completed.
    destruct (completion_time (m_procs s !!! j)); [done|congruence]. }
  assert (Hcne : completed_records (processes sch') ≠ []).
  { rewrite Hall. intros E. rewrite E in Hlen. cbn in Hlen.
    by destruct (original_processes sch). }
  destruct (get_metrics_value sch' m (run_metrics _ _ _ _ _ Hrun) Hcne)
    as (c & cs & att & awt & thr & u & Hct & _ & _ & Hthr & Hu & ->).
  assert (Hmax : py_max c cs = makespan (original_processes sch)).
  { rewrite <- Ht. apply Z.le_antisymm.
    - assert (Hle : ∀ y, y ∈ c :: cs → y ≤ m_time s).
      { intros y Hy. rewrite <- Hct, Hall, Hst in Hy.
        apply list_elem_of_omap in Hy as (p & [j Hj]%list_elem_of_lookup & Hy).
        pose proof (lookup_lt_Some _ _ _ Hj) as Hlt.
        apply list_lookup_total_correct in Hj as <-. by apply (HC j). }
      apply py_max_lub; [apply Hle; by left|].
      intros y Hy. apply Hle. by right.
    - assert (Hin : m_time s ∈ c :: cs).
      { rewrite <- Hct, Hall, Hst. apply list_elem_of_omap.
        exists (m_procs s !!! i). split; [|done].
        eapply list_elem_of_lookup_2. by apply list_lookup_lookup_total_lt. }
      apply elem_of_cons in Hin as [->|Hin];
        [apply py_max_ge|by apply py_max_foldl]. }
  split; [by exists c, cs|]. exists thr, u.
  rewrite Hall, Hmax in Hthr, Hu. rewrite Hlen in Hthr. rewrite Hbt in Hu.
  done.
Qed.

Lemma makespan_is_policy_independent_witness :
  productive (Round_robin 2)
  ∧ Forall (λ p, 0 < burst_time p)
           (original_processes (Scheduler_init spec_example))
  ∧ original_processes (Scheduler_init spec_example) ≠ []
  ∧ run (Round_robin 2) 10 (Scheduler_init spec_example)
    = Some (mkScheduler spec_example
              [ mkProcess 0 0 5 1 0 (Some 0) (Some 7);
                mkProcess 1 1 3 2 0 (Some 4) (Some 8) ],
            inr (mkMetrics (Int 7) (Int 3)
                   (Float (S754_finite false 4503599627370496 (-54)))
                   (Float (S754_finite false 7036874417766400 (-46)))))
  ∧ makespan (original_processes (Scheduler_init spec_example)) = 8
  ∧ truediv 2 8 = inr (S754_finite false 4503599627370496 (-54))
  ∧ truediv 8 8 = inr (S754_finite false 4503599627370496 (-52))
  ∧ float_mul (S754_finite false 4503599627370496 (-52)) hundred
    = S754_finite false 7036874417766400 (-46)
  ∧ ∃ q u,
      truediv 2 8 = inr q
      ∧ Float (S754_finite false 4503599627370496 (-54)) = Float q
      ∧ truediv 8 8 = inr u
      ∧ Float (S754_finite false 7036874417766400 (-46))
        = Float (float_mul u hundred).
Proof.
  assert (Hp : productive (Round_robin 2)) by (cbn; lia).
  assert (Hb : Forall (λ p, 0 < burst_time p)
                 (original_processes (Scheduler_init spec_example)))
    by compute_done.
  assert (Hne : original_processes (Scheduler_init spec_example) ≠ [])
    by discriminate.
  assert (Hr : run (Round_robin 2) 10 (Scheduler_init spec_example)
    = Some (mkScheduler spec_example
              [ mkProcess 0 0 5 1 0 (Some 0) (Some 7);
                mkProcess 1 1 3 2 0 (Some 4) (Some 8) ],
            inr (mkMetrics (Int 7) (Int 3)
                   (Float (S754_finite false 4503599627370496 (-54)))
                   (Float (S754_finite false 7036874417766400 (-46))))))
    by reflexivity.
  split_and!; [exact Hp|exact Hb|exact Hne|exact Hr|
               by vm_compute|by vm_compute|by vm_compute|by vm_compute|].
  exact (proj2 (makespan_is_policy_independent (Round_robin 2) 10 _ _ _
                  Hp Hb Hne Hr)).
Defined.

(** ** Runs whose metrics fit in a float *)

Lemma sumZ_bound xs B :
  Forall (λ x, x ≤ B) xs → sumZ xs ≤ Z.of_nat (length xs) * B.
Proof.
  unfold sumZ. induction 1 as [|x xs Hx _ IH]; [done|].
  cbn [foldr length]. lia.
Qed.

(** The sums that [get_metrics] divides after a complete run are at most
    the number of processes times the makespan. *)
Lemma final_metrics_in_range P sch s :
  productive P →
  Forall (λ p, 0 < burst_time p) (original_processes sch) →
  Forall (λ p, 0 ≤ arrival_time p) (original_processes sch) →
  original_processes sch ≠ [] →
  reach m_guard (drive (discipline P)) (start P sch) s →
  m_guard s = false →
  Z.of_nat (length (original_processes sch))
  * makespan (original_processes sch) < 2 ^ 1000 →
  in_float_range (mkScheduler (original_processes sch) (m_procs s)).
Proof.
  intros Hp Hb Ha Hne Hr Hg Hsmall.
  destruct (reach_uinv P Hp sch s Hb Hr) as [HI _].
  destruct (final_clock P Hp sch s Hb Hne Hr Hg) as (Ht & HC & _).
  destruct (reach_drive_static _ _ _ O Hr) as [Hlen _].
  cbn [start m_procs] in Hlen. rewrite length_map in Hlen.
  assert (Hall : completed_records (m_procs s) = m_procs s).
  { apply filter_all. intros p [j Hj]%list_elem_of_lookup.
    pose proof (lookup_lt_Some _ _ _ Hj) as Hlt.
    apply list_lookup_total_correct in Hj as <-.
    pose proof (all_completed P s j HI Hg Hlt) as Hc.
    unfold is_completed.
    destruct (completion_time (m_procs s !!! j)); [done|congruence]. }
  assert (Hfin : Forall finished (m_procs s)).
  { apply Forall_lookup. intros j p Hj.
    pose proof (lookup_lt_Some _ _ _ Hj) as Hlt.
    apply list_lookup_total_correct in Hj as <-.
    pose proof (all_completed P s j HI Hg Hlt) as Hc.
    pose proof (inv_record _ _ _ _ HI j Hlt) as Hrec.
    pose proof (inv_burst _ _ _ _ HI j Hlt) as Hbj.
    destruct (completion_time (m_procs s !!! j)) as [c|] eqn:E; [|done].
    exists c. split_and!; [done|lia|done]. }
  pose proof (finished_sums _ Hfin) as (L1 & L2 & S1 & S2 & S3).
  pose proof (finished_burst_sum _ Hfin) as S4.
  assert (S5 : sumZ (omap turnaround_time (m_procs s))
               ≤ Z.of_nat (length (original_processes sch))
                 * makespan (original_processes sch)).
  { rewrite <- Hlen, <- L2. apply sumZ_bound. apply Forall_forall.
    intros x (p & [j Hj]%list_elem_of_lookup & Hx)%list_elem_of_omap.
    pose proof (lookup_lt_Some _ _ _ Hj) as Hlt.
    apply list_lookup_total_correct in Hj as <-.
    unfold turnaround_time in Hx.
    destruct (completion_time (m_procs s !!! j)) as [c|] eqn:E; [|done].
    injection Hx as <-. specialize (HC j c Hlt E).
    destruct (reach_drive_static _ _ _ j Hr) as [_ Hf].
    apply (f_equal arrival_time) in Hf. cbn [fresh arrival_time] in Hf.
    assert (0 ≤ arrival_time (m_procs s !!! j)); [|lia].
    rewrite Hf. cbn [start m_procs].
    destruct (fresh_lookup (original_processes sch) j) as (p & Hin & ->).
    { by rewrite length_map, <- Hlen. }
    rewrite Forall_forall in Ha. cbn [fresh arrival_time]. by apply Ha. }
  unfold in_float_range. cbn [processes]. rewrite Hall. lia.
Qed.

(** A call on such a workload returns metrics. *)
Lemma bounded_run_returns P sch :
  productive P →
  Forall (λ p, 0 < burst_time p) (original_processes sch) →
  Forall (subscript_ok P) (original_processes sch) →
  Forall (λ p, 0 ≤ arrival_time p) (original_processes sch) →
  original_processes sch ≠ [] →
  Z.of_nat (length (original_processes sch))
  * makespan (original_processes sch) < 2 ^ 1000 →
  ∃ fuel sch' m,
    (∀ fuel', (fuel ≤ fuel')%nat → run P fuel' sch = Some (sch', inr m))
    ∧ original_processes sch' = original_processes sch.
Proof.
  intros Hp Hb Hs Ha Hne Hsmall.
  destruct (drive_loop_completes P sch Hb Hp Hs) as (fuel & s & Hl & Hg & Hr).
  pose proof (final_metrics_in_range P sch s Hp Hb Ha Hne Hr Hg Hsmall)
    as Hrange.
  assert (Hrun : ∀ fuel', (fuel ≤ fuel')%nat →
            run P fuel' sch
            = Some (mkScheduler (original_processes sch) (m_procs s),
                    get_metrics (mkScheduler (original_processes sch)
                                             (m_procs s)))).
  { intros fuel' Hle. by rewrite run_drive, (Hl fuel' Hle). }
  destruct (run_visits _ _ _ _ _ (Hrun fuel (le_n _))) as [Hv _].
  destruct (get_metrics (mkScheduler _ _)) as [e|m] eqn:E.
  - exfalso. pose proof E as (c & cs & Hc & _)%get_metrics_raises.
    destruct (visits_divisor_positive P sch (m_procs s))
      as (c' & cs' & Hc' & Hpos); [|done| |].
    { eapply Forall_impl; [exact Hb|]. cbn. intros; lia. }
    { intros E'. cbn [processes] in Hc. by rewrite E' in Hc. }
    destruct (get_metrics_small _ c' cs' Hrange Hc') as [m Hm]; [lia|].
    by rewrite Hm in E.
  - by exists fuel, (mkScheduler (original_processes sch) (m_procs s)), m.
Qed.

(** ** [generate_processes] and [run_simulation]

    [random.randint] reads and advances the state of Python's global
    generator; the embedding passes that state along.  The dictionary
    [results] of [run_simulation] is the list of its entries in insertion
    order; the [print] calls that follow it are not modelled. *)

From Stdlib Require String.
Import String.StringSyntax.
#[local] Delimit Scope string_scope with string.

Section Simulation.
Variable Rng : Type.
Variable randint : Z → Z → Rng → Z * Rng.

(** The [for] loop of [generate_processes], [count] iterations from [i]. *)
Fixpoint generate_loop (count : nat) (i : Z) (g : Rng) (processes : list Process)
    : list Process * Rng :=
  match count with
  | O => (processes, g)
  | S count =>
      let (arrival, g1) := randint 0 50 g in
      let (burst, g2) := randint 1 20 g1 in
      let (prio, g3) := randint 0 10 g2 in
      generate_loop count (i + 1) g3
        (processes ++ [mkProcess i arrival burst prio 0 None None])
  end.

Definition generate_processes (num_processes : Z) (g : Rng)
    : list Process * Rng :=
  generate_loop (Z.to_nat num_processes) 0 g [].

(** The entries of the dictionary display, in evaluation order. *)
Definition simulation_calls : list (String.string * Policy) :=
  [ ("FCFS"%string, FCFS);
    ("SJF (Non-preemptive)"%string, SJF_nonpreemptive);
    ("SJF (Preemptive)"%string, SJF_preemptive);
    ("Round Robin"%string, Round_robin 2);
    ("Priority (Non-preemptive)"%string, Priority_nonpreemptive);
    ("Priority (Preemptive)"%string, Priority_preemptive);
    ("Multilevel Queue"%string, Multilevel_queue 2) ].

(** The calls are made one after the other on the same scheduler; an
    exception leaves the display. *)
Fixpoint run_calls (fuel : nat) (calls : list (String.string * Policy))
    (sch : Scheduler) (results : list (String.string * Metrics))
    : option (Scheduler * result (list (String.string * Metrics))) :=
  match calls with
  | [] => Some (sch, inr results)
  | (name, P) :: calls =>
      match run P fuel sch with
      | None => None
      | Some (sch', inl e) => Some (sch', inl e)
      | Some (sch', inr metrics) =>
          run_calls fuel calls sch' (results ++ [(name, metrics)])
      end
  end.

Definition run_simulation (fuel : nat) (g : Rng)
    : option (result (list (String.string * Metrics)) * Rng) :=
  let (processes, g') := generate_processes 20 g in
  match run_calls fuel simulation_calls (Scheduler_init processes) [] with
  | None => None
  | Some (_, r) => Some (r, g')
  end.

(** What [generate_processes] promises of every process it builds. *)
Definition generated (p : Process) : Prop :=
  0 ≤ arrival_time p ≤ 50 ∧ 1 ≤ burst_time p ≤ 20 ∧ 0 ≤ priority p ≤ 10
  ∧ remaining_time p = 0 ∧ start_time p = None ∧ completion_time p = None.

Hypothesis randint_range : ∀ a b g, a ≤ b → a ≤ (randint a b g).1 ≤ b.

Lemma generate_loop_spec count i g acc :
  ∃ new g',
    generate_loop count i g acc = (acc ++ new, g')
    ∧ map pid new = map (λ k, i + Z.of_nat k) (seq 0 count)
    ∧ Forall generated new.
Proof.
  revert i g acc. induction count as [|count IH]; intros i g acc.
  { exists [], g. by rewrite app_nil_r. }
  cbn [generate_loop].
  pose proof (randint_range 0 50 g ltac:(lia)) as Ha.
  destruct (randint 0 50 g) as [a g1].
  pose proof (randint_range 1 20 g1 ltac:(lia)) as Hb.
  destruct (randint 1 20 g1) as [b g2].
  pose proof (randint_range 0 10 g2 ltac:(lia)) as Hp.
  destruct (randint 0 10 g2) as [pr g3]. cbn [fst] in Ha, Hb, Hp.
  destruct (IH (i + 1) g3 (acc ++ [mkProcess i a b pr 0 None None]))
    as (new & g' & -> & Hpid & Hgen).
  exists (mkProcess i a b pr 0 None None :: new), g'. split_and!.
  - by rewrite <- app_assoc.
  - cbn [map seq pid]. rewrite Hpid. f_equal; [lia|].
    rewrite <- (fmap_S_seq 0). rewrite <- list_fmap_compose.
    apply list_fmap_ext. intros _ k _. cbn. lia.
  - apply Forall_cons_2; [|done]. unfold generated. cbn. split_and!; (done || lia).
Qed.

Lemma generated_makespan ps :
  Forall generated ps → makespan ps ≤ 50 + Z.of_nat (length ps) * 20.
Proof.
  intros Hg.
  assert (Hb : ∀ j, (j < length ps)%nat →
                    0 ≤ burst_time (ps !!! j) ≤ 20
                    ∧ arrival_time (ps !!! j) ≤ 50).
  { intros j Hj. apply lookup_lt_is_Some_2 in Hj as [p Hp].
    rewrite (list_lookup_total_correct _ _ _ Hp).
    rewrite Forall_forall in Hg.
    destruct (Hg p) as (? & ? & _); [by eapply list_elem_of_lookup_2|lia]. }
  assert (Hsum : sumZ (map burst_time ps) ≤ Z.of_nat (length ps) * 20).
  { rewrite <- (length_map burst_time). apply sumZ_bound, Forall_forall.
    intros x (p & -> & Hp)%list_elem_of_fmap.
    rewrite Forall_forall in Hg. destruct (Hg p Hp) as (_ & ? & _). lia. }
  unfold makespan. apply horizon_lub. split; [lia|].
  intros j Hj _.
  pose proof (tail_work_le burst_time ps (arrival_time (ps !!! j))
                (λ i Hi, proj1 (proj1 (Hb i Hi)))) as Ht.
  destruct (Hb j Hj) as [_ Harr]. lia.
Qed.

Lemma generated_runs P ps :
  Forall generated ps →
  Forall (λ p, 0 < burst_time p) (original_processes (Scheduler_init ps))
  ∧ Forall (subscript_ok P) (original_processes (Scheduler_init ps))
  ∧ Forall (λ p, 0 ≤ arrival_time p) (original_processes (Scheduler_init ps)).
Proof.
  intros Hg. cbn [Scheduler_init reset_processes original_processes].
  split_and!; (eapply Forall_impl; [exact Hg|]); intros p (? & ? & ? & _).
  - lia.
  - destruct P; cbn; try done. lia.
  - lia.
Qed.

Lemma run_calls_completes calls sch acc :
  Forall (λ p, 0 < burst_time p) (original_processes sch) →
  Forall (λ p, 0 ≤ arrival_time p) (original_processes sch) →
  original_processes sch ≠ [] →
  Z.of_nat (length (original_processes sch))
  * makespan (original_processes sch) < 2 ^ 1000 →
  Forall (λ c, productive c.2
               ∧ Forall (subscript_ok c.2) (original_processes sch)) calls →
  ∃ fuel sch' results,
    (∀ fuel', (fuel ≤ fuel')%nat →
       run_calls fuel' calls sch acc = Some (sch', inr (acc ++ results)))
    ∧ map fst results = map fst calls.
Proof.
  intros Hb Ha Hne Hsmall Hc. revert sch acc Hb Ha Hne Hsmall Hc.
  induction calls as [|[name P] calls IH]; intros sch acc Hb Ha Hne Hsmall Hc.
  { exists O, sch, []. split; [|done]. intros. cbn. by rewrite app_nil_r. }
  apply Forall_cons in Hc as [[Hp Hs] Hc]. cbn [snd] in Hp, Hs.
  destruct (bounded_run_returns P sch Hp Hb Hs Ha Hne Hsmall)
    as (f1 & sch1 & m & Hrun & Ho).
  destruct (IH sch1 (acc ++ [(name, m)])) as (f2 & sch2 & rs & Hrest & Hn);
    [by rewrite Ho..|].
  exists (f1 `max` f2)%nat, sch2, ((name, m) :: rs). split.
  - intros fuel' Hf. cbn [run_calls]. rewrite Hrun by lia.
    rewrite Hrest by lia. by rewrite <- app_assoc.
  - cbn. by rewrite Hn.
Qed.

(** X12. Whatever the generator state, [generate_processes n] returns
    [max n 0] descriptors whose pids are 0, 1, ... in list order, each
    with an arrival time in 0..50, a burst time in 1..20, a priority in
    0..10 and a remaining time of 0 (which [Scheduler.__init__] then
    overwrites with the burst time); so its workloads have distinct
    pids and meet the preconditions of every policy. *)
Theorem generate_processes_valid (num_processes : Z) (g : Rng) :
  let ps := (generate_processes num_processes g).1 in
  length ps = Z.to_nat num_processes
  ∧ map pid ps = map Z.of_nat (seq 0 (Z.to_nat num_processes))
  ∧ Forall generated ps
  ∧ valid_descriptors ps
  ∧ Forall (λ p, remaining_time p = burst_time p)
           (processes (Scheduler_init ps)).
Proof.
  cbn zeta. unfold generate_processes.
  destruct (generate_loop_spec (Z.to_nat num_processes) 0 g [])
    as (new & g' & -> & Hpid & Hgen).
  cbn [fst app].
  assert (Hpid' : map pid new = map Z.of_nat (seq 0 (Z.to_nat num_processes))).
  { rewrite Hpid. apply list_fmap_ext. intros _ k _. lia. }
  split_and!; [|done|done| |].
  - rewrite <- (length_map pid), Hpid', length_map. apply length_seq.
  - split.
    + rewrite Hpid'. apply NoDup_fmap_2; [apply _|apply NoDup_seq].
    + eapply Forall_impl; [exact Hgen|]. intros p (? & ? & _). lia.
  - cbn [Scheduler_init reset_processes processes original_processes].
    apply Forall_fmap, Forall_true. done.
Qed.

(** X13. Whatever the generator state, [run_simulation] neither raises
    nor runs forever: with enough fuel it builds the dictionary [results]
    with one entry of metrics for each of the seven policies, in the
    order of the source. *)
Theorem run_simulation_completes (g : Rng) :
  ∃ fuel results g',
    (∀ fuel', (fuel ≤ fuel')%nat →
       run_simulation fuel' g = Some (inr results, g'))
    ∧ map fst results
      = [ "FCFS"; "SJF (Non-preemptive)"; "SJF (Preemptive)"; "Round Robin";
          "Priority (Non-preemptive)"; "Priority (Preemptive)";
          "Multilevel Queue" ]%string.
Proof.
  unfold run_simulation, generate_processes.
  destruct (generate_loop_spec (Z.to_nat 20) 0 g [])
    as (ps & g' & -> & Hpid & Hgen). cbn [app].
  assert (Hlen : length ps = 20%nat).
  { by rewrite <- (length_map pid), Hpid, length_map, length_seq. }
  destruct (run_calls_completes simulation_calls (Scheduler_init ps) [])
    as (fuel & sch' & results & Hrun & Hn).
  { by apply (generated_runs FCFS). }
  { by apply (generated_runs FCFS). }
  { cbn. by destruct ps. }
  { pose proof (generated_makespan ps Hgen) as Hm.
    change (original_processes (Scheduler_init ps)) with ps.
    rewrite Hlen in *. apply (Z.le_lt_trans _ 9000); [lia|done]. }
  { repeat (apply Forall_cons_2; [split; [cbn; lia|]|]);
      [by apply (generated_runs FCFS).. | |apply Forall_nil_2].
    by apply (generated_runs (Multilevel_queue 2)). }
  exists fuel, results, g'. split; [|exact Hn].
  intros fuel' Hf. by rewrite (Hrun fuel' Hf).
Qed.
End Simulation.

(** A small congruential generator, to run the simulation on. *)
Definition lcg (a b g : Z) : Z * Z :=
  (a + g mod (b - a + 1), (g * 5 + 3) mod 64).

Lemma lcg_range a b g : a ≤ b → a ≤ (lcg a b g).1 ≤ b.
Proof.
  intros Hab. cbn [lcg fst].
  pose proof (Z.mod_pos_bound g (b - a + 1) ltac:(lia)). lia.
Qed.

Lemma generate_processes_valid_witness :
  (∀ a b g, a ≤ b → a ≤ (lcg a b g).1 ≤ b)
  ∧ (generate_processes Z lcg 3 7).1
    = [ mkProcess 0 7 19 1 0 None None;
        mkProcess 1 8 4 4 0 None None;
        mkProcess 2 5 9 4 0 None None ]
  ∧ map pid (generate_processes Z lcg 3 7).1 = [0; 1; 2]
  ∧ valid_descriptors (generate_processes Z lcg 3 7).1.
Proof.
  pose proof (generate_processes_valid Z lcg lcg_range 3 7)
    as (_ & Hpid & _ & Hv & _).
  split_and!; [exact lcg_range|reflexivity|exact Hpid|exact Hv].
Defined.

Lemma run_simulation_completes_witness :
  (∀ a b g, a ≤ b → a ≤ (lcg a b g).1 ≤ b)
  ∧ ∃ fuel results g',
      (∀ fuel', (fuel ≤ fuel')%nat →
         run_simulation Z lcg fuel' 7 = Some (inr results, g'))
      ∧ length results = 7%nat.
Proof.
  split; [exact lcg_range|].
  destruct (run_simulation_completes Z lcg lcg_range 7)
    as (fuel & results & g' & Hrun & Hn).
  exists fuel, results, g'. split; [exact Hrun|].
  by rewrite <- (length_map fst), Hn.
Defined.
